(** * DecodeNote: identifier codec, input classifier and event validator

    A shallow embedding of [src/utils/nostr.ts] (the file that holds
    [parseInput], [decodeBech32Identifier], [decodeTLV], [bytesToNumber]
    and [validateEvent]) and the properties of it that the specification
    states.

    Conventions of the embedding:
    - a JavaScript string is the list of its UTF-16 code units ([jsstring]);
    - a [Uint8Array] is a [list byte];
    - [undefined] is [None];
    - a [throw] is the [Throw] constructor of [result]; [try]/[catch] is
      [try_catch];
    - a number of an event is a double ([Number.t]); an integer that the
      code computes with bytes, lengths and offsets is a [Z]. *)

From Stdlib Require Import ZArith NArith List String Ascii Bool Lia.
From Stdlib Require Import Strings.Byte Numbers.DecimalString.
From Equations Require Import Equations.
From Equations.Prop Require Import Logic.
Import ListNotations.

Set Implicit Arguments.
Set Warnings "-register-all".

(** ** JavaScript strings *)

Definition jsstring := list N.

(** An ASCII literal as a JavaScript string. *)
Definition lit (s : string) : jsstring :=
  map N_of_ascii (list_ascii_of_string s).

(** [a === b] on strings. *)
Fixpoint streq (a b : jsstring) : bool :=
  match a, b with
  | [], [] => true
  | x :: a', y :: b' => N.eqb x y && streq a' b'
  | _, _ => false
  end.

(** WhiteSpace and LineTerminator of ECMA-262, the code units that
    [String.prototype.trim] removes. *)
Definition isWhiteSpace (c : N) : bool :=
  existsb (N.eqb c)
    [0x09; 0x0A; 0x0B; 0x0C; 0x0D; 0x20; 0xA0; 0x1680; 0x2028; 0x2029;
     0x202F; 0x205F; 0x3000; 0xFEFF]%N
  || (0x2000 <=? c)%N && (c <=? 0x200A)%N.

Fixpoint trimStart (s : jsstring) : jsstring :=
  match s with
  | c :: s' => if isWhiteSpace c then trimStart s' else s
  | [] => []
  end.

Definition trimEnd (s : jsstring) : jsstring := rev (trimStart (rev s)).

(** [s.trim()] *)
Definition trim (s : jsstring) : jsstring := trimEnd (trimStart s).

(** [s.startsWith(p)] *)
Fixpoint startsWith (s p : jsstring) {struct p} : bool :=
  match p, s with
  | [], _ => true
  | x :: p', y :: s' => N.eqb x y && startsWith s' p'
  | _ :: _, [] => false
  end.

(** [s] without the prefix [p], when it starts with it. *)
Fixpoint stripPrefix (p s : jsstring) {struct p} : option jsstring :=
  match p, s with
  | [], _ => Some s
  | x :: p', y :: s' => if (x =? y)%N then stripPrefix p' s' else None
  | _ :: _, [] => None
  end.

(** [s.substring(n)] for a non-negative integer [n]. *)
Definition substring (s : jsstring) (n : nat) : jsstring := skipn n s.

(** [s.toLowerCase()] on the ASCII letters.  The code applies it to strings
    of hexadecimal digits only. *)
Definition toLowerCase (s : jsstring) : jsstring :=
  map (fun c => if (0x41 <=? c)%N && (c <=? 0x5A)%N then (c + 0x20)%N else c) s.

(** [String(n)] for a natural number and for an integer (decimal digits;
    JavaScript prints integers of magnitude below 10^21 this way). *)
Definition N_toString (n : N) : jsstring :=
  lit (NilZero.string_of_uint (N.to_uint n)).

Definition Z_toString (z : Z) : jsstring :=
  lit (NilZero.string_of_int (Z.to_int z)).

(** ** Numbers *)

Module Number.
Local Open Scope Z_scope.

(** A Number is an IEEE 754 double: [Finite s m e] is (-1)^s * m * 2^e,
    with [m] below 2^53 and [e] from -1074 to 971 ([Finite true 0 0] is -0).
    A double may be written with more than one pair of [m] and [e]; what
    follows reads the value. *)
Inductive t :=
| NaN
| Infinity (negative : bool)
| Finite (negative : bool) (mantissa : N) (exponent : Z).

(** The Number of an integer of magnitude up to 2^53. *)
Definition ofZ (z : Z) : t := Finite (z <? 0) (Z.abs_N z) 0.

(** An integer of magnitude below 2^53, written as [ofZ] writes it (with
    the exponent 0); -0 is not one. *)
Definition isPlainInteger (x : t) : bool :=
  match x with
  | Finite negative m e =>
      (e =? 0) && (m <? 2 ^ 53)%N && negb (negative && (m =? 0)%N)
  | _ => false
  end.

(** The order of [s * 10^t] and [a * 2^b]. *)
Definition compareScaled (s t a b : Z) : comparison :=
  (s * 10 ^ Z.max t 0 * 2 ^ Z.max (- b) 0 ?= a * 2 ^ Z.max b 0 * 10 ^ Z.max (- t) 0).

(** The double with a mantissa of 53 bits, or of fewer at the least
    exponent. *)
Definition normalize (m e : Z) : Z * Z :=
  let shift := Z.min (52 - Z.log2 m) (e + 1074) in
  (Z.shiftl m shift, e - shift).

(** Whether the decimal [s * 10^t] is read as the double [m * 2^e], the pair
    normalized: it lies between the midpoints to the two neighbours of the
    double, and a midpoint is read as the double of even mantissa. *)
Definition readsAs (m e s t : Z) : bool :=
  let below := if (m =? 2 ^ 52) && (-1074 <? e) then 1 else 2 in
  match compareScaled s t (4 * m - below) (e - 2), compareScaled s t (4 * m + 2) (e - 2) with
  | Gt, Lt => true
  | Eq, Lt | Gt, Eq => Z.even m
  | _, _ => false
  end.

(** The [n] with 10^(n-1) <= m * 2^e < 10^n, looked for around the estimate
    that the binary logarithm gives. *)
Definition decimalExponent (m e : Z) : Z :=
  let est := (Z.log2 m + e) * 30103 / 100000 in
  match find (fun n => match compareScaled 1 n m e with Gt => true | _ => false end)
             [est - 1; est; est + 1; est + 2] with
  | Some n => n
  | None => est + 3
  end.

(** The digits [s], of which there are [k], and the decimal exponent, when
    a decimal of [k] digits is read as the double: the decimal nearest to
    the double, and the even one of two as near.  The decimal 10^n has one
    digit and the exponent [n + 1]. *)
Definition digitsOfLength (m e n k : Z) : option (Z * Z * Z) :=
  let p := n - k in
  let lo := (m * 2 ^ Z.max e 0 * 10 ^ Z.max (- p) 0) / (2 ^ Z.max (- e) 0 * 10 ^ Z.max p 0) in
  let hi := lo + 1 in
  let pick s := if s =? 10 ^ k then Some (1, n + 1, 1) else Some (s, n, k) in
  match readsAs m e lo p, readsAs m e hi p with
  | true, true =>
      match compareScaled (lo + hi) p (2 * m) e with
      | Gt => pick lo
      | Lt => pick hi
      | Eq => pick (if Z.even lo then lo else hi)
      end
  | true, false => pick lo
  | false, true => pick hi
  | false, false => None
  end.

(** The least number of digits from [k] on; 17 digits tell any two doubles
    apart, so the search ends. *)
Fixpoint shortestFrom (fuel : nat) (m e n k : Z) : Z * Z * Z :=
  match fuel with
  | O => (m, n, k)
  | S fuel' =>
      match digitsOfLength m e n k with
      | Some r => r
      | None => shortestFrom fuel' m e n (k + 1)
      end
  end.

(** The integers [s], [n] and [k] of Number::toString for the double
    [m * 2^e], positive: [k] as small as possible with
    10^(k-1) <= s < 10^k and [s * 10^(n-k)] read as the double. *)
Definition shortest (m e : Z) : Z * Z * Z :=
  let '(m', e') := normalize m e in
  shortestFrom 17 m' e' (decimalExponent m' e') 1.

Definition zeros (n : Z) : jsstring := repeat 0x30%N (Z.to_nat n).

(** The text for [s], [n] and [k]: the digits of [s] followed by [n - k]
    zeros (the decimal digits of [s * 10^(n-k)]); or with a point after [n]
    digits; or after [0.] and [-n] zeros; or in exponent form. *)
Definition format (s n k : Z) : jsstring :=
  let ds := Z_toString s in
  if (k <=? n) && (n <=? 21) then Z_toString (s * 10 ^ (n - k))
  else if (0 <? n) && (n <=? 21) then
    firstn (Z.to_nat n) ds ++ lit "." ++ skipn (Z.to_nat n) ds
  else if (-6 <? n) && (n <=? 0) then lit "0." ++ zeros (- n) ++ ds
  else
    let exponent :=
      (if n - 1 <? 0 then lit "e-" else lit "e+") ++ Z_toString (Z.abs (n - 1)) in
    if k =? 1 then ds ++ exponent
    else firstn 1 ds ++ lit "." ++ skipn 1 ds ++ exponent.

(** [Number::toString(x)] in radix 10. *)
Definition toString (x : t) : jsstring :=
  match x with
  | NaN => lit "NaN"
  | Infinity negative => if negative then lit "-Infinity" else lit "Infinity"
  | Finite negative m e =>
      if (m =? 0)%N then lit "0"
      else
        let '(s, n, k) := shortest (Z.of_N m) e in
        (if negative then lit "-" else []) ++ format s n k
  end.

End Number.

Definition number := Number.t.

(** ** Exceptions *)

Inductive result (A : Type) : Type :=
| Ok (a : A)
| Throw (message : jsstring).
Arguments Ok {A} a.
Arguments Throw {A} message.

Definition bind {A B} (c : result A) (k : A -> result B) : result B :=
  match c with
  | Ok a => k a
  | Throw m => Throw m
  end.

(** [try { c } catch (e) { handler e }] *)
Definition try_catch {A} (c : result A) (handler : jsstring -> result A) : result A :=
  match c with
  | Ok a => Ok a
  | Throw m => handler m
  end.

Declare Scope js_scope.
Delimit Scope js_scope with js.
Notation "x <- c ;; k" := (bind c (fun x => k))
  (at level 61, c at next level, right associativity) : js_scope.
Notation "' p <- c ;; k" := (bind c (fun x => let 'p := x in k))
  (at level 61, p pattern, c at next level, right associativity) : js_scope.

(** ** Bytes, hexadecimal and numbers *)

Definition byteval (b : byte) : Z := Z.of_N (Byte.to_N b).

(** One hexadecimal digit, lowercase, as [Number.prototype.toString(16)]
    prints it. *)
Definition hexDigit (n : N) : N :=
  if (n <? 10)%N then (0x30 + n)%N else (0x57 + n)%N.

(** [b.toString(16).padStart(2, '0')] for a byte. *)
Definition hex2 (b : byte) : jsstring :=
  [hexDigit (Byte.to_N b / 16); hexDigit (Byte.to_N b mod 16)].

Definition bytesToHex (bytes : list byte) : jsstring := flat_map hex2 bytes.

(** [ToInt32]: the signed 32-bit integer congruent modulo 2^32. *)
Definition toInt32 (z : Z) : Z := ((z + 2 ^ 31) mod 2 ^ 32 - 2 ^ 31)%Z.

(** [a << k] of JavaScript for [0 <= k < 32]: the operand is converted with
    [ToInt32], shifted, and the low 32 bits are read as a signed integer. *)
Definition shl32 (a k : Z) : Z := toInt32 (Z.shiftl (toInt32 a) k).

(** [bytesToNumber]: [result = (result << 8) + bytes[i]] over the bytes. *)
Definition bytesToNumber (bytes : list byte) : Z :=
  fold_left (fun result b => (shl32 result 8 + byteval b)%Z) bytes 0%Z.

(** ** TextDecoder: UTF-8 to UTF-16 *)

Module TextDecoder.

(** The decoder of the WHATWG Encoding standard: the bytes still needed
    for the current code point, the code point so far, and the range the
    next byte must lie in. *)
Record state := St { needed : nat; codepoint : N; lower : N; upper : N }.

Definition idle : state := St 0 0 0x80 0xBF.

Definition replacement : N := 0xFFFD.

(** A byte read when no sequence is open. *)
Definition lead (b : N) : list N * state :=
  if (b <=? 0x7F)%N then ([b], idle)
  else if (0xC2 <=? b)%N && (b <=? 0xDF)%N then
    ([], St 1 (N.land b 0x1F) 0x80 0xBF)
  else if (0xE0 <=? b)%N && (b <=? 0xEF)%N then
    ([], St 2 (N.land b 0xF)
            (if (b =? 0xE0)%N then 0xA0 else 0x80)
            (if (b =? 0xED)%N then 0x9F else 0xBF))
  else if (0xF0 <=? b)%N && (b <=? 0xF4)%N then
    ([], St 3 (N.land b 0x7)
            (if (b =? 0xF0)%N then 0x90 else 0x80)
            (if (b =? 0xF4)%N then 0x8F else 0xBF))
  else ([replacement], idle).

Definition step (st : state) (b : N) : list N * state :=
  match needed st with
  | O => lead b
  | S k =>
      if (lower st <=? b)%N && (b <=? upper st)%N then
        let cp := N.lor (N.shiftl (codepoint st) 6) (N.land b 0x3F) in
        match k with
        | O => ([cp], idle)
        | S _ => ([], St k cp 0x80 0xBF)
        end
      else
        (* the byte is read again as the first byte of a sequence *)
        let '(out, st') := lead b in (replacement :: out, st')
  end.

Fixpoint run (st : state) (bytes : list byte) : list N :=
  match bytes with
  | [] => match needed st with O => [] | S _ => [replacement] end
  | b :: rest =>
      let '(out, st') := step st (Byte.to_N b) in out ++ run st' rest
  end.

Definition utf16 (cp : N) : list N :=
  if (cp <? 0x10000)%N then [cp]
  else [(0xD800 + (cp - 0x10000) / 0x400)%N; (0xDC00 + (cp - 0x10000) mod 0x400)%N].

(** [new TextDecoder().decode(bytes)]: malformed input is replaced by
    U+FFFD (the decoder is not fatal) and a leading byte order mark is
    dropped. *)
Definition decode (bytes : list byte) : jsstring :=
  let cps := run idle bytes in
  let cps' := match cps with
              | c :: rest => if (c =? 0xFEFF)%N then rest else cps
              | [] => []
              end in
  flat_map utf16 cps'.

End TextDecoder.

(** ** Decoded identifiers *)

Inductive IdType := npub | nsec | note | nevent | nprofile | naddr.

Module TLV.
(** One entry of [DecodedIdentifier.tlv].  [length] is [data[offset + 1]],
    which is [undefined] when the type byte is the last byte of the
    payload. *)
Record entry := Entry {
  type : byte;
  typeName : jsstring;
  length : option byte;
  value : jsstring
}.
End TLV.

Module Ident.
(** The optional members of [DecodedIdentifier.data]. *)
Record fields := Fields {
  id : option jsstring;
  pubkey : option jsstring;
  relays : option (list jsstring);
  author : option jsstring;
  kind : option Z;
  dTag : option jsstring
}.

Definition empty : fields := Fields None None None None None None.

Definition set_id v (d : fields) := Fields (Some v) (pubkey d) (relays d) (author d) (kind d) (dTag d).
Definition set_pubkey v (d : fields) := Fields (id d) (Some v) (relays d) (author d) (kind d) (dTag d).
Definition set_author v (d : fields) := Fields (id d) (pubkey d) (relays d) (Some v) (kind d) (dTag d).
Definition set_kind v (d : fields) := Fields (id d) (pubkey d) (relays d) (author d) (Some v) (dTag d).
Definition set_dTag v (d : fields) := Fields (id d) (pubkey d) (relays d) (author d) (kind d) (Some v).

(** [if (!d.relays) d.relays = []; d.relays.push(v)] *)
Definition push_relay v (d : fields) :=
  Fields (id d) (pubkey d)
         (Some (match relays d with Some rs => rs ++ [v] | None => [v] end))
         (author d) (kind d) (dTag d).

(** [DecodedIdentifier]; [tlv] is absent for [npub], [nsec] and [note]. *)
Record t := Make {
  type : IdType;
  data : fields;
  tlv : option (list TLV.entry)
}.
End Ident.

Definition DecodedIdentifier := Ident.t.

(** [getTLVTypeName] *)
Definition getTLVTypeName (type : byte) : jsstring :=
  match Byte.to_N type with
  | 0%N => lit "special"
  | 1%N => lit "relay"
  | 2%N => lit "author"
  | 3%N => lit "kind"
  | 4%N => lit "d-tag"
  | n => lit "unknown(" ++ N_toString n ++ lit ")"
  end.

(** [data.slice(start, start + length)] where [length] is a byte of the
    array or [undefined]; with [undefined] the end index is NaN, which
    [slice] reads as 0. *)
Definition slice (data : list byte) (start : nat) (length : option byte) : list byte :=
  match length with
  | Some l => firstn (N.to_nat (Byte.to_N l)) (skipn start data)
  | None => []
  end.

(** The [switch (tlvType)] of [decodeTLV]. *)
Definition parseTLV (type : IdType) (tlvType : byte) (value : list byte)
    (d : Ident.fields) : Ident.fields :=
  match Byte.to_N tlvType with
  | 0%N =>
      match type with
      | nevent => Ident.set_id (bytesToHex value) d
      | nprofile | naddr => Ident.set_pubkey (bytesToHex value) d
      | _ => d
      end
  | 1%N => Ident.push_relay (TextDecoder.decode value) d
  | 2%N => Ident.set_author (bytesToHex value) d
  | 3%N => Ident.set_kind (bytesToNumber value) d
  | 4%N => Ident.set_dTag (TextDecoder.decode value) d
  | _ => d
  end.

(** The body of the loop up to [offset += 2 + length]. *)
Definition decodeTLV_body (data : list byte) (offset : nat) (tlvType : byte)
    (result : DecodedIdentifier) : DecodedIdentifier :=
  let length := nth_error data (offset + 1) in
  let value := slice data (offset + 2) length in
  let tlvEntry := TLV.Entry tlvType (getTLVTypeName tlvType) length (bytesToHex value) in
  Ident.Make (Ident.type result)
    (parseTLV (Ident.type result) tlvType value (Ident.data result))
    (Some (match Ident.tlv result with Some es => es ++ [tlvEntry] | None => [tlvEntry] end)).

(** [while (offset < data.length) { ... offset += 2 + length }].  The test
    holds exactly when [data[offset]] is defined; when [length] is
    [undefined] the new offset is NaN and the test fails. *)
Equations? decodeTLV_loop (data : list byte) (offset : nat)
    (result : DecodedIdentifier) : DecodedIdentifier
    by wf (List.length data - offset) lt :=
  decodeTLV_loop data offset result with inspect (nth_error data offset) := {
    | exist _ None _ := result
    | exist _ (Some tlvType) Hty with nth_error data (offset + 1) := {
        | Some len :=
            decodeTLV_loop data (offset + 2 + N.to_nat (Byte.to_N len))
              (decodeTLV_body data offset tlvType result)
        | None := decodeTLV_body data offset tlvType result } }.
Proof.
  assert (offset < List.length data) by (apply nth_error_Some; congruence).
  lia.
Qed.

(** [decodeTLV] *)
Definition decodeTLV (type : IdType) (data : list byte) : DecodedIdentifier :=
  decodeTLV_loop data 0 (Ident.Make type Ident.empty (Some [])).

(** ** The third-party packages

    [bech32] of [@scure/base] and [schnorr] of [@noble/secp256k1] are not
    part of the repository.  The code is embedded over any implementation of
    the three functions it calls; each may return or throw, and
    [schnorr.verify] returns the boolean that the code stores in
    [sigValid]. *)

Class Bech32 := {
  (** [bech32.decode(str, limit)]: the prefix and the 5-bit words. *)
  bech32_decode : jsstring -> N -> result (jsstring * list N);
  (** [bech32.fromWords(words)] *)
  bech32_fromWords : list N -> result (list byte)
}.

Class Schnorr := {
  (** [schnorr.verify(signature, message, publicKey)] *)
  schnorr_verify : list byte -> list byte -> list byte -> result bool
}.

Local Open Scope js_scope.

(** [decodeBech32Identifier]; [null] is [None].  The handler logs the error
    and returns [null]. *)
Definition decodeBech32Identifier `{Bech32} (identifier : jsstring)
    : result (option DecodedIdentifier) :=
  try_catch
    ('(prefix, words) <- bech32_decode identifier 1023 ;;
     data <- bech32_fromWords words ;;
     if streq prefix (lit "npub") then
       Ok (Some (Ident.Make npub (Ident.set_pubkey (bytesToHex data) Ident.empty) None))
     else if streq prefix (lit "nsec") then
       Ok (Some (Ident.Make nsec (Ident.set_pubkey (bytesToHex data) Ident.empty) None))
     else if streq prefix (lit "note") then
       Ok (Some (Ident.Make note (Ident.set_id (bytesToHex data) Ident.empty) None))
     else if streq prefix (lit "nevent") then Ok (Some (decodeTLV nevent data))
     else if streq prefix (lit "nprofile") then Ok (Some (decodeTLV nprofile data))
     else if streq prefix (lit "naddr") then Ok (Some (decodeTLV naddr data))
     else Ok None)
    (fun error => Ok None).

(** ** JSON.parse *)

(** A JSON value.  A number is kept as its literal: the code only asks
    whether a value is a number.  The members of an object are kept in the
    order of the text, with their repetitions. *)
Inductive json :=
| JNull
| JBool (b : bool)
| JNumber (literal : jsstring)
| JString (s : jsstring)
| JArray (elements : list json)
| JObject (members : list (jsstring * json)).

Module JSON.

Definition isDigit (c : N) : bool := (0x30 <=? c)%N && (c <=? 0x39)%N.

Definition hexValue (c : N) : option N :=
  if isDigit c then Some (c - 0x30)%N
  else if (0x61 <=? c)%N && (c <=? 0x66)%N then Some (c - 0x57)%N
  else if (0x41 <=? c)%N && (c <=? 0x46)%N then Some (c - 0x37)%N
  else None.

(** JSON white space: tab, line feed, carriage return, space. *)
Definition isWS (c : N) : bool :=
  (c =? 0x09)%N || (c =? 0x0A)%N || (c =? 0x0D)%N || (c =? 0x20)%N.

Fixpoint skip_ws (s : jsstring) : jsstring :=
  match s with
  | c :: s' => if isWS c then skip_ws s' else s
  | [] => []
  end.

Fixpoint digits (s : jsstring) : jsstring :=
  match s with
  | c :: s' => if isDigit c then digits s' else s
  | [] => []
  end.

(** At least one digit, then the rest. *)
Definition digits1 (s : jsstring) : option jsstring :=
  match s with
  | c :: s' => if isDigit c then Some (digits s') else None
  | [] => None
  end.

(** The input after an optional character of the given kind. *)
Definition optional (test : N -> bool) (s : jsstring) : jsstring :=
  match s with
  | c :: r => if test c then r else s
  | [] => []
  end.

(** The input after the fraction, if there is one: a point and digits. *)
Definition fraction (s : jsstring) : option jsstring :=
  match s with
  | c :: r => if (c =? 0x2E)%N then digits1 r else Some s
  | [] => Some []
  end.

(** The input after the exponent, if there is one: [e] or [E], a sign or
    none, and digits. *)
Definition exponent (s : jsstring) : option jsstring :=
  match s with
  | c :: r =>
      if (c =? 0x65)%N || (c =? 0x45)%N then
        digits1 (optional (fun x => (x =? 0x2B)%N || (x =? 0x2D)%N) r)
      else Some s
  | [] => Some []
  end.

(** The input after a JSON number, when it starts with one: a minus sign or
    none, 0 or a digit from 1 to 9 and digits, a fraction, an exponent. *)
Definition number_rest (s : jsstring) : option jsstring :=
  match optional (fun x => (x =? 0x2D)%N) s with
  | [] => None
  | c :: r =>
      if isDigit c then
        match fraction (if (c =? 0x30)%N then r else digits r) with
        | Some s3 => exponent s3
        | None => None
        end
      else None
  end.

Definition parse_number (s : jsstring) : option (jsstring * jsstring) :=
  match number_rest s with
  | Some rest => Some (firstn (List.length s - List.length rest) s, rest)
  | None => None
  end.

(** The character a simple escape stands for. *)
Definition escape (e : N) : option N :=
  if (e =? 0x22)%N then Some 0x22%N
  else if (e =? 0x5C)%N then Some 0x5C%N
  else if (e =? 0x2F)%N then Some 0x2F%N
  else if (e =? 0x62)%N then Some 0x08%N
  else if (e =? 0x66)%N then Some 0x0C%N
  else if (e =? 0x6E)%N then Some 0x0A%N
  else if (e =? 0x72)%N then Some 0x0D%N
  else if (e =? 0x74)%N then Some 0x09%N
  else None.

Definition cons_unit (c : N) (rest : option (jsstring * jsstring))
    : option (jsstring * jsstring) :=
  match rest with
  | Some (t, r) => Some (c :: t, r)
  | None => None
  end.

(** The characters of a string after its opening quote, up to the closing
    one, and the input after it. *)
Fixpoint parse_string (s : jsstring) : option (jsstring * jsstring) :=
  match s with
  | [] => None
  | c :: r =>
      if (c =? 0x22)%N then Some ([], r)
      else if (c =? 0x5C)%N then
        match r with
        | [] => None
        | e :: r1 =>
            if (e =? 0x75)%N then
              match r1 with
              | a :: b :: c' :: d :: r4 =>
                  match hexValue a, hexValue b, hexValue c', hexValue d with
                  | Some a', Some b', Some c'', Some d' =>
                      cons_unit (((a' * 16 + b') * 16 + c'') * 16 + d')%N (parse_string r4)
                  | _, _, _, _ => None
                  end
              | _ => None
              end
            else
              match escape e with
              | Some u => cons_unit u (parse_string r1)
              | None => None
              end
        end
      else if (c <? 0x20)%N then None
      else cons_unit c (parse_string r)
  end.

(** A value, given the parsers of the elements of an array and of the
    members of an object. *)
Definition value_body
    (elements : jsstring -> option (list json * jsstring))
    (members : jsstring -> option (list (jsstring * json) * jsstring))
    (s : jsstring) : option (json * jsstring) :=
  let s' := skip_ws s in
  match stripPrefix (lit "null") s' with
  | Some r => Some (JNull, r)
  | None =>
  match stripPrefix (lit "true") s' with
  | Some r => Some (JBool true, r)
  | None =>
  match stripPrefix (lit "false") s' with
  | Some r => Some (JBool false, r)
  | None =>
  match s' with
  | [] => None
  | c :: r =>
      if (c =? 0x22)%N then
        match parse_string r with
        | Some (t, r') => Some (JString t, r')
        | None => None
        end
      else if (c =? 0x5B)%N then
        match stripPrefix (lit "]") (skip_ws r) with
        | Some r' => Some (JArray [], r')
        | None =>
            match elements r with
            | Some (vs, r') => Some (JArray vs, r')
            | None => None
            end
        end
      else if (c =? 0x7B)%N then
        match stripPrefix (lit "}") (skip_ws r) with
        | Some r' => Some (JObject [], r')
        | None =>
            match members r with
            | Some (ms, r') => Some (JObject ms, r')
            | None => None
            end
        end
      else
        match parse_number s' with
        | Some (n, r') => Some (JNumber n, r')
        | None => None
        end
  end end end end.

(** The elements of an array, from its first element to its closing
    bracket. *)
Definition elements_body
    (value : jsstring -> option (json * jsstring))
    (elements : jsstring -> option (list json * jsstring))
    (s : jsstring) : option (list json * jsstring) :=
  match value s with
  | Some (v, r) =>
      match skip_ws r with
      | [] => None
      | c :: r' =>
          if (c =? 0x2C)%N then
            match elements r' with
            | Some (vs, r'') => Some (v :: vs, r'')
            | None => None
            end
          else if (c =? 0x5D)%N then Some ([v], r')
          else None
      end
  | None => None
  end.

(** The members of an object, from its first member to its closing
    brace. *)
Definition members_body
    (value : jsstring -> option (json * jsstring))
    (members : jsstring -> option (list (jsstring * json) * jsstring))
    (s : jsstring) : option (list (jsstring * json) * jsstring) :=
  match stripPrefix [0x22%N] (skip_ws s) with
  | None => None
  | Some r =>
      match parse_string r with
      | None => None
      | Some (k, r1) =>
          match stripPrefix (lit ":") (skip_ws r1) with
          | None => None
          | Some r2 =>
              match value r2 with
              | None => None
              | Some (v, r3) =>
                  match skip_ws r3 with
                  | [] => None
                  | c :: r4 =>
                      if (c =? 0x2C)%N then
                        match members r4 with
                        | Some (ms, r5) => Some ((k, v) :: ms, r5)
                        | None => None
                        end
                      else if (c =? 0x7D)%N then Some ([(k, v)], r4)
                      else None
                  end
              end
          end
      end
  end.

(** The three parsers; each call of one from another spends one unit of
    fuel. *)
Fixpoint parse_value (fuel : nat) (s : jsstring) : option (json * jsstring) :=
  match fuel with
  | O => None
  | S fuel' => value_body (parse_elements fuel') (parse_members fuel') s
  end
with parse_elements (fuel : nat) (s : jsstring) : option (list json * jsstring) :=
  match fuel with
  | O => None
  | S fuel' => elements_body (parse_value fuel') (parse_elements fuel') s
  end
with parse_members (fuel : nat) (s : jsstring)
    : option (list (jsstring * json) * jsstring) :=
  match fuel with
  | O => None
  | S fuel' => members_body (parse_value fuel') (parse_members fuel') s
  end.

(** The fuel that a text needs: a nesting level spends two units and at
    least one character, a further element or member one unit and at least
    two characters. *)
Definition fuel_for (text : jsstring) : nat := S (S (2 * List.length text)).

(** [JSON.parse(text)]: one value between white space, or a SyntaxError. *)
Definition parse (text : jsstring) : result json :=
  match parse_value (fuel_for text) text with
  | Some (v, r) =>
      match skip_ws r with
      | [] => Ok v
      | _ :: _ => Throw (lit "SyntaxError")
      end
  | None => Throw (lit "SyntaxError")
  end.

End JSON.

(** What it is for a parser to consume input: what it leaves is shorter
    than what it was given. *)
Definition consumes {A : Type} (p : jsstring -> option (A * jsstring)) : Prop :=
  forall s a r, p s = Some (a, r) -> (List.length r < List.length s)%nat.


(** ** The classifier *)

(** [!!v] *)
Definition truthy (v : json) : bool :=
  match v with
  | JNull => false
  | JBool b => b
  | JNumber n =>
      (* zero is written with no digit from 1 to 9 before the exponent *)
      let mantissa := fix go (s : jsstring) : jsstring :=
        match s with
        | c :: r => if (c =? 0x65)%N || (c =? 0x45)%N then [] else c :: go r
        | [] => []
        end in
      existsb (fun c => (0x31 <=? c)%N && (c <=? 0x39)%N) (mantissa n)
  | JString s => match s with [] => false | _ :: _ => true end
  | JArray _ | JObject _ => true
  end.

(** [obj.name] for one of the seven names the code reads: the value of the
    last member of that name in an object ([JSON.parse] keeps the last of
    two members of one name), and [undefined] on any other value (none of
    the names is a property of a boolean, number, string or array). *)
Definition get (obj : json) (name : jsstring) : option json :=
  match obj with
  | JObject members =>
      match find (fun m => streq (fst m) name) (rev members) with
      | Some m => Some (snd m)
      | None => None
      end
  | _ => None
  end.

Definition isString (v : option json) : bool :=
  match v with Some (JString _) => true | _ => false end.
Definition isNumber (v : option json) : bool :=
  match v with Some (JNumber _) => true | _ => false end.
Definition isArray (v : option json) : bool :=
  match v with Some (JArray _) => true | _ => false end.

(** [isValidEventStructure], read as a condition. *)
Definition isValidEventStructure (obj : json) : bool :=
  truthy obj &&
  isString (get obj (lit "id")) &&
  isString (get obj (lit "pubkey")) &&
  isNumber (get obj (lit "created_at")) &&
  isNumber (get obj (lit "kind")) &&
  isArray (get obj (lit "tags")) &&
  isString (get obj (lit "content")) &&
  isString (get obj (lit "sig")).

(** The class [[02-9ac-hj-np-z]]. *)
Definition bech32Char (c : N) : bool :=
  (c =? 0x30)%N
  || (0x32 <=? c)%N && (c <=? 0x39)%N
  || (c =? 0x61)%N
  || (0x63 <=? c)%N && (c <=? 0x68)%N
  || (0x6A <=? c)%N && (c <=? 0x6E)%N
  || (0x70 <=? c)%N && (c <=? 0x7A)%N.

(** [s.match(/^(npub|nsec|note|nevent|nprofile|naddr)1[02-9ac-hj-np-z]+$/)]
    as a condition. *)
Definition matchesBech32 (s : jsstring) : bool :=
  existsb
    (fun hrp =>
       match stripPrefix (lit hrp ++ lit "1") s with
       | Some (c :: rest) => forallb bech32Char (c :: rest)
       | _ => false
       end)
    ["npub"; "nsec"; "note"; "nevent"; "nprofile"; "naddr"]%string.

(** The class [[0-9a-f]] under the flag [i]. *)
Definition hexChar (c : N) : bool :=
  (0x30 <=? c)%N && (c <=? 0x39)%N
  || (0x61 <=? c)%N && (c <=? 0x66)%N
  || (0x41 <=? c)%N && (c <=? 0x46)%N.

(** [s.match(/^[0-9a-f]{64}$/i)] as a condition. *)
Definition matchesHex64 (s : jsstring) : bool :=
  (List.length s =? 64)%nat && forallb hexChar s.

Inductive ParsedResult :=
| Event (data : json)
| Identifier (data : DecodedIdentifier).

(** A step of [parseInput] that can [return] a result; [None] goes on to the
    next statement. *)
Definition or_next {A} (step : result (option A)) (next : result (option A))
    : result (option A) :=
  r <- step ;;
  match r with
  | Some a => Ok (Some a)
  | None => next
  end.

Notation "step 'or_else' next" := (or_next step next)
  (at level 62, right associativity) : js_scope.

(** The four blocks of [parseInput] that can return, each over the trimmed
    input. *)

(** [try { parsed = JSON.parse(trimmed); if (isValidEventStructure(parsed))
    return event } catch { }] *)
Definition jsonStep (trimmed : jsstring) : result (option ParsedResult) :=
  try_catch
    (parsed <- JSON.parse trimmed ;;
     if isValidEventStructure parsed then Ok (Some (Event parsed)) else Ok None)
    (fun _ => Ok None).

(** The bech32 identifiers. *)
Definition bech32Step `{Bech32} (trimmed : jsstring) : result (option ParsedResult) :=
  if matchesBech32 trimmed then
    decoded <- decodeBech32Identifier trimmed ;;
    match decoded with
    | Some d => Ok (Some (Identifier d))
    | None => Ok None
    end
  else Ok None.

(** The [nostr:] URI. *)
Definition uriStep `{Bech32} (trimmed : jsstring) : result (option ParsedResult) :=
  if startsWith trimmed (lit "nostr:") then
    let identifier := substring trimmed 6 in
    decoded <- decodeBech32Identifier identifier ;;
    match decoded with
    | Some d => Ok (Some (Identifier d))
    | None => Ok None
    end
  else Ok None.

(** The raw hexadecimal event id of 64 characters. *)
Definition hexStep (trimmed : jsstring) : result (option ParsedResult) :=
  if matchesHex64 trimmed then
    Ok (Some (Identifier
                (Ident.Make note (Ident.set_id (toLowerCase trimmed) Ident.empty) None)))
  else Ok None.

(** [parseInput]; [null] is [None]. *)
Definition parseInput `{Bech32} (input : jsstring) : result (option ParsedResult) :=
  let trimmed := trim input in
  jsonStep trimmed
  or_else bech32Step trimmed
  or_else uriStep trimmed
  or_else hexStep trimmed
  or_else Ok None.

(** ** The validator *)

Module NostrEvent.
(** [NostrEvent] of [types/nostr]. *)
Record t := Make {
  id : jsstring;
  pubkey : jsstring;
  created_at : number;
  kind : number;
  tags : list (list jsstring);
  content : jsstring;
  sig : jsstring
}.
End NostrEvent.

Definition NostrEvent := NostrEvent.t.

Definition byte_of_N (n : N) : byte :=
  match Byte.of_N (n mod 256) with
  | Some b => b
  | None => "000"%byte
  end.

Module Stringify.

Definition isHighSurrogate (c : N) : bool := (0xD800 <=? c)%N && (c <=? 0xDBFF)%N.
Definition isLowSurrogate (c : N) : bool := (0xDC00 <=? c)%N && (c <=? 0xDFFF)%N.

(** [\uXXXX] with lowercase digits. *)
Definition unicodeEscape (c : N) : jsstring :=
  lit "\u" ++ [hexDigit (c / 4096); hexDigit (c / 256 mod 16);
               hexDigit (c / 16 mod 16); hexDigit (c mod 16)].

Definition escapeUnit (c : N) : jsstring :=
  if (c =? 0x08)%N then lit "\b"
  else if (c =? 0x09)%N then lit "\t"
  else if (c =? 0x0A)%N then lit "\n"
  else if (c =? 0x0C)%N then lit "\f"
  else if (c =? 0x0D)%N then lit "\r"
  else if (c =? 0x22)%N then [0x5C; 0x22]%N
  else if (c =? 0x5C)%N then [0x5C; 0x5C]%N
  else if (c <? 0x20)%N then unicodeEscape c
  else [c].

(** QuoteJSONString without the quotes: a surrogate pair is kept, a lone
    surrogate is escaped. *)
Fixpoint quoteBody (s : jsstring) : jsstring :=
  match s with
  | [] => []
  | c :: r =>
      if isHighSurrogate c then
        match r with
        | d :: r' =>
            if isLowSurrogate d then c :: d :: quoteBody r'
            else unicodeEscape c ++ quoteBody r
        | [] => unicodeEscape c
        end
      else if isLowSurrogate c then unicodeEscape c ++ quoteBody r
      else escapeUnit c ++ quoteBody r
  end.

Definition quote (s : jsstring) : jsstring := [0x22%N] ++ quoteBody s ++ [0x22%N].

Fixpoint join (sep : jsstring) (parts : list jsstring) : jsstring :=
  match parts with
  | [] => []
  | [p] => p
  | p :: ps => p ++ sep ++ join sep ps
  end.

Definition array (parts : list jsstring) : jsstring :=
  lit "[" ++ join (lit ",") parts ++ lit "]".

(** A number in JSON: a finite one as [Number::toString] prints it, and
    [null] for NaN and the infinities. *)
Definition number (x : Number.t) : jsstring :=
  match x with
  | Number.Finite _ _ _ => Number.toString x
  | _ => lit "null"
  end.

(** [JSON.stringify([0, pubkey, created_at, kind, tags, content])] *)
Definition eventForId (event : NostrEvent) : jsstring :=
  array [lit "0";
         quote (NostrEvent.pubkey event);
         number (NostrEvent.created_at event);
         number (NostrEvent.kind event);
         array (map (fun tag => array (map quote tag)) (NostrEvent.tags event));
         quote (NostrEvent.content event)].

End Stringify.

Module TextEncoder.

(** The code points of a string; a lone surrogate reads as U+FFFD. *)
Fixpoint codePoints (s : jsstring) : list N :=
  match s with
  | [] => []
  | c :: r =>
      if Stringify.isHighSurrogate c then
        match r with
        | d :: r' =>
            if Stringify.isLowSurrogate d then
              (0x10000 + (c - 0xD800) * 0x400 + (d - 0xDC00))%N :: codePoints r'
            else 0xFFFD%N :: codePoints r
        | [] => [0xFFFD%N]
        end
      else if Stringify.isLowSurrogate c then 0xFFFD%N :: codePoints r
      else c :: codePoints r
  end.

Definition utf8 (cp : N) : list byte :=
  map byte_of_N
    (if (cp <? 0x80)%N then [cp]
     else if (cp <? 0x800)%N then [0xC0 + cp / 64; 0x80 + cp mod 64]
     else if (cp <? 0x10000)%N then
       [0xE0 + cp / 4096; 0x80 + cp / 64 mod 64; 0x80 + cp mod 64]
     else
       [0xF0 + cp / 262144; 0x80 + cp / 4096 mod 64;
        0x80 + cp / 64 mod 64; 0x80 + cp mod 64])%N.

(** [new TextEncoder().encode(s)] *)
Definition encode (s : jsstring) : list byte := flat_map utf8 (codePoints s).

End TextEncoder.

(** SHA-256 of FIPS 180-4, what [crypto.subtle.digest('SHA-256', data)]
    computes, on 32-bit words held in [Z]. *)
Module SHA256.
Local Open Scope Z_scope.

Definition w32 (x : Z) : Z := x mod 2 ^ 32.
Definition rotr (n x : Z) : Z := Z.lor (Z.shiftr x n) (w32 (Z.shiftl x (32 - n))).
Definition ch (x y z : Z) : Z := Z.lxor (Z.land x y) (Z.land (Z.lxor x (2 ^ 32 - 1)) z).
Definition maj (x y z : Z) : Z :=
  Z.lxor (Z.lxor (Z.land x y) (Z.land x z)) (Z.land y z).
Definition bsig0 x := Z.lxor (Z.lxor (rotr 2 x) (rotr 13 x)) (rotr 22 x).
Definition bsig1 x := Z.lxor (Z.lxor (rotr 6 x) (rotr 11 x)) (rotr 25 x).
Definition ssig0 x := Z.lxor (Z.lxor (rotr 7 x) (rotr 18 x)) (Z.shiftr x 3).
Definition ssig1 x := Z.lxor (Z.lxor (rotr 17 x) (rotr 19 x)) (Z.shiftr x 10).

Record regs := Regs { ra : Z; rb : Z; rc : Z; rd : Z; re : Z; rf : Z; rg : Z; rh : Z }.

(** The first 64 primes. *)
Definition primes : list Z :=
  [2; 3; 5; 7; 11; 13; 17; 19; 23; 29; 31; 37; 41; 43; 47; 53; 59; 61; 67; 71;
   73; 79; 83; 89; 97; 101; 103; 107; 109; 113; 127; 131; 137; 139; 149; 151;
   157; 163; 167; 173; 179; 181; 191; 193; 197; 199; 211; 223; 227; 229; 233;
   239; 241; 251; 257; 263; 269; 271; 277; 281; 283; 293; 307; 311].

(** The integer cube root, bit by bit from bit [bits - 1] down. *)
Fixpoint cbrt (bits : nat) (n r : Z) : Z :=
  match bits with
  | O => r
  | S b =>
      let r' := r + 2 ^ Z.of_nat b in
      cbrt b n (if r' * r' * r' <=? n then r' else r)
  end.

(** The round constants: the first 32 bits of the fractional parts of the
    cube roots of the primes. *)
Definition K : list Z :=
  Eval vm_compute in map (fun p => cbrt 36 (p * 2 ^ 96) 0 mod 2 ^ 32) primes.

(** The initial hash value: the first 32 bits of the fractional parts of the
    square roots of the first eight primes. *)
Definition H0 : regs :=
  Eval vm_compute in
    let h := map (fun p => Z.sqrt (p * 2 ^ 64) mod 2 ^ 32) primes in
    Regs (nth 0 h 0) (nth 1 h 0) (nth 2 h 0) (nth 3 h 0)
         (nth 4 h 0) (nth 5 h 0) (nth 6 h 0) (nth 7 h 0).

(** The message, a 1 bit, zeros up to 56 modulo 64 bytes, and the bit
    length on 8 bytes. *)
Definition pad (msg : list Z) : list Z :=
  let len := Z.of_nat (List.length msg) in
  let zeros := Z.to_nat ((55 - len) mod 64) in
  msg ++ [0x80] ++ repeat 0 zeros
      ++ map (fun i => Z.shiftr (8 * len) (8 * (7 - Z.of_nat i)) mod 256) (seq 0 8).

(** Big-endian words of a byte list whose length is a multiple of 4. *)
Fixpoint words (bytes : list Z) : list Z :=
  match bytes with
  | a :: b :: c :: d :: r => (((a * 256 + b) * 256 + c) * 256 + d) :: words r
  | _ => []
  end.

(** The message schedule, most recent word first: [rev_w] holds
    W(t-1), W(t-2), ... *)
Fixpoint schedule (n : nat) (rev_w : list Z) : list Z :=
  match n with
  | O => rev_w
  | S n' =>
      let wt := w32 (ssig1 (nth 1 rev_w 0) + nth 6 rev_w 0
                     + ssig0 (nth 14 rev_w 0) + nth 15 rev_w 0) in
      schedule n' (wt :: rev_w)
  end.

Definition round (r : regs) (kw : Z * Z) : regs :=
  let t1 := rh r + bsig1 (re r) + ch (re r) (rf r) (rg r) + fst kw + snd kw in
  let t2 := bsig0 (ra r) + maj (ra r) (rb r) (rc r) in
  Regs (w32 (t1 + t2)) (ra r) (rb r) (rc r) (w32 (rd r + t1)) (re r) (rf r) (rg r).

Definition compress (h : regs) (block : list Z) : regs :=
  let w := rev (schedule 48 (rev block)) in
  let r := fold_left round (combine K w) h in
  Regs (w32 (ra h + ra r)) (w32 (rb h + rb r)) (w32 (rc h + rc r)) (w32 (rd h + rd r))
       (w32 (re h + re r)) (w32 (rf h + rf r)) (w32 (rg h + rg r)) (w32 (rh h + rh r)).

(** The blocks of 16 words, one after the other. *)
Fixpoint blocks (n : nat) (h : regs) (ws : list Z) : regs :=
  match n with
  | O => h
  | S n' => blocks n' (compress h (firstn 16 ws)) (skipn 16 ws)
  end.

Definition word_bytes (x : Z) : list byte :=
  map (fun s => byte_of_N (Z.to_N (Z.shiftr x s mod 256))) [24; 16; 8; 0].

Definition digest (data : list byte) : list byte :=
  let ws := words (pad (map byteval data)) in
  let h := blocks (List.length ws / 16) H0 ws in
  flat_map word_bytes [ra h; rb h; rc h; rd h; re h; rf h; rg h; rh h].

End SHA256.

(** [sha256]: the digest of [crypto.subtle], taken to be there (a secure
    context), so that the call returns. *)
Definition sha256 (data : list byte) : list byte := SHA256.digest data.

(** [parseInt(s, 16)]; [None] is NaN.  Leading white space is skipped, a
    sign is read, a prefix [0x] is dropped, and the digits that follow are
    the value. *)
Definition parseInt16 (s : jsstring) : option Z :=
  let s1 := trimStart s in
  let '(sign, s2) :=
    match s1 with
    | 0x2D%N :: r => ((-1)%Z, r)
    | 0x2B%N :: r => (1%Z, r)
    | _ => (1%Z, s1)
    end in
  let s3 :=
    match s2 with
    | 0x30%N :: 0x78%N :: r | 0x30%N :: 0x58%N :: r => r
    | _ => s2
    end in
  let fix go (acc : option Z) (ds : jsstring) : option Z :=
    match ds with
    | c :: r =>
        match JSON.hexValue c with
        | Some v => go (Some (match acc with Some a => a * 16 | None => 0 end + Z.of_N v)%Z) r
        | None => acc
        end
    | [] => acc
    end in
  match go None s3 with
  | Some v => Some (sign * v)%Z
  | None => None
  end.

(** The store of a number into a [Uint8Array]: NaN is 0, an integer is
    taken modulo 256. *)
Definition toUint8 (v : option Z) : byte :=
  match v with
  | Some z => byte_of_N (Z.to_N (z mod 256))
  | None => "000"%byte
  end.

(** [hexToBytes]: [hex.length / 2] bytes (the array length is truncated to
    an integer), byte [i] from [hex.substr(i * 2, 2)]. *)
Definition hexToBytes (hex : jsstring) : list byte :=
  map (fun i => toUint8 (parseInt16 (firstn 2 (skipn (i * 2) hex))))
      (seq 0 (List.length hex / 2)).

Record ValidationResult := {
  isValid : bool;
  idMatch : bool;
  sigValid : bool;
  errors : list jsstring
}.

(** The variables [errors], [idMatch] and [sigValid] of [validateEvent]; an
    assignment made before a [throw] stays made. *)
Module Validate.

Record vars := Vars { v_errors : list jsstring; v_idMatch : bool; v_sigValid : bool }.

Definition M (A : Type) := vars -> result A * vars.

Definition ret {A} (a : A) : M A := fun v => (Ok a, v).

Definition bind {A B} (c : M A) (k : A -> M B) : M B :=
  fun v => match c v with
           | (Ok a, v') => k a v'
           | (Throw m, v') => (Throw m, v')
           end.

Definition call {A} (r : result A) : M A := fun v => (r, v).

Definition try_catch {A} (c : M A) (handler : jsstring -> M A) : M A :=
  fun v => match c v with
           | (Ok a, v') => (Ok a, v')
           | (Throw m, v') => handler m v'
           end.

Definition push_error (e : jsstring) : M unit :=
  fun v => (Ok tt, Vars (v_errors v ++ [e]) (v_idMatch v) (v_sigValid v)).
Definition set_idMatch (b : bool) : M unit :=
  fun v => (Ok tt, Vars (v_errors v) b (v_sigValid v)).
Definition set_sigValid (b : bool) : M unit :=
  fun v => (Ok tt, Vars (v_errors v) (v_idMatch v) b).
Definition when (b : bool) (c : M unit) : M unit := if b then c else ret tt.

End Validate.

Declare Scope validate_scope.
Delimit Scope validate_scope with validate.
Notation "x <- c ;; k" := (Validate.bind c (fun x => k))
  (at level 61, c at next level, right associativity) : validate_scope.
Notation "c ;; k" := (Validate.bind c (fun _ => k))
  (at level 61, right associativity) : validate_scope.

(** The id the event should have. *)
Definition computedId (event : NostrEvent) : jsstring :=
  let serialized := Stringify.eventForId event in
  let hash := sha256 (TextEncoder.encode serialized) in
  bytesToHex hash.

(** The two nested [try] blocks of [validateEvent]. *)
Definition validateEvent_body `{Schnorr} (event : NostrEvent) : Validate.M unit :=
  (Validate.try_catch
     (computedId <- Validate.ret (computedId event) ;;
      let idMatch := streq computedId (NostrEvent.id event) in
      Validate.set_idMatch idMatch ;;
      Validate.when (negb idMatch)
        (Validate.push_error (lit "Event ID does not match computed hash")) ;;
      Validate.try_catch
        (let messageHash := hexToBytes (NostrEvent.id event) in
         let signature := hexToBytes (NostrEvent.sig event) in
         let pubkey := hexToBytes (NostrEvent.pubkey event) in
         sigValid <- Validate.call (schnorr_verify signature messageHash pubkey) ;;
         Validate.set_sigValid sigValid ;;
         Validate.when (negb sigValid) (Validate.push_error (lit "Invalid signature")))
        (fun sigError =>
           Validate.push_error (lit "Signature validation failed: " ++ sigError)))
     (fun error => Validate.push_error (lit "Validation error: " ++ error)))%validate.

(** [validateEvent] *)
Definition validateEvent `{Schnorr} (event : NostrEvent) : ValidationResult :=
  let v := snd (validateEvent_body event (Validate.Vars [] false false)) in
  {| isValid := Validate.v_idMatch v && Validate.v_sigValid v
                && (List.length (Validate.v_errors v) =? 0)%nat;
     idMatch := Validate.v_idMatch v;
     sigValid := Validate.v_sigValid v;
     errors := Validate.v_errors v |}.

(** ** A model of the bech32 package

    [bech32.decode] and [bech32.fromWords] after the source of
    [@scure/base], for the concrete runs below.  The case mapping is that of
    the ASCII letters. *)
Module Scure.

(** [s.toLowerCase()] and [s.toUpperCase()] as [decode] needs them.  The
    Kelvin sign U+212A is the one character outside ASCII whose lowercase is
    a character of ASCII (the letter k).  The other characters outside
    ASCII are left as they are: with or without their case mapping they are
    no letters of the alphabet and no characters of a prefix, so that
    [decode] throws on a string that holds one, if not always with the
    same message. *)
Definition toLowerCase (s : jsstring) : jsstring :=
  map (fun c => if (c =? 0x212A)%N then 0x6B%N
                else if (0x41 <=? c)%N && (c <=? 0x5A)%N then (c + 0x20)%N else c) s.

Definition toUpperCase (s : jsstring) : jsstring :=
  map (fun c => if (0x61 <=? c)%N && (c <=? 0x7A)%N then (c - 0x20)%N else c) s.

Definition alphabet : jsstring := lit "qpzry9x8gf2tvdw0s3jn54khce6mua7l".

Fixpoint indexOf (c : N) (l : jsstring) (i : N) : option N :=
  match l with
  | [] => None
  | x :: l' => if (x =? c)%N then Some i else indexOf c l' (i + 1)%N
  end.

(** [BECH_ALPHABET.decode] *)
Fixpoint alphabetDecode (s : jsstring) : result (list N) :=
  match s with
  | [] => Ok []
  | c :: r =>
      match indexOf c alphabet 0 with
      | Some v => ws <- alphabetDecode r ;; Ok (v :: ws)
      | None => Throw (lit "Unknown letter")
      end
  end.

Definition generators : list N :=
  [0x3b6a57b2; 0x26508e6d; 0x1ea119fa; 0x3d4233dd; 0x2a1462b3]%N.

Definition bech32Polymod (pre : N) : N :=
  let b := N.shiftr pre 25 in
  fold_left
    (fun chk ig => if N.testbit b (fst ig) then N.lxor chk (snd ig) else chk)
    (combine [0; 1; 2; 3; 4]%N generators)
    (N.shiftl (N.land pre 0x1ffffff) 5).

(** The five-bit words of the checksum, or the error on a prefix
    character outside 33..126. *)
Definition bechChecksum (prefix : jsstring) (words : list N) : result (list N) :=
  if forallb (fun c => (33 <=? c)%N && (c <=? 126)%N) prefix then
    let chk := fold_left (fun chk c => N.lxor (bech32Polymod chk) (N.shiftr c 5)) prefix 1%N in
    let chk := bech32Polymod chk in
    let chk := fold_left (fun chk c => N.lxor (bech32Polymod chk) (N.land c 0x1f)) prefix chk in
    let chk := fold_left (fun chk v => N.lxor (bech32Polymod chk) v) words chk in
    let chk := Nat.iter 6 bech32Polymod chk in
    let chk := N.lxor chk 1 in
    Ok (map (fun k => N.land (N.shiftr chk k) 31) [25; 20; 15; 10; 5; 0]%N)
  else Throw (lit "Invalid prefix").

(** [s.lastIndexOf('1')]; [None] is -1. *)
Definition lastIndexOf1 (s : jsstring) : option nat :=
  fold_left (fun found ic => if (snd ic =? 0x31)%N then Some (fst ic) else found)
            (combine (seq 0 (List.length s)) s) None.

Definition decode (str : jsstring) (limit : N) : result (jsstring * list N) :=
  if (List.length str <? 8)%nat || (limit <? N.of_nat (List.length str))%N then
    Throw (lit "Wrong string length")
  else
    let lowered := toLowerCase str in
    if negb (streq str lowered) && negb (streq str (toUpperCase str)) then
      Throw (lit "String must be lowercase or uppercase")
    else
      match lastIndexOf1 lowered with
      | None | Some O =>
          Throw (lit "Letter 1 must be present between prefix and data only")
      | Some sepIndex =>
          let prefix := firstn sepIndex lowered in
          let _words := skipn (sepIndex + 1) lowered in
          if (List.length _words <? 6)%nat then
            Throw (lit "Data must be at least 6 characters long")
          else
            all <- alphabetDecode _words ;;
            let words := firstn (List.length all - 6) all in
            sum <- bechChecksum prefix words ;;
            if forallb (fun p => (fst p =? snd p)%N)
                       (combine (skipn (List.length all - 6) all) sum)
            then Ok (prefix, words)
            else Throw (lit "Invalid checksum")
      end.

(** [convertRadix2(words, 5, 8, false)]: the bits kept, the number of
    them, and the bytes so far. *)
Definition radixStep (st : N * N * list byte) (n : N) : N * N * list byte :=
  let '(carry, pos, res) := st in
  let carry := N.lor (N.shiftl carry 5) n in
  let pos := (pos + 5)%N in
  if (8 <=? pos)%N then
    (N.land carry (2 ^ (pos - 8) - 1), (pos - 8)%N,
     res ++ [byte_of_N (N.land (N.shiftr carry (pos - 8)) 255)])
  else (carry, pos, res).

Definition fromWords (words : list N) : result (list byte) :=
  if forallb (fun n => (n <? 32)%N) words then
    let '(carry, pos, res) := fold_left radixStep words (0%N, 0%N, []) in
    let carry := N.land (N.shiftl carry (8 - pos)) 255 in
    if (5 <=? pos)%N then Throw (lit "Excess padding")
    else if negb (carry =? 0)%N then Throw (lit "Non-zero padding")
    else Ok res
  else Throw (lit "convertRadix2: invalid data word").

Definition package : Bech32 :=
  {| bech32_decode := decode; bech32_fromWords := fromWords |}.

End Scure.

(** ** Well-formed TLV payloads

    The payload that holds the given records, each a type byte, a length
    byte and a value of that length, one after the other. *)

Definition record_bytes (r : byte * list byte) : list byte :=
  fst r :: byte_of_N (N.of_nat (List.length (snd r))) :: snd r.

Definition stream (records : list (byte * list byte)) : list byte :=
  flat_map record_bytes records.

(** The entry that [decodeTLV] is to list for a record. *)
Definition entryOf (r : byte * list byte) : TLV.entry :=
  TLV.Entry (fst r) (getTLVTypeName (fst r))
            (Some (byte_of_N (N.of_nat (List.length (snd r)))))
            (bytesToHex (snd r)).

(** The effect of one pass of the loop on the result, for a record whose
    value is complete. *)
Definition apply_record (result : DecodedIdentifier) (r : byte * list byte)
    : DecodedIdentifier :=
  Ident.Make (Ident.type result)
    (parseTLV (Ident.type result) (fst r) (snd r) (Ident.data result))
    (Some (match Ident.tlv result with
           | Some es => es ++ [entryOf r]
           | None => [entryOf r]
           end)).

(** The length an entry declares, as a number (0 when [undefined]). *)
Definition declared (e : TLV.entry) : nat :=
  match TLV.length e with
  | Some l => N.to_nat (Byte.to_N l)
  | None => 0
  end.

(** The sum of [2 + length] over the entries. *)
Definition consumed (es : list TLV.entry) : nat :=
  list_sum (map (fun e => 2 + declared e)%nat es).

(** The result of the loop before its first pass. *)
Definition initial (type : IdType) : DecodedIdentifier :=
  Ident.Make type Ident.empty (Some []).

(** The effect on the result of a last record of type [t] whose length
    byte is [l] ([None] when the payload ends with the type byte) and that
    has only the bytes [v] after it. *)
Definition apply_last (result : DecodedIdentifier) (t : byte) (l : option byte)
    (v : list byte) : DecodedIdentifier :=
  Ident.Make (Ident.type result)
    (parseTLV (Ident.type result) t v (Ident.data result))
    (Some (match Ident.tlv result with
           | Some es => es ++ [TLV.Entry t (getTLVTypeName t) l (bytesToHex v)]
           | None => [TLV.Entry t (getTLVTypeName t) l (bytesToHex v)]
           end)).

Definition apply_truncated (result : DecodedIdentifier) (t l : byte) (v : list byte)
    : DecodedIdentifier :=
  apply_last result t (Some l) v.

(** The prefixes that [decodeBech32Identifier] hands to [decodeTLV]. *)
Definition tlvPrefixes : list (jsstring * IdType) :=
  [(lit "nevent", nevent); (lit "nprofile", nprofile); (lit "naddr", naddr)].

(** The value bytes read as a big-endian unsigned integer:
    [result = result * 256 + byte] over the bytes, in the integers. *)
Definition bigEndian (bytes : list byte) : Z :=
  fold_left (fun result b => (result * 256 + byteval b)%Z) bytes 0%Z.

(** ** The shape the specification gives to an event

    [tags] as a sequence of sequences of strings. *)
Definition tagsOfStrings (v : json) : bool :=
  match get v (lit "tags") with
  | Some (JArray ts) =>
      forallb (fun t => match t with
                        | JArray xs => forallb (fun x => isString (Some x)) xs
                        | _ => false
                        end) ts
  | _ => false
  end.

(** A JSON text: an object with the seven members of an event, [tags]
    being the array [[1]]. *)
Definition numericTagsText : jsstring :=
  lit "{" ++ Stringify.quote (lit "id") ++ lit ":" ++ Stringify.quote [] ++ lit ","
  ++ Stringify.quote (lit "pubkey") ++ lit ":" ++ Stringify.quote [] ++ lit ","
  ++ Stringify.quote (lit "created_at") ++ lit ":0,"
  ++ Stringify.quote (lit "kind") ++ lit ":1,"
  ++ Stringify.quote (lit "tags") ++ lit ":[1],"
  ++ Stringify.quote (lit "content") ++ lit ":" ++ Stringify.quote [] ++ lit ","
  ++ Stringify.quote (lit "sig") ++ lit ":" ++ Stringify.quote [] ++ lit "}".

(** ** The report of the validator, part by part *)

Definition idMismatchMessage : jsstring := lit "Event ID does not match computed hash".

(** The call of [schnorr.verify] that [validateEvent] makes. *)
Definition verifyAttempt `{Schnorr} (event : NostrEvent) : result bool :=
  schnorr_verify (hexToBytes (NostrEvent.sig event))
                 (hexToBytes (NostrEvent.id event))
                 (hexToBytes (NostrEvent.pubkey event)).

(** The errors that the signature part pushes. *)
Definition signatureErrors (attempt : result bool) : list jsstring :=
  match attempt with
  | Ok true => []
  | Ok false => [lit "Invalid signature"]
  | Throw m => [lit "Signature validation failed: " ++ m]
  end.

(** An event with an empty content, and the same event with its id in
    capital letters. *)
Definition emptyNote : NostrEvent :=
  NostrEvent.Make (lit "b9a2e34e404849f4881c68e0f6af8c3d042e2ed7f1e430706b5c010c49b87e98")
                  [] (Number.ofZ 0) (Number.ofZ 1) [] [] [].

Definition emptyNoteUpper : NostrEvent :=
  NostrEvent.Make (lit "B9A2E34E404849F4881C68E0F6AF8C3D042E2ED7F1E430706B5C010C49B87E98")
                  [] (Number.ofZ 0) (Number.ofZ 1) [] [] [].

(** The empty note at the time 2^63, with the id of its serialization. *)
Definition farFutureNote : NostrEvent :=
  NostrEvent.Make (lit "cd15e6ac4c5d48cd9b746583692920c6736e32ae874569af4642a90fd38e77cf")
                  [] (Number.Finite false 1 63) (Number.ofZ 1) [] [] [].

(** A verifier that accepts every signature, for a concrete run. *)
Definition acceptAll : Schnorr := {| schnorr_verify := fun _ _ _ => Ok true |}.

(** A JSON text with the shape of an event, between white space. *)
Definition sampleEventText : jsstring :=
  lit " {" ++ Stringify.quote (lit "id") ++ lit ": " ++ Stringify.quote (lit "00") ++ lit ", "
  ++ Stringify.quote (lit "pubkey") ++ lit ": " ++ Stringify.quote (lit "ab") ++ lit ", "
  ++ Stringify.quote (lit "created_at") ++ lit ": 1700000000, "
  ++ Stringify.quote (lit "kind") ++ lit ": 1, "
  ++ Stringify.quote (lit "tags") ++ lit ": [["
  ++ Stringify.quote (lit "e") ++ lit ", " ++ Stringify.quote (lit "00") ++ lit "]], "
  ++ Stringify.quote (lit "content") ++ lit ": " ++ Stringify.quote (lit "hi") ++ lit ", "
  ++ Stringify.quote (lit "sig") ++ lit ": " ++ Stringify.quote (lit "cd") ++ lit "} ".
From Stdlib Require Import Numbers.DecimalZ.


(** ** What a payload of complete records holds *)

(** The values of the records of type [t], in the order of the payload. *)
Definition valuesOfType (t : N) (records : list (byte * list byte)) : list (list byte) :=
  map snd (filter (fun r => (Byte.to_N (fst r) =? t)%N) records).

(** The value of the last record of type [t]. *)
Definition lastValue (t : N) (records : list (byte * list byte)) : option (list byte) :=
  match rev (valuesOfType t records) with
  | v :: _ => Some v
  | [] => None
  end.

(** The fields that the records stand for in an identifier of the given
    type: the last record of a type gives [id] or [pubkey] (type 0),
    [author] (2), [kind] (3) and [dTag] (4); the records of type 1 give
    [relays], one after the other. *)
Definition fieldsOf (type : IdType) (records : list (byte * list byte)) : Ident.fields :=
  Ident.Fields
    (match type with
     | nevent => option_map bytesToHex (lastValue 0 records)
     | _ => None
     end)
    (match type with
     | nprofile | naddr => option_map bytesToHex (lastValue 0 records)
     | _ => None
     end)
    (match valuesOfType 1 records with
     | [] => None
     | vs => Some (map TextDecoder.decode vs)
     end)
    (option_map bytesToHex (lastValue 2 records))
    (option_map bytesToNumber (lastValue 3 records))
    (option_map TextDecoder.decode (lastValue 4 records)).

(** The record types that [decodeTLV] gives a meaning to. *)
Definition knownType (r : byte * list byte) : bool := (Byte.to_N (fst r) <=? 4)%N.

(** The entries of a result ([[]] when it has none). *)
Definition entries (d : DecodedIdentifier) : list TLV.entry :=
  match Ident.tlv d with
  | Some es => es
  | None => []
  end.

(** ** truncateId *)

(** [s.slice(-n)] for a non-negative integer [n]: the last [n] characters,
    and the whole string when [n] is 0 (the start index -0 is 0). *)
Definition sliceFromEnd (s : jsstring) (n : nat) : jsstring :=
  match n with
  | O => s
  | S _ => skipn (List.length s - n) s
  end.

(** [truncateId(id, length)] *)
Definition truncateId (id : jsstring) (length : nat) : jsstring :=
  if (List.length id <=? length * 2)%nat then id
  else firstn length id ++ lit "..." ++ sliceFromEnd id length.

(** ** TagTable: renderTagValue *)

Module TagTable.

(** What a cell shows: an abbreviated id, a link, or the value as text. *)
Inductive cell :=
| HexId (text : jsstring)
| Link (href : jsstring)
| Plain (text : jsstring).

(** [renderTagValue] *)
Definition renderTagValue (value : jsstring) : cell :=
  if matchesHex64 value then HexId (truncateId value 6)
  else if startsWith value (lit "http://") || startsWith value (lit "https://")
  then Link value
  else Plain value.

End TagTable.

(** ** formatTimestamp *)

(** The two locale-dependent renderings of a [Date], given by its time
    value in milliseconds ([None] for an invalid date). *)
Class Locale := {
  toLocaleString : option Z -> jsstring;
  toLocaleDateString : option Z -> jsstring
}.

(** The time value of [new Date(ms)]: a date is invalid beyond 8.64e15
    milliseconds from the epoch. *)
Definition timeClip (ms : Z) : option Z :=
  if (Z.abs ms <=? 8640000000000000)%Z then Some ms else None.

(** [formatTimestamp(timestamp)] at the instant [now] (the time value of
    [new Date()]), for an integer [timestamp]: the pair of [absolute] and
    [relative].  With an invalid date the difference is NaN and every
    comparison fails. *)
Definition formatTimestamp `{Locale} (now timestamp : Z) : jsstring * jsstring :=
  let date := timeClip (timestamp * 1000) in
  let absolute := toLocaleString date in
  let relative :=
    match date with
    | Some t =>
        let diff := (now - t)%Z in
        if (diff <? 60000)%Z then lit "Just now"
        else if (diff <? 3600000)%Z then Z_toString (diff / 60000) ++ lit " minutes ago"
        else if (diff <? 86400000)%Z then Z_toString (diff / 3600000) ++ lit " hours ago"
        else if (diff <? 604800000)%Z then Z_toString (diff / 86400000) ++ lit " days ago"
        else toLocaleDateString date
    | None => toLocaleDateString date
    end in
  (absolute, relative).

(** ** NIP23Renderer: the tags of an article *)

Module NIP23.

(** [t[0] === tagName] *)
Definition named (tagName : jsstring) (t : list jsstring) : bool :=
  match t with
  | x :: _ => streq x tagName
  | [] => false
  end.

(** [getTagValue]: [None] is [null]; [Some None] is the [undefined] that
    [tag[1]] gives for a tag of one element. *)
Definition getTagValue (tags : list (list jsstring)) (tagName : jsstring)
    : option (option jsstring) :=
  match find (named tagName) tags with
  | Some tag => Some (nth_error tag 1)
  | None => None
  end.

(** [getAllTagValues] *)
Definition getAllTagValues (tags : list (list jsstring)) (tagName : jsstring)
    : list (option jsstring) :=
  map (fun t => nth_error t 1) (filter (named tagName) tags).

(** [getTagValue('title') || 'Untitled Article'] *)
Definition title (tags : list (list jsstring)) : jsstring :=
  match getTagValue tags (lit "title") with
  | Some (Some (c :: s)) => c :: s
  | _ => lit "Untitled Article"
  end.

End NIP23.

(** ** Homepage and App: the submission of an input *)

Module Homepage.

Inductive View := home | inspect | decode.

(** The state of [App] and of [Homepage] that a submission touches. *)
Record state := State {
  currentView : View;
  parsedResult : option ParsedResult;
  error : jsstring;
  isLoading : bool
}.

(** [handleParsedResult] of [App], the [onParsedResult] of [Homepage]. *)
Definition handleParsedResult (result : ParsedResult) (st : state) : state :=
  State (match result with Event _ => inspect | Identifier _ => decode end)
        (Some result) (error st) (isLoading st).

Definition setError (e : jsstring) (st : state) : state :=
  State (currentView st) (parsedResult st) e (isLoading st).
Definition setIsLoading (b : bool) (st : state) : state :=
  State (currentView st) (parsedResult st) (error st) b.

(** [handleSubmit] on the input of the text area. *)
Definition handleSubmit `{Bech32} (input : jsstring) (st : state) : state :=
  let st := setError [] st in
  match trim input with
  | [] => setError (lit "Please enter some data to decode") st
  | _ :: _ =>
      let st := setIsLoading true st in
      let st :=
        match parseInput input with
        | Ok (Some result) => handleParsedResult result st
        | Ok None =>
            setError (lit "Unable to parse input. Please check the format and try again.") st
        | Throw _ => setError (lit "An error occurred while parsing the input.") st
        end in
      setIsLoading false st
  end.

End Homepage.

(** A locale that renders every date alike, to run [formatTimestamp] on. *)
Definition fixedLocale : Locale :=
  Build_Locale (fun _ => lit "then") (fun _ => lit "that day").

(** ** Strings of UTF-16 code units *)

(** Every element of the string is a code unit of 16 bits. *)
Definition codeUnits (s : jsstring) : bool := forallb (fun c => (c <? 65536)%N) s.

(** The strings of an event that enter its serialization are strings of
    code units. *)
Definition eventUnits (event : NostrEvent) : bool :=
  codeUnits (NostrEvent.pubkey event)
  && codeUnits (NostrEvent.content event)
  && forallb (forallb codeUnits) (NostrEvent.tags event).

(** A string of code units with no lone surrogate: what [TextEncoder]
    encodes without loss. *)
Inductive WellFormed : jsstring -> Prop :=
| WellFormed_nil : WellFormed []
| WellFormed_unit (c : N) (s : jsstring) :
    (c < 65536)%N ->
    Stringify.isHighSurrogate c = false -> Stringify.isLowSurrogate c = false ->
    WellFormed s -> WellFormed (c :: s)
| WellFormed_pair (c d : N) (s : jsstring) :
    Stringify.isHighSurrogate c = true -> Stringify.isLowSurrogate d = true ->
    WellFormed s -> WellFormed (c :: d :: s).

(** The empty note with a signature of one byte. *)
Definition emptyNoteSigned : NostrEvent :=
  NostrEvent.Make (NostrEvent.id emptyNote) [] (Number.ofZ 0) (Number.ofZ 1) [] [] (lit "00").

(** The numbers of an event are integers of magnitude below 2^53, the
    timestamps and kinds of the protocol. *)
Definition eventIntegers (event : NostrEvent) : bool :=
  Number.isPlainInteger (NostrEvent.created_at event)
  && Number.isPlainInteger (NostrEvent.kind event).

(** The empty note at an infinite time, past and future. *)
Definition emptyNoteAt (created_at : number) : NostrEvent :=
  NostrEvent.Make [] [] created_at (Number.ofZ 1) [] [] [].

(** * Properties *)

Unset Implicit Arguments.

(** ** Strings *)

Lemma streq_refl (s : jsstring) : streq s s = true.
Proof.
  induction s as [|c s IH]; simpl; [reflexivity|].
  now rewrite N.eqb_refl.
Qed.

Lemma streq_eq (a b : jsstring) : streq a b = true <-> a = b.
Proof.
  split; [|intros ->; apply streq_refl].
  revert b; induction a as [|x a IH]; intros [|y b]; simpl; try congruence.
  intros E. apply andb_prop in E as [E1 E2].
  apply N.eqb_eq in E1. apply IH in E2. congruence.
Qed.

Lemma trimStart_idempotent (s : jsstring) : trimStart (trimStart s) = trimStart s.
Proof.
  induction s as [|c s IH]; simpl; [reflexivity|].
  destruct (isWhiteSpace c) eqn:E; [exact IH|].
  simpl. now rewrite E.
Qed.

(** Leading white space is dropped up to a character that is not white
    space, whatever follows it. *)
Lemma trimStart_app_stop (a b : jsstring) (c : N) :
  isWhiteSpace c = false ->
  trimStart (a ++ c :: b) = trimStart a ++ c :: b.
Proof.
  intros Hc. induction a as [|x a IH]; simpl.
  - now rewrite Hc.
  - destruct (isWhiteSpace x); [exact IH | reflexivity].
Qed.

Lemma trimEnd_idempotent (s : jsstring) : trimEnd (trimEnd s) = trimEnd s.
Proof.
  unfold trimEnd. now rewrite rev_involutive, trimStart_idempotent.
Qed.

(** Trimming the end leaves a trimmed start trimmed. *)
Lemma trimStart_trimEnd (s : jsstring) :
  trimStart s = s -> trimStart (trimEnd s) = trimEnd s.
Proof.
  destruct s as [|c s]; [reflexivity|].
  simpl. destruct (isWhiteSpace c) eqn:E.
  - intros Habs. exfalso.
    assert (L : (List.length (trimStart s) <= List.length s)%nat).
    { clear. induction s as [|x s IH]; simpl; [lia|].
      destruct (isWhiteSpace x); simpl; lia. }
    rewrite Habs in L. simpl in L. lia.
  - intros _. unfold trimEnd. simpl rev.
    rewrite trimStart_app_stop by exact E.
    rewrite rev_app_distr. simpl. now rewrite E.
Qed.

Lemma trim_idempotent (s : jsstring) : trim (trim s) = trim s.
Proof.
  unfold trim.
  rewrite trimStart_trimEnd by apply trimStart_idempotent.
  apply trimEnd_idempotent.
Qed.

Lemma stripPrefix_Some (p s r : jsstring) : stripPrefix p s = Some r -> s = p ++ r.
Proof.
  revert s. induction p as [|x p IH]; intros [|y s]; simpl; try congruence.
  destruct (x =? y)%N eqn:E; [|discriminate].
  apply N.eqb_eq in E. subst y. intros Hs. now rewrite (IH _ Hs).
Qed.

(** ** JSON.parse: the fuel is enough

    The parsers consume input, so more fuel than [JSON.fuel_for] gives the
    same result. *)

Lemma stripPrefix_length (p s r : jsstring) :
  stripPrefix p s = Some r -> List.length s = (List.length p + List.length r)%nat.
Proof.
  intros E. apply stripPrefix_Some in E. subst s. apply length_app.
Qed.

Lemma skip_ws_length (s : jsstring) : (List.length (JSON.skip_ws s) <= List.length s)%nat.
Proof.
  induction s as [|c s IH]; simpl; [lia|].
  destruct (JSON.isWS c); simpl; lia.
Qed.

Lemma digits_length (s : jsstring) : (List.length (JSON.digits s) <= List.length s)%nat.
Proof.
  induction s as [|c s IH]; simpl; [lia|].
  destruct (JSON.isDigit c); simpl; lia.
Qed.

Lemma digits1_length (s r : jsstring) :
  JSON.digits1 s = Some r -> (List.length r < List.length s)%nat.
Proof.
  destruct s as [|c s]; simpl; [discriminate|].
  destruct (JSON.isDigit c); [|discriminate].
  intros [= <-]. pose proof (digits_length s). lia.
Qed.

Lemma optional_length (test : N -> bool) (s : jsstring) :
  (List.length (JSON.optional test s) <= List.length s)%nat.
Proof.
  destruct s as [|c s]; simpl; [lia|].
  destruct (test c); simpl; lia.
Qed.

Lemma fraction_length (s r : jsstring) :
  JSON.fraction s = Some r -> (List.length r <= List.length s)%nat.
Proof.
  destruct s as [|c s]; simpl.
  - intros [= <-]. simpl. lia.
  - destruct (c =? 46)%N.
    + intros E. apply digits1_length in E. lia.
    + intros [= <-]. simpl. lia.
Qed.

Lemma exponent_length (s r : jsstring) :
  JSON.exponent s = Some r -> (List.length r <= List.length s)%nat.
Proof.
  destruct s as [|c s]; simpl.
  - intros [= <-]. simpl. lia.
  - destruct ((c =? 101)%N || (c =? 69)%N).
    + intros E. apply digits1_length in E.
      pose proof (optional_length (fun x => (x =? 43)%N || (x =? 45)%N) s). lia.
    + intros [= <-]. simpl. lia.
Qed.

Lemma number_rest_length (s r : jsstring) :
  JSON.number_rest s = Some r -> (List.length r < List.length s)%nat.
Proof.
  unfold JSON.number_rest.
  pose proof (optional_length (fun x => (x =? 45)%N) s) as Ho.
  destruct (JSON.optional (fun x => (x =? 45)%N) s) as [|c t]; [discriminate|].
  simpl in Ho.
  destruct (JSON.isDigit c); [|discriminate].
  destruct (JSON.fraction (if (c =? 48)%N then t else JSON.digits t)) as [s3|] eqn:F;
    [|discriminate].
  intros E. apply exponent_length in E. apply fraction_length in F.
  pose proof (digits_length t). destruct (c =? 48)%N; lia.
Qed.

Lemma parse_number_length (s n r : jsstring) :
  JSON.parse_number s = Some (n, r) -> (List.length r < List.length s)%nat.
Proof.
  unfold JSON.parse_number.
  destruct (JSON.number_rest s) as [rest|] eqn:E; [|discriminate].
  intros [= _ <-]. now apply number_rest_length.
Qed.

Lemma cons_unit_Some (c : N) (rest : option (jsstring * jsstring)) (t r : jsstring) :
  JSON.cons_unit c rest = Some (t, r) -> exists t', rest = Some (t', r).
Proof.
  destruct rest as [[t' r']|]; simpl; [|discriminate].
  intros [= _ <-]. eauto.
Qed.

Lemma parse_string_length (s t r : jsstring) :
  JSON.parse_string s = Some (t, r) -> (List.length r < List.length s)%nat.
Proof.
  remember (List.length s) as n eqn:Hn.
  assert (Hle : (List.length s <= n)%nat) by lia. clear Hn.
  revert s t r Hle. induction n as [|n IH]; intros s t r Hle.
  - destruct s; [discriminate | simpl in Hle; lia].
  - destruct s as [|c s]; [discriminate|]. simpl in Hle. simpl.
    destruct (c =? 34)%N.
    { intros [= _ <-]. lia. }
    destruct (c =? 92)%N.
    { destruct s as [|e r1]; [discriminate|]. simpl in Hle.
      destruct (e =? 117)%N.
      - destruct r1 as [|a [|b [|c' [|d r4]]]]; try discriminate. simpl in Hle.
        destruct (JSON.hexValue a), (JSON.hexValue b), (JSON.hexValue c'), (JSON.hexValue d);
          try discriminate.
        intros E. apply cons_unit_Some in E as [t' E].
        apply IH in E; [|lia]. lia.
      - destruct (JSON.escape e); [|discriminate].
        intros E. apply cons_unit_Some in E as [t' E].
        apply IH in E; [|lia]. lia. }
    destruct (c <? 32)%N; [discriminate|].
    intros E. apply cons_unit_Some in E as [t' E].
    apply IH in E; [|lia]. lia.
Qed.

Lemma value_body_consumes elements members :
  consumes elements -> consumes members -> consumes (JSON.value_body elements members).
Proof.
  intros He Hm s v r. unfold JSON.value_body.
  pose proof (skip_ws_length s) as Hs.
  destruct (stripPrefix (lit "null") (JSON.skip_ws s)) as [r0|] eqn:E0.
  { intros [= _ <-]. apply stripPrefix_length in E0. simpl in E0. lia. }
  destruct (stripPrefix (lit "true") (JSON.skip_ws s)) as [r1|] eqn:E1.
  { intros [= _ <-]. apply stripPrefix_length in E1. simpl in E1. lia. }
  destruct (stripPrefix (lit "false") (JSON.skip_ws s)) as [r2|] eqn:E2.
  { intros [= _ <-]. apply stripPrefix_length in E2. simpl in E2. lia. }
  destruct (JSON.skip_ws s) as [|c t] eqn:Es; [discriminate|]. simpl in Hs.
  destruct (c =? 34)%N.
  { destruct (JSON.parse_string t) as [[x r']|] eqn:P; [|discriminate].
    intros [= _ <-]. apply parse_string_length in P. lia. }
  destruct (c =? 91)%N.
  { pose proof (skip_ws_length t) as Ht.
    destruct (stripPrefix (lit "]") (JSON.skip_ws t)) as [r'|] eqn:B.
    - intros [= _ <-]. apply stripPrefix_length in B. simpl in B. lia.
    - destruct (elements t) as [[vs r']|] eqn:P; [|discriminate].
      intros [= _ <-]. apply He in P. lia. }
  destruct (c =? 123)%N.
  { pose proof (skip_ws_length t) as Ht.
    destruct (stripPrefix (lit "}") (JSON.skip_ws t)) as [r'|] eqn:B.
    - intros [= _ <-]. apply stripPrefix_length in B. simpl in B. lia.
    - destruct (members t) as [[ms r']|] eqn:P; [|discriminate].
      intros [= _ <-]. apply Hm in P. lia. }
  destruct (JSON.parse_number (c :: t)) as [[n r']|] eqn:P; [|discriminate].
  intros [= _ <-]. apply parse_number_length in P. simpl in P. lia.
Qed.

Lemma elements_body_consumes value elements :
  consumes value -> consumes elements -> consumes (JSON.elements_body value elements).
Proof.
  intros Hv He s vs r. unfold JSON.elements_body.
  destruct (value s) as [[v r0]|] eqn:P; [|discriminate].
  apply Hv in P. pose proof (skip_ws_length r0) as Hs.
  destruct (JSON.skip_ws r0) as [|c r']; [discriminate|]. simpl in Hs.
  destruct (c =? 44)%N.
  { destruct (elements r') as [[vs' r'']|] eqn:Q; [|discriminate].
    intros [= _ <-]. apply He in Q. lia. }
  destruct (c =? 93)%N; [|discriminate].
  intros [= _ <-]. lia.
Qed.

Lemma members_body_consumes value members :
  consumes value -> consumes members -> consumes (JSON.members_body value members).
Proof.
  intros Hv Hm s ms r. unfold JSON.members_body.
  pose proof (skip_ws_length s) as Hs.
  destruct (stripPrefix [34%N] (JSON.skip_ws s)) as [r0|] eqn:Q0; [|discriminate].
  apply stripPrefix_length in Q0. simpl in Q0.
  destruct (JSON.parse_string r0) as [[k r1]|] eqn:P1; [|discriminate].
  apply parse_string_length in P1. pose proof (skip_ws_length r1) as Hs1.
  destruct (stripPrefix (lit ":") (JSON.skip_ws r1)) as [r2|] eqn:Q2; [|discriminate].
  apply stripPrefix_length in Q2. simpl in Q2.
  destruct (value r2) as [[v r3]|] eqn:P3; [|discriminate].
  apply Hv in P3. pose proof (skip_ws_length r3) as Hs3.
  destruct (JSON.skip_ws r3) as [|c r4]; [discriminate|]. simpl in Hs3.
  destruct (c =? 44)%N.
  { destruct (members r4) as [[ms' r5]|] eqn:P5; [|discriminate].
    intros [= _ <-]. apply Hm in P5. lia. }
  destruct (c =? 125)%N; [|discriminate].
  intros [= _ <-]. lia.
Qed.

Lemma parse_consumes (fuel : nat) :
  consumes (JSON.parse_value fuel)
  /\ consumes (JSON.parse_elements fuel)
  /\ consumes (JSON.parse_members fuel).
Proof.
  induction fuel as [|fuel [IHv [IHe IHm]]].
  - repeat split; intros s a r; discriminate.
  - split; [|split]; simpl.
    + now apply value_body_consumes.
    + now apply elements_body_consumes.
    + now apply members_body_consumes.
Qed.

(** The bodies read their parsers on shorter inputs only. *)
Lemma value_body_ext elements1 elements2 members1 members2 (s : jsstring) :
  (forall r, (List.length r < List.length s)%nat -> elements1 r = elements2 r) ->
  (forall r, (List.length r < List.length s)%nat -> members1 r = members2 r) ->
  JSON.value_body elements1 members1 s = JSON.value_body elements2 members2 s.
Proof.
  intros He Hm. unfold JSON.value_body.
  pose proof (skip_ws_length s) as Hs.
  destruct (stripPrefix (lit "null") (JSON.skip_ws s)); [reflexivity|].
  destruct (stripPrefix (lit "true") (JSON.skip_ws s)); [reflexivity|].
  destruct (stripPrefix (lit "false") (JSON.skip_ws s)); [reflexivity|].
  destruct (JSON.skip_ws s) as [|c t]; [reflexivity|]. simpl in Hs.
  destruct (c =? 34)%N; [reflexivity|].
  destruct (c =? 91)%N.
  { destruct (stripPrefix (lit "]") (JSON.skip_ws t)); [reflexivity|].
    rewrite He by lia. reflexivity. }
  destruct (c =? 123)%N; [|reflexivity].
  destruct (stripPrefix (lit "}") (JSON.skip_ws t)); [reflexivity|].
  rewrite Hm by lia. reflexivity.
Qed.

Lemma elements_body_ext value1 value2 elements1 elements2 (s : jsstring) :
  consumes value2 ->
  value1 s = value2 s ->
  (forall r, (List.length r + 2 <= List.length s)%nat -> elements1 r = elements2 r) ->
  JSON.elements_body value1 elements1 s = JSON.elements_body value2 elements2 s.
Proof.
  intros Hc Hv He. unfold JSON.elements_body. rewrite Hv.
  destruct (value2 s) as [[v r0]|] eqn:P; [|reflexivity].
  apply Hc in P. pose proof (skip_ws_length r0) as Hs.
  destruct (JSON.skip_ws r0) as [|c r']; [reflexivity|]. simpl in Hs.
  destruct (c =? 44)%N; [|reflexivity].
  rewrite He by lia. reflexivity.
Qed.

Lemma members_body_ext value1 value2 members1 members2 (s : jsstring) :
  consumes value2 ->
  (forall r, (List.length r < List.length s)%nat -> value1 r = value2 r) ->
  (forall r, (List.length r + 2 <= List.length s)%nat -> members1 r = members2 r) ->
  JSON.members_body value1 members1 s = JSON.members_body value2 members2 s.
Proof.
  intros Hc Hv Hm. unfold JSON.members_body.
  pose proof (skip_ws_length s) as Hs.
  destruct (stripPrefix [34%N] (JSON.skip_ws s)) as [r0|] eqn:Q0; [|reflexivity].
  apply stripPrefix_length in Q0. simpl in Q0.
  destruct (JSON.parse_string r0) as [[k r1]|] eqn:P1; [|reflexivity].
  apply parse_string_length in P1. pose proof (skip_ws_length r1) as Hs1.
  destruct (stripPrefix (lit ":") (JSON.skip_ws r1)) as [r2|] eqn:Q2; [|reflexivity].
  apply stripPrefix_length in Q2. simpl in Q2.
  rewrite Hv by lia.
  destruct (value2 r2) as [[v r3]|] eqn:P3; [|reflexivity].
  apply Hc in P3. pose proof (skip_ws_length r3) as Hs3.
  destruct (JSON.skip_ws r3) as [|c r4]; [reflexivity|]. simpl in Hs3.
  destruct (c =? 44)%N; [|reflexivity].
  rewrite Hm by lia. reflexivity.
Qed.

(** One more unit of fuel changes nothing once the fuel is twice the length
    of the input and one (a value) or two (elements, members). *)
Lemma parse_fuel_step (fuel : nat) :
  (forall s, (2 * List.length s + 1 <= fuel)%nat ->
             JSON.parse_value (S fuel) s = JSON.parse_value fuel s)
  /\ (forall s, (2 * List.length s + 2 <= fuel)%nat ->
                JSON.parse_elements (S fuel) s = JSON.parse_elements fuel s)
  /\ (forall s, (2 * List.length s + 2 <= fuel)%nat ->
                JSON.parse_members (S fuel) s = JSON.parse_members fuel s).
Proof.
  induction fuel as [|fuel [IHv [IHe IHm]]].
  - repeat split; intros s Hs; lia.
  - destruct (parse_consumes fuel) as [Cv _].
    split; [|split]; intros s Hs.
    + change (JSON.value_body (JSON.parse_elements (S fuel)) (JSON.parse_members (S fuel)) s
              = JSON.value_body (JSON.parse_elements fuel) (JSON.parse_members fuel) s).
      apply value_body_ext; intros r Hr; [apply IHe | apply IHm]; lia.
    + change (JSON.elements_body (JSON.parse_value (S fuel)) (JSON.parse_elements (S fuel)) s
              = JSON.elements_body (JSON.parse_value fuel) (JSON.parse_elements fuel) s).
      apply elements_body_ext; [exact Cv | apply IHv; lia |].
      intros r Hr. apply IHe. lia.
    + change (JSON.members_body (JSON.parse_value (S fuel)) (JSON.parse_members (S fuel)) s
              = JSON.members_body (JSON.parse_value fuel) (JSON.parse_members fuel) s).
      apply members_body_ext; [exact Cv | |].
      * intros r Hr. apply IHv. lia.
      * intros r Hr. apply IHm. lia.
Qed.

(** The result of [JSON.parse] does not depend on the fuel: any larger
    amount gives the same value or the same failure. *)
Theorem JSON_parse_fuel (text : jsstring) (extra : nat) :
  JSON.parse_value (JSON.fuel_for text + extra) text
  = JSON.parse_value (JSON.fuel_for text) text.
Proof.
  induction extra as [|extra IH].
  - now rewrite Nat.add_0_r.
  - rewrite Nat.add_succ_r, <- IH.
    apply (proj1 (parse_fuel_step (JSON.fuel_for text + extra))).
    unfold JSON.fuel_for. lia.
Qed.

(** ** Bytes *)

Lemma bytesToHex_app (a b : list byte) : bytesToHex (a ++ b) = bytesToHex a ++ bytesToHex b.
Proof. apply flat_map_app. Qed.

Lemma bytesToHex_length (bytes : list byte) :
  List.length (bytesToHex bytes) = (2 * List.length bytes)%nat.
Proof.
  induction bytes as [|b bytes IH]; simpl; [reflexivity|].
  rewrite IH. lia.
Qed.

(** ** The TLV loop *)

Example TextDecoder_decode_relay :
  TextDecoder.decode ["w"%byte; "s"%byte; "s"%byte; ":"%byte; xc3; xa9; xff]
  = lit "wss:" ++ [0xE9; 0xFFFD]%N.
Proof. vm_compute. reflexivity. Qed.

Lemma decodeTLV_loop_eq (data : list byte) (offset : nat) (result : DecodedIdentifier) :
  decodeTLV_loop data offset result =
  match nth_error data offset with
  | None => result
  | Some tlvType =>
      match nth_error data (offset + 1) with
      | Some len =>
          decodeTLV_loop data (offset + 2 + N.to_nat (Byte.to_N len))
            (decodeTLV_body data offset tlvType result)
      | None => decodeTLV_body data offset tlvType result
      end
  end.
Proof.
  simp decodeTLV_loop. unfold inspect.
  enough (G : forall o (E : nth_error data offset = o),
             decodeTLV_loop_unfold_clause_1 data offset (exist _ o E) result =
             match o with
             | None => result
             | Some tlvType =>
                 match nth_error data (offset + 1) with
                 | Some len =>
                     decodeTLV_loop data (offset + 2 + N.to_nat (Byte.to_N len))
                       (decodeTLV_body data offset tlvType result)
                 | None => decodeTLV_body data offset tlvType result
                 end
             end) by apply G.
  intros [tlvType|] E; simpl; [|reflexivity].
  destruct (nth_error data (offset + 1)); reflexivity.
Qed.

Lemma to_N_byte_of_N (n : N) : (n < 256)%N -> Byte.to_N (byte_of_N n) = n.
Proof.
  intros Hn. unfold byte_of_N.
  rewrite N.mod_small by exact Hn.
  destruct (Byte.of_N n) as [b|] eqn:E.
  - now apply Byte.to_of_N.
  - apply Byte.of_N_None_iff in E. lia.
Qed.

Lemma nth_error_middle (A : Type) (pre post : list A) (x : A) :
  nth_error (pre ++ x :: post) (List.length pre) = Some x.
Proof.
  rewrite nth_error_app2 by lia. now rewrite Nat.sub_diag.
Qed.

Lemma nth_error_next (A : Type) (pre post : list A) (x y : A) :
  nth_error (pre ++ x :: y :: post) (List.length pre + 1) = Some y.
Proof.
  rewrite nth_error_app2 by lia.
  now replace (List.length pre + 1 - List.length pre)%nat with 1%nat by lia.
Qed.

Lemma skipn_header (A : Type) (pre rest : list A) (x y : A) :
  skipn (List.length pre + 2) (pre ++ x :: y :: rest) = rest.
Proof.
  rewrite skipn_app, skipn_all2 by lia.
  now replace (List.length pre + 2 - List.length pre)%nat with 2%nat by lia.
Qed.

(** The value that the loop reads for a record at the end of [pre]: as many
    bytes as the length byte says, or as many as there are. *)
Lemma slice_record (pre rest : list byte) (t l : byte) :
  slice (pre ++ t :: l :: rest) (List.length pre + 2) (Some l)
  = firstn (N.to_nat (Byte.to_N l)) rest.
Proof. unfold slice. now rewrite skipn_header. Qed.

(** One pass of the loop over a complete record. *)
Lemma decodeTLV_body_record (pre post : list byte) (r : byte * list byte)
    (result : DecodedIdentifier) :
  (List.length (snd r) < 256)%nat ->
  decodeTLV_body (pre ++ record_bytes r ++ post) (List.length pre) (fst r) result
  = apply_record result r.
Proof.
  intros Hlen. destruct r as [t v]. simpl in *.
  unfold decodeTLV_body, apply_record, entryOf. simpl fst; simpl snd.
  rewrite nth_error_next, slice_record.
  rewrite to_N_byte_of_N by lia. rewrite Nat2N.id.
  rewrite firstn_app, firstn_all, Nat.sub_diag. simpl firstn. rewrite app_nil_r.
  reflexivity.
Qed.

Lemma stream_cons (r : byte * list byte) (records : list (byte * list byte)) :
  stream (r :: records) = fst r :: byte_of_N (N.of_nat (List.length (snd r)))
                          :: snd r ++ stream records.
Proof. reflexivity. Qed.

(** The loop over a run of complete records moves the offset past them and
    applies them in order. *)
Lemma decodeTLV_loop_stream (records : list (byte * list byte)) :
  Forall (fun r => (List.length (snd r) < 256)%nat) records ->
  forall (pre post : list byte) (result : DecodedIdentifier),
  decodeTLV_loop (pre ++ stream records ++ post) (List.length pre) result
  = decodeTLV_loop (pre ++ stream records ++ post)
      (List.length pre + List.length (stream records))
      (fold_left apply_record records result).
Proof.
  induction 1 as [|r records Hr _ IH]; intros pre post result.
  - simpl. now rewrite Nat.add_0_r.
  - rewrite stream_cons. simpl fold_left. simpl app.
    rewrite decodeTLV_loop_eq.
    rewrite nth_error_middle, nth_error_next.
    rewrite <- app_assoc.
    pose proof (decodeTLV_body_record pre (stream records ++ post) r result Hr) as B.
    unfold record_bytes in B. simpl app in B. rewrite B. clear B.
    rewrite to_N_byte_of_N by lia. rewrite Nat2N.id.
    specialize (IH (pre ++ record_bytes r) post (apply_record result r)).
    rewrite <- app_assoc in IH. unfold record_bytes in IH. simpl app in IH.
    rewrite length_app in IH. simpl List.length in IH.
    replace (List.length pre + 2 + List.length (snd r))%nat
      with (List.length pre + S (S (List.length (snd r))))%nat by lia.
    rewrite IH. f_equal.
    simpl. rewrite length_app. lia.
Qed.

Lemma tlv_fold_apply_record (records : list (byte * list byte)) (result : DecodedIdentifier)
    (es : list TLV.entry) :
  Ident.tlv result = Some es ->
  Ident.tlv (fold_left apply_record records result) = Some (es ++ map entryOf records).
Proof.
  revert result es. induction records as [|r records IH]; intros result es E; simpl.
  - now rewrite app_nil_r.
  - rewrite (IH _ (es ++ [entryOf r])).
    + now rewrite <- app_assoc.
    + simpl. now rewrite E.
Qed.

Lemma type_fold_apply_record (records : list (byte * list byte)) (result : DecodedIdentifier) :
  Ident.type (fold_left apply_record records result) = Ident.type result.
Proof.
  revert result. induction records as [|r records IH]; intros result; simpl; [reflexivity|].
  now rewrite IH.
Qed.

(** A payload of complete records decodes to the records applied in
    order. *)
Lemma decodeTLV_stream (ty : IdType) (records : list (byte * list byte)) :
  Forall (fun r => (List.length (snd r) < 256)%nat) records ->
  decodeTLV ty (stream records) = fold_left apply_record records (initial ty).
Proof.
  intros Hrec. unfold decodeTLV.
  pose proof (decodeTLV_loop_stream records Hrec [] [] (initial ty)) as L.
  simpl in L. rewrite app_nil_r in L. unfold initial in *. rewrite L.
  rewrite decodeTLV_loop_eq.
  now rewrite (proj2 (nth_error_None _ _)) by lia.
Qed.

Lemma consumed_entries (records : list (byte * list byte)) :
  Forall (fun r => (List.length (snd r) < 256)%nat) records ->
  consumed (map entryOf records) = List.length (stream records).
Proof.
  unfold consumed. induction 1 as [|r records Hr _ IH]; [reflexivity|].
  rewrite stream_cons. simpl map. simpl List.length. rewrite length_app, <- IH.
  unfold list_sum. simpl fold_right.
  unfold declared. simpl. rewrite to_N_byte_of_N by lia. rewrite Nat2N.id. lia.
Qed.

(** C7 (amended): for a payload made of complete records (type byte, length
    byte, and a value of exactly that length, one after the other),
    [decodeTLV] lists one entry per record in the order of the payload, the
    length of each entry is the byte length of its value (half the length of
    its hexadecimal text), and the sum of [2 + length] over the entries is
    the length of the payload. *)
Theorem decodeTLV_complete_records (ty : IdType) (records : list (byte * list byte)) :
  Forall (fun r => (List.length (snd r) < 256)%nat) records ->
  exists es,
    Ident.tlv (decodeTLV ty (stream records)) = Some es
    /\ es = map entryOf records
    /\ Forall (fun e => exists l, TLV.length e = Some l
                        /\ (2 * N.to_nat (Byte.to_N l))%nat = List.length (TLV.value e)) es
    /\ consumed es = List.length (stream records).
Proof.
  intros Hrec. exists (map entryOf records).
  rewrite decodeTLV_stream by exact Hrec.
  rewrite (tlv_fold_apply_record records (initial ty) []) by reflexivity.
  repeat split.
  - apply Forall_map. eapply Forall_impl; [|exact Hrec].
    intros r Hr. simpl in Hr. eexists; split; [reflexivity|].
    simpl. rewrite to_N_byte_of_N by lia. rewrite Nat2N.id.
    now rewrite bytesToHex_length.
  - now apply consumed_entries.
Qed.

(** A payload of complete records followed by a record whose value is cut
    short decodes to the records and the short record, applied in order. *)
Lemma decodeTLV_truncated (ty : IdType) (records : list (byte * list byte))
    (t l : byte) (v : list byte) :
  Forall (fun r => (List.length (snd r) < 256)%nat) records ->
  (List.length v < N.to_nat (Byte.to_N l))%nat ->
  decodeTLV ty (stream records ++ t :: l :: v)
  = apply_truncated (fold_left apply_record records (initial ty)) t l v.
Proof.
  intros Hrec Hv. unfold decodeTLV.
  pose proof (decodeTLV_loop_stream records Hrec [] (t :: l :: v) (initial ty)) as L.
  simpl in L. unfold initial in *. rewrite L. clear L.
  rewrite decodeTLV_loop_eq.
  rewrite nth_error_middle, nth_error_next.
  unfold decodeTLV_body. rewrite nth_error_next, slice_record.
  rewrite firstn_all2 by lia.
  rewrite decodeTLV_loop_eq.
  rewrite (proj2 (nth_error_None _ _)); [reflexivity|].
  rewrite length_app. simpl. lia.
Qed.

(** A payload of complete records followed by a lone type byte: the entry
    of the last record has no length and an empty value. *)
Lemma decodeTLV_lone_type (ty : IdType) (records : list (byte * list byte)) (t : byte) :
  Forall (fun r => (List.length (snd r) < 256)%nat) records ->
  decodeTLV ty (stream records ++ [t])
  = apply_last (fold_left apply_record records (initial ty)) t None [].
Proof.
  intros Hrec. unfold decodeTLV.
  pose proof (decodeTLV_loop_stream records Hrec [] [t] (initial ty)) as L.
  simpl in L. unfold initial in *. rewrite L. clear L.
  rewrite decodeTLV_loop_eq.
  rewrite nth_error_middle.
  assert (E1 : nth_error (stream records ++ [t]) (List.length (stream records) + 1) = None).
  { apply nth_error_None. rewrite length_app. simpl. lia. }
  rewrite E1. unfold decodeTLV_body, apply_last. rewrite E1. reflexivity.
Qed.

Example decodeTLV_complete_records_witness :
  Forall (fun r => (List.length (snd r) < 256)%nat)
         [("000"%byte, [xab; xcd]); ("003"%byte, ["007"%byte])]
  /\ exists es,
       Ident.tlv (decodeTLV nevent
                    (stream [("000"%byte, [xab; xcd]); ("003"%byte, ["007"%byte])])) = Some es
       /\ es = map entryOf [("000"%byte, [xab; xcd]); ("003"%byte, ["007"%byte])]
       /\ Forall (fun e => exists l, TLV.length e = Some l
                           /\ (2 * N.to_nat (Byte.to_N l))%nat = List.length (TLV.value e)) es
       /\ consumed es = List.length (stream [("000"%byte, [xab; xcd]); ("003"%byte, ["007"%byte])]).
Proof.
  assert (H : Forall (fun r : byte * list byte => (List.length (snd r) < 256)%nat)
                [("000"%byte, [xab; xcd]); ("003"%byte, ["007"%byte])])
    by (constructor; [simpl; lia | constructor; [simpl; lia | constructor]]).
  split; [exact H|].
  exact (decodeTLV_complete_records nevent _ H).
Defined.

(** C7 (as stated) fails: the string [nprofile1qyzkzxseh9s] carries the
    payload 01 05 61, a relay record that declares five bytes and has one.
    It decodes, with one entry of length 5 whose value is one byte, and the
    sum of [2 + length] is 7 for a payload of 3 bytes. *)
Example decodeTLV_length_mismatch :
  let payload := ["001"%byte; "005"%byte; "a"%byte] in
  let e := TLV.Entry "001"%byte (lit "relay") (Some "005"%byte) (lit "61") in
  (exists words,
     Scure.decode (lit "nprofile1qyzkzxseh9s") 1023 = Ok (lit "nprofile", words)
     /\ Scure.fromWords words = Ok payload)
  /\ @decodeBech32Identifier Scure.package (lit "nprofile1qyzkzxseh9s")
     = Ok (Some (Ident.Make nprofile (Ident.push_relay (lit "a") Ident.empty) (Some [e])))
  /\ declared e = 5%nat
  /\ (List.length (TLV.value e) / 2 = 1)%nat
  /\ consumed [e] = 7%nat
  /\ List.length payload = 3%nat.
Proof.
  cbv zeta. split; [|split; [|split; [|split; [|split]]]]; try (vm_compute; reflexivity).
  eexists. split; vm_compute; reflexivity.
Qed.

Lemma decodeBech32Identifier_tlv `{Bech32} (identifier hrp : jsstring) (ty : IdType)
    (words : list N) (data : list byte) :
  In (hrp, ty) tlvPrefixes ->
  bech32_decode identifier 1023 = Ok (hrp, words) ->
  bech32_fromWords words = Ok data ->
  decodeBech32Identifier identifier = Ok (Some (decodeTLV ty data)).
Proof.
  intros Hin Hdec Hwords. unfold decodeBech32Identifier.
  rewrite Hdec. simpl. rewrite Hwords. simpl.
  destruct Hin as [E|[E|[E|[]]]]; inversion E; subst; reflexivity.
Qed.

(** C6 (amended): a payload in which a record declares more value bytes than
    the payload has does not make the decoder fail.  [decodeBech32Identifier]
    returns an identifier: the records before it are applied, and the short
    record is listed with the length it declares and the bytes that are
    there, and sets its field from those bytes. *)
Theorem decodeBech32Identifier_truncated `{Bech32} (identifier hrp : jsstring) (ty : IdType)
    (words : list N) (records : list (byte * list byte)) (t l : byte) (v : list byte) :
  In (hrp, ty) tlvPrefixes ->
  bech32_decode identifier 1023 = Ok (hrp, words) ->
  bech32_fromWords words = Ok (stream records ++ t :: l :: v) ->
  Forall (fun r => (List.length (snd r) < 256)%nat) records ->
  (List.length v < N.to_nat (Byte.to_N l))%nat ->
  decodeBech32Identifier identifier
  = Ok (Some (apply_truncated (fold_left apply_record records (initial ty)) t l v)).
Proof.
  intros Hin Hdec Hwords Hrec Hv.
  rewrite (decodeBech32Identifier_tlv identifier hrp ty words _ Hin Hdec Hwords).
  now rewrite decodeTLV_truncated.
Qed.

Example decodeBech32Identifier_truncated_witness :
  @decodeBech32Identifier Scure.package (lit "nevent1qqp2hngpq4ssjznlmv")
  = Ok (Some (apply_truncated
                (fold_left apply_record [("000"%byte, [xab; xcd])] (initial nevent))
                "001"%byte "005"%byte ["a"%byte])).
Proof.
  apply (@decodeBech32Identifier_truncated Scure.package
           (lit "nevent1qqp2hngpq4ssjznlmv") (lit "nevent") nevent
           [0; 0; 1; 10; 23; 19; 8; 1; 0; 21; 16; 16]%N
           [("000"%byte, [xab; xcd])] "001"%byte "005"%byte ["a"%byte]).
  - simpl. tauto.
  - vm_compute. reflexivity.
  - vm_compute. reflexivity.
  - constructor; [simpl; lia | constructor].
  - vm_compute. lia.
Defined.

(** C6 (as stated) fails: the string [nevent1qqsqzqs2qlfqm] carries the
    payload 00 20 01 02, a record that declares 32 bytes and has two.  The
    decoder returns an identifier whose [id] is the two bytes. *)
Example decodeBech32Identifier_partial :
  (exists words,
     Scure.decode (lit "nevent1qqsqzqs2qlfqm") 1023 = Ok (lit "nevent", words)
     /\ Scure.fromWords words = Ok ["000"%byte; "032"%byte; "001"%byte; "002"%byte])
  /\ @decodeBech32Identifier Scure.package (lit "nevent1qqsqzqs2qlfqm")
     = Ok (Some (Ident.Make nevent
                   (Ident.set_id (lit "0102") Ident.empty)
                   (Some [TLV.Entry "000"%byte (lit "special") (Some "032"%byte) (lit "0102")]))).
Proof.
  split; [|vm_compute; reflexivity].
  eexists. split; vm_compute; reflexivity.
Qed.

(** ** bytesToNumber *)

Example bytesToNumber_kind_30023 :
  bytesToNumber [x00; x00; x75; x47] = 30023%Z.
Proof. reflexivity. Qed.

Lemma byteval_range (b : byte) : (0 <= byteval b < 256)%Z.
Proof.
  unfold byteval. pose proof (Byte.to_N_bounded b). lia.
Qed.

Lemma bigEndian_snoc (bytes : list byte) (b : byte) :
  bigEndian (bytes ++ [b]) = (bigEndian bytes * 256 + byteval b)%Z.
Proof. unfold bigEndian. now rewrite fold_left_app. Qed.

Lemma bytesToNumber_snoc (bytes : list byte) (b : byte) :
  bytesToNumber (bytes ++ [b]) = (shl32 (bytesToNumber bytes) 8 + byteval b)%Z.
Proof. unfold bytesToNumber. now rewrite fold_left_app. Qed.

Lemma bigEndian_nonneg (bytes : list byte) : (0 <= bigEndian bytes)%Z.
Proof.
  induction bytes as [|b bytes IH] using rev_ind; [unfold bigEndian; simpl; lia|].
  rewrite bigEndian_snoc. pose proof (byteval_range b). lia.
Qed.

Lemma shl32_small (a : Z) : (0 <= a < 2 ^ 23)%Z -> shl32 a 8 = (a * 256)%Z.
Proof.
  intros Ha. unfold shl32, toInt32.
  rewrite Z.shiftl_mul_pow2 by lia.
  assert (E : ((a + 2 ^ 31) mod 2 ^ 32 - 2 ^ 31 = a)%Z).
  { rewrite Z.mod_small; lia. }
  rewrite E. rewrite Z.mod_small; lia.
Qed.

(** Below 2^31 the code computes the big-endian value. *)
Lemma bytesToNumber_below_2_31 (bytes : list byte) :
  (bigEndian bytes < 2 ^ 31)%Z -> bytesToNumber bytes = bigEndian bytes.
Proof.
  induction bytes as [|b bytes IH] using rev_ind; [reflexivity|].
  rewrite bigEndian_snoc, bytesToNumber_snoc.
  intros Hlt. pose proof (byteval_range b). pose proof (bigEndian_nonneg bytes).
  rewrite IH by lia. rewrite shl32_small by lia. reflexivity.
Qed.

(** C8: the kind record 03 04 80 00 00 00 holds the big-endian value 2^31.
    [bytesToNumber] returns -2^31 for it, and this is the [kind] that
    [decodeTLV] stores: the shift [result << 8] is a signed 32-bit one. *)
Theorem bytesToNumber_signed_overflow :
  bigEndian [x80; x00; x00; x00] = 2147483648%Z
  /\ bytesToNumber [x80; x00; x00; x00] = (-2147483648)%Z
  /\ Ident.kind (Ident.data (decodeTLV naddr ["003"%byte; "004"%byte; x80; x00; x00; x00]))
     = Some (-2147483648)%Z
  /\ (exists words,
        Scure.decode (lit "naddr1qvzgqqqqqqc795vy") 1023 = Ok (lit "naddr", words)
        /\ Scure.fromWords words = Ok ["003"%byte; "004"%byte; x80; x00; x00; x00])
  /\ (exists d,
        @parseInput Scure.package (lit "naddr1qvzgqqqqqqc795vy") = Ok (Some (Identifier d))
        /\ Ident.kind (Ident.data d) = Some (-2147483648)%Z).
Proof.
  split; [|split; [|split; [|split]]]; try (vm_compute; reflexivity).
  - eexists. split; vm_compute; reflexivity.
  - eexists. split; vm_compute; reflexivity.
Qed.

(** ** The classifier *)

Lemma decodeBech32Identifier_total `{Bech32} (identifier : jsstring) :
  exists r, decodeBech32Identifier identifier = Ok r.
Proof.
  unfold decodeBech32Identifier, try_catch, bind.
  destruct (bech32_decode identifier 1023) as [[prefix words]|m]; [|eauto].
  destruct (bech32_fromWords words) as [data|m]; [|eauto].
  repeat match goal with
         | |- context [if streq ?a ?b then _ else _] => destruct (streq a b)
         end; eauto.
Qed.

Lemma jsonStep_cases (t : jsstring) :
  jsonStep t = Ok None
  \/ exists v, JSON.parse t = Ok v /\ isValidEventStructure v = true
               /\ jsonStep t = Ok (Some (Event v)).
Proof.
  unfold jsonStep. destruct (JSON.parse t) as [v|m]; simpl; [|now left].
  destruct (isValidEventStructure v) eqn:E; [right; eauto | now left].
Qed.

Lemma bech32Step_total `{Bech32} (t : jsstring) : exists r, bech32Step t = Ok r.
Proof.
  unfold bech32Step. destruct (matchesBech32 t); [|eauto].
  destruct (decodeBech32Identifier_total t) as [[d|] E]; rewrite E; simpl; eauto.
Qed.

Lemma uriStep_total `{Bech32} (t : jsstring) : exists r, uriStep t = Ok r.
Proof.
  unfold uriStep. destruct (startsWith t (lit "nostr:")); [|eauto].
  destruct (decodeBech32Identifier_total (substring t 6)) as [[d|] E];
    rewrite E; simpl; eauto.
Qed.

Lemma hexStep_total (t : jsstring) : exists r, hexStep t = Ok r.
Proof. unfold hexStep. destruct (matchesHex64 t); eauto. Qed.

Lemma or_next_total {A} (step next : result (option A)) :
  (exists r, step = Ok r) -> (exists r, next = Ok r) -> exists r, or_next step next = Ok r.
Proof.
  intros [[a|] ->] [r ->]; simpl; eauto.
Qed.

(** C5: [parseInput] returns for every input, a result or [null], and never
    throws; so does [decodeBech32Identifier].  A [JSON.parse] that throws
    leaves the JSON step without a match; a [bech32.decode] or a
    [bech32.fromWords] that throws makes [decodeBech32Identifier] return
    [null]; and an input that is not JSON and fits no later pattern yields
    [null]. *)
Theorem parseInput_total `{Bech32} (input : jsstring) :
  (exists r, parseInput input = Ok r)
  /\ (exists r, decodeBech32Identifier input = Ok r)
  /\ (forall m, JSON.parse (trim input) = Throw m -> jsonStep (trim input) = Ok None)
  /\ (forall m, bech32_decode input 1023 = Throw m -> decodeBech32Identifier input = Ok None)
  /\ (forall prefix words m,
      bech32_decode input 1023 = Ok (prefix, words) ->
      bech32_fromWords words = Throw m ->
      decodeBech32Identifier input = Ok None)
  /\ (forall m, JSON.parse (trim input) = Throw m ->
      matchesBech32 (trim input) = false ->
      startsWith (trim input) (lit "nostr:") = false ->
      matchesHex64 (trim input) = false ->
      parseInput input = Ok None).
Proof.
  split; [|split; [|split; [|split; [|split]]]].
  - unfold parseInput.
    apply or_next_total.
    { destruct (jsonStep_cases (trim input)) as [E|[v [_ [_ E]]]]; rewrite E; eauto. }
    apply or_next_total; [apply bech32Step_total|].
    apply or_next_total; [apply uriStep_total|].
    apply or_next_total; [apply hexStep_total|]. eauto.
  - apply decodeBech32Identifier_total.
  - intros m E. unfold jsonStep. now rewrite E.
  - intros m E. unfold decodeBech32Identifier. now rewrite E.
  - intros prefix words m E E'. unfold decodeBech32Identifier. rewrite E. simpl.
    now rewrite E'.
  - intros m E Hb Hu Hh. unfold parseInput, jsonStep, bech32Step, uriStep, hexStep.
    now rewrite E, Hb, Hu, Hh.
Qed.

(** C10: [parseInput] reads its input through [trim] only, so white space
    around the input changes nothing in any branch. *)
Theorem parseInput_trim `{Bech32} (input : jsstring) :
  parseInput (trim input) = parseInput input.
Proof.
  unfold parseInput. now rewrite trim_idempotent.
Qed.

Example parseInput_total_witness :
  @parseInput Scure.package (lit "{oops") = Ok None.
Proof.
  apply (proj2 (proj2 (proj2 (proj2 (proj2 (@parseInput_total Scure.package (lit "{oops"))))))
           (lit "SyntaxError"));
    vm_compute; reflexivity.
Defined.

Lemma isValidEventStructure_spec (v : json) :
  isValidEventStructure v = true <->
  exists members,
    v = JObject members
    /\ isString (get v (lit "id")) = true
    /\ isString (get v (lit "pubkey")) = true
    /\ isNumber (get v (lit "created_at")) = true
    /\ isNumber (get v (lit "kind")) = true
    /\ isArray (get v (lit "tags")) = true
    /\ isString (get v (lit "content")) = true
    /\ isString (get v (lit "sig")) = true.
Proof.
  unfold isValidEventStructure. split.
  - intros E. repeat (apply andb_prop in E as [E ?]).
    destruct v as [| b | n | s | es | members];
      try (simpl in *; discriminate).
    exists members. repeat split; assumption.
  - intros [members [-> [H1 [H2 [H3 [H4 [H5 [H6 H7]]]]]]]].
    rewrite H1, H2, H3, H4, H5, H6, H7. reflexivity.
Qed.

(** What [parseInput] takes for an event: the trimmed input parses as JSON
    to an object whose [id], [pubkey], [content] and [sig] are strings,
    whose [created_at] and [kind] are numbers and whose [tags] is an array;
    the event is the parsed value.  A text that does not parse, or parses
    to another shape, goes on to the later steps. *)
Theorem parseInput_event `{Bech32} (input : jsstring) :
  (forall v,
     parseInput input = Ok (Some (Event v)) <->
     JSON.parse (trim input) = Ok v
     /\ exists members,
          v = JObject members
          /\ isString (get v (lit "id")) = true
          /\ isString (get v (lit "pubkey")) = true
          /\ isNumber (get v (lit "created_at")) = true
          /\ isNumber (get v (lit "kind")) = true
          /\ isArray (get v (lit "tags")) = true
          /\ isString (get v (lit "content")) = true
          /\ isString (get v (lit "sig")) = true)
  /\ ((forall v, JSON.parse (trim input) = Ok v -> isValidEventStructure v = false) ->
      parseInput input
      = (bech32Step (trim input) or_else uriStep (trim input)
         or_else hexStep (trim input) or_else Ok None)%js).
Proof.
  split.
  - intros v. rewrite <- isValidEventStructure_spec. unfold parseInput.
    destruct (jsonStep_cases (trim input)) as [E|[v' [P [S E]]]]; rewrite E; simpl.
    + split.
      * intros Habs. exfalso.
        destruct (bech32Step_total (trim input)) as [[[e|d]|] E1]; rewrite E1 in Habs;
          simpl in Habs; try discriminate.
        -- unfold bech32Step in E1. destruct (matchesBech32 (trim input)); [|discriminate].
           destruct (decodeBech32Identifier (trim input)) as [[d|]|]; discriminate.
        -- destruct (uriStep_total (trim input)) as [[[e|d]|] E2]; rewrite E2 in Habs;
             simpl in Habs; try discriminate.
           ++ unfold uriStep in E2.
              destruct (startsWith (trim input) (lit "nostr:")); [|discriminate].
              destruct (decodeBech32Identifier (substring (trim input) 6)) as [[d|]|];
                discriminate.
           ++ unfold hexStep in Habs. destruct (matchesHex64 (trim input)); discriminate.
      * intros [P S]. unfold jsonStep in E. rewrite P in E. simpl in E.
        rewrite S in E. discriminate.
    + split.
      * intros Heq. injection Heq as <-. now split.
      * intros [P' _]. congruence.
  - intros Hno. unfold parseInput.
    destruct (jsonStep_cases (trim input)) as [E|[v' [P [S E]]]]; rewrite E; simpl.
    + reflexivity.
    + rewrite (Hno v' P) in S. discriminate.
Qed.

Example parseInput_event_witness :
  @parseInput Scure.package sampleEventText
  = Ok (Some (Event (JObject
        [(lit "id", JString (lit "00")); (lit "pubkey", JString (lit "ab"));
         (lit "created_at", JNumber (lit "1700000000")); (lit "kind", JNumber (lit "1"));
         (lit "tags", JArray [JArray [JString (lit "e"); JString (lit "00")]]);
         (lit "content", JString (lit "hi")); (lit "sig", JString (lit "cd"))]))).
Proof.
  apply (proj1 (@parseInput_event Scure.package sampleEventText)).
  split; [vm_compute; reflexivity|].
  eexists. split; [reflexivity|].
  split; [|split; [|split; [|split; [|split; [|split]]]]]; vm_compute; reflexivity.
Defined.

(** C4: the check of [tags] stops at [Array.isArray].  The text
    [{"id":"","pubkey":"","created_at":0,"kind":1,"tags":[1],"content":"","sig":""}]
    is classified as an event, and its [tags] holds a number where an event
    has arrays of strings. *)
Example parseInput_event_numeric_tags :
  @parseInput Scure.package numericTagsText
  = Ok (Some (Event (JObject
        [(lit "id", JString []); (lit "pubkey", JString []);
         (lit "created_at", JNumber (lit "0")); (lit "kind", JNumber (lit "1"));
         (lit "tags", JArray [JNumber (lit "1")]);
         (lit "content", JString []); (lit "sig", JString [])])))
  /\ tagsOfStrings (JObject
        [(lit "id", JString []); (lit "pubkey", JString []);
         (lit "created_at", JNumber (lit "0")); (lit "kind", JNumber (lit "1"));
         (lit "tags", JArray [JNumber (lit "1")]);
         (lit "content", JString []); (lit "sig", JString [])]) = false.
Proof. split; vm_compute; reflexivity. Qed.

(** A text that starts with [nostr:] is not JSON. *)
Lemma JSON_parse_nostr (t : jsstring) :
  JSON.parse (lit "nostr:" ++ t) = Throw (lit "SyntaxError").
Proof. reflexivity. Qed.

Lemma matchesBech32_nostr (t : jsstring) : matchesBech32 (lit "nostr:" ++ t) = false.
Proof. reflexivity. Qed.

(** A text that matches the bech32 pattern is not JSON. *)
Lemma JSON_parse_bech32 (t : jsstring) :
  matchesBech32 t = true -> JSON.parse t = Throw (lit "SyntaxError").
Proof.
  unfold matchesBech32. intros Hm.
  apply existsb_exists in Hm as [hrp [Hin Hm]].
  destruct (stripPrefix (lit hrp ++ lit "1") t) as [[|c r]|] eqn:E; try discriminate.
  apply stripPrefix_Some in E. subst t.
  simpl in Hin.
  repeat (destruct Hin as [<-|Hin]; [reflexivity|]).
  contradiction.
Qed.

Lemma trim_nostr (s : jsstring) :
  trimStart s = s -> trim (lit "nostr:" ++ s) = lit "nostr:" ++ trim s.
Proof.
  intros Hs. unfold trim. rewrite Hs.
  change (trimStart (lit "nostr:" ++ s)) with (lit "nostr:" ++ s).
  unfold trimEnd. rewrite rev_app_distr.
  change (rev (lit "nostr:")) with (0x3A%N :: rev (lit "nostr")).
  rewrite trimStart_app_stop by reflexivity.
  rewrite rev_app_distr. reflexivity.
Qed.

(** C9 (amended): for a string that does not start with white space and that
    [parseInput] decodes in its bech32 step, [parseInput] of [nostr:]
    followed by the string returns the same identifier. *)
Theorem parseInput_nostr_uri `{Bech32} (s : jsstring) (d : DecodedIdentifier) :
  trimStart s = s ->
  bech32Step (trim s) = Ok (Some (Identifier d)) ->
  parseInput s = Ok (Some (Identifier d))
  /\ parseInput (lit "nostr:" ++ s) = parseInput s.
Proof.
  intros Hs Hstep.
  assert (Hm : matchesBech32 (trim s) = true).
  { unfold bech32Step in Hstep. destruct (matchesBech32 (trim s)); [reflexivity|discriminate]. }
  assert (Hd : decodeBech32Identifier (trim s) = Ok (Some d)).
  { unfold bech32Step in Hstep. rewrite Hm in Hstep.
    destruct (decodeBech32Identifier (trim s)) as [[d'|]|]; simpl in Hstep;
      congruence. }
  assert (E1 : parseInput s = Ok (Some (Identifier d))).
  { unfold parseInput, jsonStep. rewrite (JSON_parse_bech32 _ Hm). simpl.
    now rewrite Hstep. }
  split; [exact E1|]. rewrite E1.
  unfold parseInput. rewrite trim_nostr by exact Hs.
  assert (J : jsonStep (lit "nostr:" ++ trim s) = Ok None).
  { unfold jsonStep. now rewrite JSON_parse_nostr. }
  assert (B : bech32Step (lit "nostr:" ++ trim s) = Ok None).
  { unfold bech32Step. now rewrite matchesBech32_nostr. }
  assert (U : uriStep (lit "nostr:" ++ trim s) = Ok (Some (Identifier d))).
  { unfold uriStep.
    change (startsWith (lit "nostr:" ++ trim s) (lit "nostr:")) with true.
    change (substring (lit "nostr:" ++ trim s) 6) with (trim s).
    cbv iota zeta. now rewrite Hd. }
  rewrite J, B, U. reflexivity.
Qed.

Example parseInput_nostr_uri_witness :
  @parseInput Scure.package
     (lit "npub10elfcs4fr0l0r8af98jlmgdh9c8tcxjvz9qkw038js35mp4dma8qzvjptg")
  = Ok (Some (Identifier
        (Ident.Make npub
           (Ident.set_pubkey
              (lit "7e7e9c42a91bfef19fa929e5fda1b72e0ebc1a4c1141673e2794234d86addf4e")
              Ident.empty)
           None)))
  /\ @parseInput Scure.package
       (lit "nostr:" ++ lit "npub10elfcs4fr0l0r8af98jlmgdh9c8tcxjvz9qkw038js35mp4dma8qzvjptg")
     = @parseInput Scure.package
         (lit "npub10elfcs4fr0l0r8af98jlmgdh9c8tcxjvz9qkw038js35mp4dma8qzvjptg").
Proof.
  apply (@parseInput_nostr_uri Scure.package); vm_compute; reflexivity.
Defined.

(** C9 (as stated) fails: the npub string after one space is decoded by
    [parseInput] in its bech32 step, and [nostr:] followed by the same string
    is not decoded. *)
Example parseInput_nostr_uri_space :
  @bech32Step Scure.package
     (trim (lit " npub10elfcs4fr0l0r8af98jlmgdh9c8tcxjvz9qkw038js35mp4dma8qzvjptg"))
  = Ok (Some (Identifier
        (Ident.Make npub
           (Ident.set_pubkey
              (lit "7e7e9c42a91bfef19fa929e5fda1b72e0ebc1a4c1141673e2794234d86addf4e")
              Ident.empty)
           None)))
  /\ @parseInput Scure.package
       (lit " npub10elfcs4fr0l0r8af98jlmgdh9c8tcxjvz9qkw038js35mp4dma8qzvjptg")
     = Ok (Some (Identifier
        (Ident.Make npub
           (Ident.set_pubkey
              (lit "7e7e9c42a91bfef19fa929e5fda1b72e0ebc1a4c1141673e2794234d86addf4e")
              Ident.empty)
           None)))
  /\ @parseInput Scure.package
       (lit "nostr:"
        ++ lit " npub10elfcs4fr0l0r8af98jlmgdh9c8tcxjvz9qkw038js35mp4dma8qzvjptg")
     = Ok None.
Proof. split; [|split]; vm_compute; reflexivity. Qed.

(** ** The validator *)

Example hexToBytes_sample :
  hexToBytes (lit "0aFf10") = [x0a; xff; x10].
Proof. vm_compute. reflexivity. Qed.

Example sha256_abc :
  bytesToHex (sha256 (TextEncoder.encode (lit "abc")))
  = lit "ba7816bf8f01cfea414140de5dae2223b00361a396177a9cb410ff61f20015ad".
Proof. vm_compute. reflexivity. Qed.

Example eventForId_emptyNote :
  Stringify.eventForId emptyNote
  = lit "[0," ++ [0x22; 0x22]%N ++ lit ",0,1,[]," ++ [0x22; 0x22]%N ++ lit "]".
Proof. vm_compute. reflexivity. Qed.

(** What [validateEvent] returns, in full. *)
Lemma validateEvent_report `{Schnorr} (event : NostrEvent) :
  validateEvent event =
  let idOk := streq (computedId event) (NostrEvent.id event) in
  let attempt := verifyAttempt event in
  let sigOk := match attempt with Ok b => b | Throw _ => false end in
  let errs := (if idOk then [] else [idMismatchMessage]) ++ signatureErrors attempt in
  {| isValid := idOk && sigOk && (List.length errs =? 0)%nat;
     idMatch := idOk;
     sigValid := sigOk;
     errors := errs |}.
Proof.
  unfold validateEvent, validateEvent_body, verifyAttempt.
  unfold Validate.try_catch, Validate.bind, Validate.ret, Validate.call,
    Validate.when, Validate.set_idMatch, Validate.set_sigValid, Validate.push_error.
  cbv zeta.
  destruct (streq (computedId event) (NostrEvent.id event));
    destruct (schnorr_verify (hexToBytes (NostrEvent.sig event))
                (hexToBytes (NostrEvent.id event))
                (hexToBytes (NostrEvent.pubkey event))) as [[|]|m];
    reflexivity.
Qed.

Lemma hex2_lowercase (b : byte) : toLowerCase (hex2 b) = hex2 b.
Proof. destruct b; reflexivity. Qed.

Lemma bytesToHex_lowercase (bytes : list byte) :
  toLowerCase (bytesToHex bytes) = bytesToHex bytes.
Proof.
  induction bytes as [|b bytes IH]; [reflexivity|].
  change (bytesToHex (b :: bytes)) with (hex2 b ++ bytesToHex bytes).
  unfold toLowerCase in *. rewrite map_app. fold (toLowerCase (hex2 b)).
  now rewrite hex2_lowercase, IH.
Qed.

(** C1 (amended): [validateEvent] computes the id as the lowercase
    hexadecimal text of the SHA-256 digest of the UTF-8 bytes of the compact
    JSON text of [[0, pubkey, created_at, kind, tags, content]]; [idMatch] is
    the exact comparison of that text with [event.id] as it is given (the id
    of the event is not put in lowercase first); and the message "Event ID
    does not match computed hash" is among the errors exactly when [idMatch]
    is false. *)
Theorem validateEvent_idMatch `{Schnorr} (event : NostrEvent) :
  let computed_id :=
    bytesToHex (sha256 (TextEncoder.encode (Stringify.eventForId event))) in
  toLowerCase computed_id = computed_id
  /\ idMatch (validateEvent event) = streq computed_id (NostrEvent.id event)
  /\ existsb (streq idMismatchMessage) (errors (validateEvent event))
     = negb (idMatch (validateEvent event)).
Proof.
  cbv zeta. split; [apply bytesToHex_lowercase|].
  fold (computedId event).
  rewrite validateEvent_report. cbv zeta. cbn [idMatch errors].
  split; [reflexivity|].
  destruct (streq (computedId event) (NostrEvent.id event));
    destruct (verifyAttempt event) as [[|]|m]; reflexivity.
Qed.

(** C1 (as stated) fails: the id of [emptyNoteUpper] is the digest of its
    serialization in capital letters.  In lowercase the two sides are
    equal, and [validateEvent] reports that the id does not match. *)
Example validateEvent_idMatch_uppercase :
  streq (toLowerCase (computedId emptyNoteUpper))
        (toLowerCase (NostrEvent.id emptyNoteUpper)) = true
  /\ (forall verifier : Schnorr, idMatch (@validateEvent verifier emptyNoteUpper) = false)
  /\ (forall verifier : Schnorr, idMatch (@validateEvent verifier emptyNote) = true).
Proof.
  split; [vm_compute; reflexivity|].
  split; intros verifier; rewrite validateEvent_report; cbv zeta; cbn [idMatch];
    vm_compute; reflexivity.
Qed.

(** The numbers of the serialization are printed as JavaScript prints
    them: 2^63 is written 9223372036854776000, and the note whose id is the
    digest of that text passes the id check. *)
Example validateEvent_idMatch_rounded_digits :
  Stringify.eventForId farFutureNote
  = lit "[0," ++ Stringify.quote [] ++ lit ",9223372036854776000,1,[],"
    ++ Stringify.quote [] ++ lit "]"
  /\ (forall verifier : Schnorr, idMatch (@validateEvent verifier farFutureNote) = true).
Proof.
  split; [vm_compute; reflexivity|].
  intros verifier; rewrite validateEvent_report; cbv zeta; cbn [idMatch];
    vm_compute; reflexivity.
Qed.

(** C2: in the report of [validateEvent], [isValid] is the conjunction of
    [idMatch], [sigValid] and the emptiness of [errors]; it is true only
    when both checks pass and there is no error. *)
Theorem validateEvent_isValid `{Schnorr} (event : NostrEvent) :
  let r := validateEvent event in
  isValid r = idMatch r && sigValid r && (List.length (errors r) =? 0)%nat
  /\ (isValid r = true <-> idMatch r = true /\ sigValid r = true /\ errors r = []).
Proof.
  cbv zeta. split; [reflexivity|].
  change (isValid (validateEvent event))
    with (idMatch (validateEvent event) && sigValid (validateEvent event)
          && (List.length (errors (validateEvent event)) =? 0)%nat).
  rewrite !andb_true_iff, Nat.eqb_eq, length_zero_iff_nil. tauto.
Qed.

(** C3: [validateEvent] calls the verifier on the bytes of [sig], [id] and
    [pubkey] of the event whatever the id check gave; [sigValid] is what the
    verifier returns (false when it throws), and the errors are those of the
    id check followed by those of the signature check. *)
Theorem validateEvent_sigValid `{Schnorr} (event : NostrEvent) :
  let r := validateEvent event in
  sigValid r = match verifyAttempt event with Ok b => b | Throw _ => false end
  /\ errors r
     = (if idMatch r then [] else [idMismatchMessage])
       ++ signatureErrors (verifyAttempt event).
Proof.
  cbv zeta. rewrite validateEvent_report. cbv zeta. split; reflexivity.
Qed.

(** The signature check runs on an event whose id does not match. *)
Example validateEvent_mismatch_still_verifies :
  idMatch (@validateEvent acceptAll emptyNoteUpper) = false
  /\ sigValid (@validateEvent acceptAll emptyNoteUpper) = true
  /\ isValid (@validateEvent acceptAll emptyNoteUpper) = false.
Proof. split; [|split]; vm_compute; reflexivity. Qed.

(** * Further properties of the code *)

(** ** The TLV loop on any payload *)

(** An invariant of the loop: [P] holds before each pass with the offset of
    the pass, and [Q] of what the loop returns. *)
Lemma decodeTLV_loop_invariant (data : list byte)
    (P : nat -> DecodedIdentifier -> Prop) (Q : DecodedIdentifier -> Prop) :
  (forall offset result,
      P offset result -> nth_error data offset = None -> Q result) ->
  (forall offset tlvType result,
      P offset result -> nth_error data offset = Some tlvType ->
      nth_error data (offset + 1) = None ->
      Q (decodeTLV_body data offset tlvType result)) ->
  (forall offset tlvType len result,
      P offset result -> nth_error data offset = Some tlvType ->
      nth_error data (offset + 1) = Some len ->
      P (offset + 2 + N.to_nat (Byte.to_N len))
        (decodeTLV_body data offset tlvType result)) ->
  forall offset result, P offset result -> Q (decodeTLV_loop data offset result).
Proof.
  intros Hexit Hlast Hpass offset.
  remember (List.length data - offset)%nat as n eqn:Hn.
  assert (Hle : (List.length data - offset <= n)%nat) by lia. clear Hn.
  revert offset Hle. induction n as [|n IH]; intros offset Hle result HP;
    rewrite decodeTLV_loop_eq.
  - assert (E : nth_error data offset = None) by (apply nth_error_None; lia).
    rewrite E. now apply (Hexit offset).
  - destruct (nth_error data offset) as [tlvType|] eqn:E; [|now apply (Hexit offset)].
    assert (offset < List.length data)%nat by (apply nth_error_Some; congruence).
    destruct (nth_error data (offset + 1)) as [len|] eqn:E'.
    + apply IH; [lia|]. now apply Hpass.
    + now apply Hlast.
Qed.

Lemma decodeTLV_body_entries (data : list byte) (offset : nat) (t : byte)
    (result : DecodedIdentifier) :
  Ident.type (decodeTLV_body data offset t result) = Ident.type result
  /\ exists e, Ident.tlv (decodeTLV_body data offset t result) = Some (entries result ++ [e])
               /\ TLV.type e = t.
Proof.
  unfold decodeTLV_body, entries. simpl. split; [reflexivity|].
  destruct (Ident.tlv result); eexists; split; reflexivity.
Qed.

(** X1: whatever the payload, well formed or not, [decodeTLV] returns an
    identifier of the type it was asked for, with a list of entries, and a
    pass of the loop reads at least two bytes: twice the number of entries
    is at most the length of the payload plus one. *)
Theorem decodeTLV_entries_bound (type : IdType) (data : list byte) :
  Ident.type (decodeTLV type data) = type
  /\ exists es, Ident.tlv (decodeTLV type data) = Some es
                /\ (2 * List.length es <= List.length data + 1)%nat.
Proof.
  unfold decodeTLV.
  apply (decodeTLV_loop_invariant data
           (fun offset r => Ident.type r = type
                            /\ exists es, Ident.tlv r = Some es
                                          /\ (2 * List.length es <= offset)%nat
                                          /\ (2 * List.length es <= List.length data + 1)%nat)).
  - intros offset r [Ht [es [Es [_ Hb]]]] _. eauto.
  - intros offset t r [Ht [es [Es [Ho _]]]] E _.
    assert (offset < List.length data)%nat by (apply nth_error_Some; congruence).
    destruct (decodeTLV_body_entries data offset t r) as [Ht' [e [Es' _]]].
    split; [congruence|]. eexists; split; [exact Es'|].
    unfold entries. rewrite Es, length_app. simpl. lia.
  - intros offset t len r [Ht [es [Es [Ho _]]]] E _.
    assert (offset < List.length data)%nat by (apply nth_error_Some; congruence).
    destruct (decodeTLV_body_entries data offset t r) as [Ht' [e [Es' _]]].
    split; [congruence|]. eexists; split; [exact Es'|].
    unfold entries. rewrite Es, length_app. simpl. lia.
  - split; [reflexivity|]. exists []. simpl. repeat split; lia.
Qed.

(** The seven cases of a record type: 0 to 4, and the rest. *)
Ltac tlv_type_cases t :=
  destruct (Byte.to_N t) as [|[[q|q|]|[q|[q|q|]|]|]].

(** What one record does to each field. *)
Lemma parseTLV_fields (type : IdType) (t : byte) (v : list byte) (d : Ident.fields) :
  parseTLV type t v d =
  Ident.Fields
    (if (Byte.to_N t =? 0)%N
     then match type with nevent => Some (bytesToHex v) | _ => Ident.id d end
     else Ident.id d)
    (if (Byte.to_N t =? 0)%N
     then match type with nprofile | naddr => Some (bytesToHex v) | _ => Ident.pubkey d end
     else Ident.pubkey d)
    (if (Byte.to_N t =? 1)%N
     then Some (match Ident.relays d with
                | Some rs => rs ++ [TextDecoder.decode v]
                | None => [TextDecoder.decode v]
                end)
     else Ident.relays d)
    (if (Byte.to_N t =? 2)%N then Some (bytesToHex v) else Ident.author d)
    (if (Byte.to_N t =? 3)%N then Some (bytesToNumber v) else Ident.kind d)
    (if (Byte.to_N t =? 4)%N then Some (TextDecoder.decode v) else Ident.dTag d).
Proof.
  unfold parseTLV. destruct d as [i p r a k g].
  tlv_type_cases t; destruct type; reflexivity.
Qed.

(** X2: on every payload, an [nevent] never gets a [pubkey], and an
    [nprofile] or an [naddr] never gets an [id]: the record of type 0 fills
    the one field that belongs to the type of the identifier. *)
Theorem decodeTLV_special_field (data : list byte) :
  Ident.pubkey (Ident.data (decodeTLV nevent data)) = None
  /\ Ident.id (Ident.data (decodeTLV nprofile data)) = None
  /\ Ident.id (Ident.data (decodeTLV naddr data)) = None.
Proof.
  assert (Hbody : forall offset t r,
             Ident.type (decodeTLV_body data offset t r) = Ident.type r
             /\ Ident.data (decodeTLV_body data offset t r)
                = parseTLV (Ident.type r) t
                    (slice data (offset + 2) (nth_error data (offset + 1)))
                    (Ident.data r)) by (intros; split; reflexivity).
  split; [|split]; unfold decodeTLV.
  - apply (decodeTLV_loop_invariant data
             (fun _ r => Ident.type r = nevent /\ Ident.pubkey (Ident.data r) = None)
             (fun r => Ident.pubkey (Ident.data r) = None)).
    + now intros offset r [_ Hp] _.
    + intros offset t r [Ht Hp] _ _. destruct (Hbody offset t r) as [_ ->].
      rewrite parseTLV_fields, Ht. simpl. now destruct (Byte.to_N t =? 0)%N.
    + intros offset t len r [Ht Hp] _ _. destruct (Hbody offset t r) as [-> ->].
      split; [exact Ht|].
      rewrite parseTLV_fields, Ht. simpl. now destruct (Byte.to_N t =? 0)%N.
    + now split.
  - apply (decodeTLV_loop_invariant data
             (fun _ r => Ident.type r = nprofile /\ Ident.id (Ident.data r) = None)
             (fun r => Ident.id (Ident.data r) = None)).
    + now intros offset r [_ Hp] _.
    + intros offset t r [Ht Hp] _ _. destruct (Hbody offset t r) as [_ ->].
      rewrite parseTLV_fields, Ht. simpl. now destruct (Byte.to_N t =? 0)%N.
    + intros offset t len r [Ht Hp] _ _. destruct (Hbody offset t r) as [-> ->].
      split; [exact Ht|].
      rewrite parseTLV_fields, Ht. simpl. now destruct (Byte.to_N t =? 0)%N.
    + now split.
  - apply (decodeTLV_loop_invariant data
             (fun _ r => Ident.type r = naddr /\ Ident.id (Ident.data r) = None)
             (fun r => Ident.id (Ident.data r) = None)).
    + now intros offset r [_ Hp] _.
    + intros offset t r [Ht Hp] _ _. destruct (Hbody offset t r) as [_ ->].
      rewrite parseTLV_fields, Ht. simpl. now destruct (Byte.to_N t =? 0)%N.
    + intros offset t len r [Ht Hp] _ _. destruct (Hbody offset t r) as [-> ->].
      split; [exact Ht|].
      rewrite parseTLV_fields, Ht. simpl. now destruct (Byte.to_N t =? 0)%N.
    + now split.
Qed.

(** ** Payloads of complete records, field by field *)

Lemma data_fold_apply_record (records : list (byte * list byte)) (result : DecodedIdentifier) :
  Ident.data (fold_left apply_record records result)
  = fold_left (fun d r => parseTLV (Ident.type result) (fst r) (snd r) d)
      records (Ident.data result).
Proof.
  revert result. induction records as [|r records IH]; intros result; [reflexivity|].
  simpl. now rewrite IH.
Qed.

Lemma valuesOfType_snoc (t : N) (records : list (byte * list byte)) (r : byte * list byte) :
  valuesOfType t (records ++ [r])
  = valuesOfType t records ++ (if (Byte.to_N (fst r) =? t)%N then [snd r] else []).
Proof.
  unfold valuesOfType. rewrite filter_app, map_app. simpl.
  now destruct (Byte.to_N (fst r) =? t)%N.
Qed.

Lemma lastValue_snoc (t : N) (records : list (byte * list byte)) (r : byte * list byte) :
  lastValue t (records ++ [r])
  = if (Byte.to_N (fst r) =? t)%N then Some (snd r) else lastValue t records.
Proof.
  unfold lastValue. rewrite valuesOfType_snoc.
  destruct (Byte.to_N (fst r) =? t)%N.
  - now rewrite rev_app_distr.
  - now rewrite app_nil_r.
Qed.

Lemma fieldsOf_snoc (type : IdType) (records : list (byte * list byte))
    (r : byte * list byte) :
  fieldsOf type (records ++ [r]) = parseTLV type (fst r) (snd r) (fieldsOf type records).
Proof.
  rewrite parseTLV_fields. unfold fieldsOf.
  rewrite !lastValue_snoc, valuesOfType_snoc. cbn [Ident.id Ident.pubkey Ident.relays
    Ident.author Ident.kind Ident.dTag].
  f_equal.
  - destruct (Byte.to_N (fst r) =? 0)%N, type; reflexivity.
  - destruct (Byte.to_N (fst r) =? 0)%N, type; reflexivity.
  - destruct (Byte.to_N (fst r) =? 1)%N.
    + destruct (valuesOfType 1 records) as [|v vs]; [reflexivity|].
      simpl. now rewrite map_app.
    + now rewrite app_nil_r.
  - now destruct (Byte.to_N (fst r) =? 2)%N.
  - now destruct (Byte.to_N (fst r) =? 3)%N.
  - now destruct (Byte.to_N (fst r) =? 4)%N.
Qed.

Lemma apply_records_data (type : IdType) (records : list (byte * list byte)) :
  Ident.data (fold_left apply_record records (initial type)) = fieldsOf type records.
Proof.
  rewrite data_fold_apply_record. simpl.
  induction records as [|r records IH] using rev_ind.
  - destruct type; reflexivity.
  - now rewrite fold_left_app, fieldsOf_snoc, <- IH.
Qed.

(** X3: the fields of an identifier decoded from a payload of complete
    records.  The relays are the values of the records of type 1, decoded,
    in the order of the payload and with their repetitions; for each other
    field the last record of its type wins; [id] is filled for [nevent] and
    [pubkey] for [nprofile] and [naddr]. *)
Theorem decodeTLV_fieldsOf (type : IdType) (records : list (byte * list byte)) :
  Forall (fun r => (List.length (snd r) < 256)%nat) records ->
  Ident.data (decodeTLV type (stream records)) = fieldsOf type records.
Proof.
  intros Hrec. rewrite decodeTLV_stream by exact Hrec. apply apply_records_data.
Qed.

Example decodeTLV_fieldsOf_witness :
  Ident.data (decodeTLV nprofile
                (stream [("001"%byte, ["a"%byte]); ("000"%byte, [xab]);
                         ("001"%byte, ["b"%byte]); ("000"%byte, [xcd])]))
  = fieldsOf nprofile [("001"%byte, ["a"%byte]); ("000"%byte, [xab]);
                       ("001"%byte, ["b"%byte]); ("000"%byte, [xcd])].
Proof.
  apply decodeTLV_fieldsOf.
  repeat (constructor; [simpl; lia|]). constructor.
Defined.

Lemma valuesOfType_filter_known (t : N) (records : list (byte * list byte)) :
  (t <= 4)%N -> valuesOfType t (filter knownType records) = valuesOfType t records.
Proof.
  intros Ht. unfold valuesOfType. f_equal.
  induction records as [|r records IH]; [reflexivity|].
  simpl. unfold knownType at 1.
  destruct (Byte.to_N (fst r) <=? 4)%N eqn:E; simpl.
  - destruct (Byte.to_N (fst r) =? t)%N; now rewrite IH.
  - destruct (Byte.to_N (fst r) =? t)%N eqn:E'; [|exact IH].
    apply N.eqb_eq in E'. apply N.leb_gt in E. lia.
Qed.

(** X4: records of a type above 4 are listed and change no field: taking
    them out of a payload of complete records leaves the fields of the
    decoded identifier as they are, and each one is listed under the name
    [unknown(n)]. *)
Theorem decodeTLV_unknown_types (type : IdType) (records : list (byte * list byte)) :
  Forall (fun r => (List.length (snd r) < 256)%nat) records ->
  Ident.data (decodeTLV type (stream records))
  = Ident.data (decodeTLV type (stream (filter knownType records)))
  /\ Ident.tlv (decodeTLV type (stream records)) = Some (map entryOf records)
  /\ Forall (fun r =>
               knownType r = false ->
               TLV.typeName (entryOf r)
               = lit "unknown(" ++ N_toString (Byte.to_N (fst r)) ++ lit ")") records.
Proof.
  intros Hrec. split; [|split].
  2:{ rewrite decodeTLV_stream by exact Hrec.
      now rewrite (tlv_fold_apply_record records (initial type) []). }
  - assert (Hrec' : Forall (fun r : byte * list byte => (List.length (snd r) < 256)%nat)
                      (filter knownType records)).
    { rewrite Forall_forall in *. intros r Hin. apply filter_In in Hin as [Hin _].
      now apply Hrec. }
    rewrite !decodeTLV_stream, !apply_records_data by assumption.
    unfold fieldsOf, lastValue.
    now rewrite !valuesOfType_filter_known by lia.
  - apply Forall_forall. intros r _. unfold knownType, entryOf, getTLVTypeName. simpl.
    tlv_type_cases (fst r); intros E; try discriminate; reflexivity.
Qed.

Example decodeTLV_unknown_types_witness :
  Ident.data (decodeTLV nevent (stream [("099"%byte, [xab]); ("002"%byte, [xcd])]))
  = Ident.data (decodeTLV nevent
                  (stream (filter knownType [("099"%byte, [xab]); ("002"%byte, [xcd])])))
  /\ Ident.tlv (decodeTLV nevent (stream [("099"%byte, [xab]); ("002"%byte, [xcd])]))
     = Some (map entryOf [("099"%byte, [xab]); ("002"%byte, [xcd])])
  /\ Forall (fun r =>
               knownType r = false ->
               TLV.typeName (entryOf r)
               = lit "unknown(" ++ N_toString (Byte.to_N (fst r)) ++ lit ")")
            [("099"%byte, [xab]); ("002"%byte, [xcd])].
Proof.
  apply decodeTLV_unknown_types.
  repeat (constructor; [simpl; lia|]). constructor.
Defined.

(** ** bytesToNumber, exactly *)

Lemma toInt32_range (z : Z) : (- 2 ^ 31 <= toInt32 z < 2 ^ 31)%Z.
Proof.
  unfold toInt32. pose proof (Z.mod_pos_bound (z + 2 ^ 31) (2 ^ 32)). lia.
Qed.

Lemma toInt32_unique (z y q : Z) :
  (- 2 ^ 31 <= y < 2 ^ 31)%Z -> (z = y + 2 ^ 32 * q)%Z -> toInt32 z = y.
Proof.
  intros Hy Hz. unfold toInt32.
  rewrite <- (Z.mod_unique (z + 2 ^ 31) (2 ^ 32) q (y + 2 ^ 31)); lia.
Qed.

Lemma toInt32_quotient (z : Z) : exists q, (z = toInt32 z + 2 ^ 32 * q)%Z.
Proof.
  exists ((z + 2 ^ 31) / 2 ^ 32)%Z. unfold toInt32.
  pose proof (Z.div_mod (z + 2 ^ 31) (2 ^ 32)). lia.
Qed.

(** One pass of [bytesToNumber] on the wrapped value of [z]. *)
Lemma shl32_step (z : Z) (b : byte) :
  (shl32 (toInt32 z) 8 + byteval b)%Z = toInt32 (z * 256 + byteval b).
Proof.
  unfold shl32. rewrite Z.shiftl_mul_pow2 by lia.
  change (2 ^ 8)%Z with 256%Z.
  destruct (toInt32_quotient z) as [q1 Hq1].
  destruct (toInt32_quotient (toInt32 z)) as [q2 Hq2].
  destruct (toInt32_quotient (toInt32 (toInt32 z) * 256)) as [q3 Hq3].
  pose proof (toInt32_range (toInt32 (toInt32 z) * 256)) as Hr.
  pose proof (byteval_range b) as Hb.
  set (u := toInt32 (toInt32 (toInt32 z) * 256)) in *.
  symmetry.
  apply (toInt32_unique _ _ (q1 * 256 + q2 * 256 + q3)%Z); [|lia].
  (* u is a multiple of 256 *)
  assert (Hk : exists k, u = (256 * k)%Z).
  { exists (toInt32 (toInt32 z) - 2 ^ 24 * q3)%Z. lia. }
  destruct Hk as [k Hk]. lia.
Qed.

(** X5: [bytesToNumber] returns the big-endian value of the bytes wrapped
    to a signed 32-bit integer; so only the last four bytes count. *)
Theorem bytesToNumber_toInt32 (bytes front : list byte) (a b c d : byte) :
  bytesToNumber bytes = toInt32 (bigEndian bytes)
  /\ bytesToNumber (front ++ [a; b; c; d]) = bytesToNumber [a; b; c; d].
Proof.
  assert (H : forall bs, bytesToNumber bs = toInt32 (bigEndian bs)).
  { induction bs as [|x bs IH] using rev_ind; [reflexivity|].
    rewrite bytesToNumber_snoc, bigEndian_snoc, IH. apply shl32_step. }
  split; [apply H|].
  rewrite !H.
  assert (E : bigEndian (front ++ [a; b; c; d])
              = (bigEndian [a; b; c; d] + 2 ^ 32 * bigEndian front)%Z).
  { unfold bigEndian. rewrite fold_left_app. cbn [fold_left]. lia. }
  rewrite E.
  destruct (toInt32_quotient (bigEndian [a; b; c; d])) as [q Hq].
  apply (toInt32_unique _ _ (bigEndian front + q)%Z); [apply toInt32_range | lia].
Qed.

(** ** Hexadecimal text and bytes *)

Lemma hexToBytes_pair (a b : N) (rest : jsstring) :
  hexToBytes (a :: b :: rest) = toUint8 (parseInt16 [a; b]) :: hexToBytes rest.
Proof.
  unfold hexToBytes.
  replace (List.length (a :: b :: rest) / 2)%nat with (S (List.length rest / 2)).
  - rewrite <- cons_seq, <- seq_shift. cbn [map]. rewrite map_map. reflexivity.
  - simpl List.length.
    change (S (S (List.length rest))) with (1 * 2 + List.length rest)%nat.
    now rewrite Nat.div_add_l by lia.
Qed.

Lemma hexToBytes_hex2 (b : byte) : toUint8 (parseInt16 (hex2 b)) = b.
Proof. destruct b; vm_compute; reflexivity. Qed.

Lemma hex2_hexChar (b : byte) : forallb hexChar (hex2 b) = true.
Proof. destruct b; vm_compute; reflexivity. Qed.

Lemma bytesToHex_hexChar (bytes : list byte) : forallb hexChar (bytesToHex bytes) = true.
Proof.
  induction bytes as [|b bytes IH]; [reflexivity|].
  change (bytesToHex (b :: bytes)) with (hex2 b ++ bytesToHex bytes).
  now rewrite forallb_app, hex2_hexChar, IH.
Qed.

(** X6: [hexToBytes] undoes [bytesToHex]: the hexadecimal text of any bytes
    reads back as the same bytes. *)
Theorem hexToBytes_bytesToHex (bytes : list byte) :
  hexToBytes (bytesToHex bytes) = bytes.
Proof.
  induction bytes as [|b bytes IH]; [reflexivity|].
  change (bytesToHex (b :: bytes))
    with (hexDigit (Byte.to_N b / 16) :: hexDigit (Byte.to_N b mod 16) :: bytesToHex bytes).
  rewrite hexToBytes_pair, IH. f_equal. apply hexToBytes_hex2.
Qed.

(** ** The classifier, pattern by pattern *)

Lemma skip_ws_hex (c : N) (s : jsstring) : hexChar c = true -> JSON.skip_ws (c :: s) = c :: s.
Proof.
  intros Hc. simpl. destruct (JSON.isWS c) eqn:E; [|reflexivity].
  unfold JSON.isWS in E. unfold hexChar in Hc.
  repeat (apply orb_true_iff in E as [E|E]); apply N.eqb_eq in E; subst c; discriminate.
Qed.

Lemma stripPrefix_not_hex (p s : jsstring) :
  existsb (fun c => negb (hexChar c)) p = true ->
  forallb hexChar s = true ->
  stripPrefix p s = None.
Proof.
  revert s. induction p as [|x p IH]; intros s Hp Hs; [discriminate|].
  destruct s as [|y s]; [reflexivity|]. simpl.
  simpl in Hs. apply andb_prop in Hs as [Hy Hs].
  destruct (x =? y)%N eqn:E; [|reflexivity].
  apply N.eqb_eq in E. subst y. simpl in Hp. rewrite Hy in Hp. simpl in Hp.
  now apply IH.
Qed.

(** A text of hexadecimal digits is a JSON number or no JSON at all. *)
Lemma jsonStep_hex (t : jsstring) : forallb hexChar t = true -> jsonStep t = Ok None.
Proof.
  intros Ht. unfold jsonStep, JSON.parse.
  destruct (JSON.parse_value (JSON.fuel_for t) t) as [[v r]|] eqn:P; [|reflexivity].
  assert (Hv : isValidEventStructure v = false).
  { change (JSON.parse_value (JSON.fuel_for t) t)
      with (JSON.value_body (JSON.parse_elements (S (2 * List.length t)))
              (JSON.parse_members (S (2 * List.length t))) t) in P.
    unfold JSON.value_body in P.
    destruct t as [|c t]; [discriminate|].
    pose proof Ht as Ht'. cbn [forallb] in Ht'. apply andb_prop in Ht' as [Hc _].
    rewrite skip_ws_hex in P by exact Hc.
    rewrite !stripPrefix_not_hex in P by (reflexivity || exact Ht).
    assert (H1 : (c =? 34)%N = false) by (apply N.eqb_neq; intros ->; discriminate).
    assert (H2 : (c =? 91)%N = false) by (apply N.eqb_neq; intros ->; discriminate).
    assert (H3 : (c =? 123)%N = false) by (apply N.eqb_neq; intros ->; discriminate).
    rewrite H1, H2, H3 in P.
    destruct (JSON.parse_number (c :: t)) as [[n r']|]; [|discriminate].
    injection P as <- _. unfold isValidEventStructure.
    destruct (truthy (JNumber n)); reflexivity. }
  simpl. destruct (JSON.skip_ws r); simpl; [now rewrite Hv | reflexivity].
Qed.

(** The bech32 pattern and the [nostr:] prefix both ask for a first
    character [n]. *)
Lemma matchesBech32_head (c : N) (t : jsstring) :
  matchesBech32 (c :: t) = true -> c = 110%N.
Proof.
  unfold matchesBech32. intros Hm.
  apply existsb_exists in Hm as [hrp [Hin Hm]].
  assert (E : exists p, lit hrp ++ lit "1" = 110%N :: p).
  { simpl in Hin. repeat (destruct Hin as [<-|Hin]; [eexists; reflexivity|]).
    contradiction. }
  destruct E as [p E]. rewrite E in Hm. cbn [stripPrefix] in Hm.
  destruct (110 =? c)%N eqn:Ec; [|discriminate].
  apply N.eqb_eq in Ec. now subst c.
Qed.

Lemma startsWith_nostr_head (c : N) (t : jsstring) :
  startsWith (c :: t) (lit "nostr:") = true -> c = 110%N.
Proof.
  change (lit "nostr:") with (110%N :: lit "ostr:"). cbn [startsWith].
  intros E. apply andb_prop in E as [E _]. apply N.eqb_eq in E. now subst c.
Qed.

(** On 64 hexadecimal digits the first three steps of the classifier find
    nothing and the last one answers. *)
Lemma hexStep_reached `{Bech32} (t : jsstring) :
  matchesHex64 t = true ->
  (jsonStep t or_else bech32Step t or_else uriStep t or_else hexStep t or_else Ok None)
  = Ok (Some (Identifier (Ident.Make note (Ident.set_id (toLowerCase t) Ident.empty) None))).
Proof.
  intros Hm.
  pose proof Hm as Hm'. unfold matchesHex64 in Hm'.
  apply andb_prop in Hm' as [Hlen Hhex]. apply Nat.eqb_eq in Hlen.
  rewrite jsonStep_hex by exact Hhex.
  destruct t as [|c t]; [discriminate|].
  assert (Hc : hexChar c = true).
  { cbn [forallb] in Hhex. now apply andb_prop in Hhex as [Hc _]. }
  assert (Hn : c <> 110%N) by (intros ->; discriminate).
  assert (B : bech32Step (c :: t) = Ok None).
  { unfold bech32Step. destruct (matchesBech32 (c :: t)) eqn:E; [|reflexivity].
    now apply matchesBech32_head in E. }
  assert (U : uriStep (c :: t) = Ok None).
  { unfold uriStep. destruct (startsWith (c :: t) (lit "nostr:")) eqn:E; [|reflexivity].
    now apply startsWith_nostr_head in E. }
  rewrite B, U. unfold hexStep. rewrite Hm. reflexivity.
Qed.

(** X7: an input that is, once trimmed, 64 hexadecimal digits of either
    case is always classified as a [note] whose only field is [id], the
    digits in lowercase, with no TLV entries. *)
Theorem parseInput_hex64 `{Bech32} (input : jsstring) :
  matchesHex64 (trim input) = true ->
  parseInput input
  = Ok (Some (Identifier
               (Ident.Make note (Ident.set_id (toLowerCase (trim input)) Ident.empty) None))).
Proof.
  intros Hm. unfold parseInput. now apply hexStep_reached.
Qed.

Example parseInput_hex64_witness :
  @parseInput Scure.package
     (lit " B9A2E34E404849F4881C68E0F6AF8C3D042E2ED7F1E430706B5C010C49B87E98 ")
  = Ok (Some (Identifier
        (Ident.Make note
           (Ident.set_id
              (lit "b9a2e34e404849f4881c68e0f6af8c3d042e2ed7f1e430706b5c010c49b87e98")
              Ident.empty)
           None))).
Proof.
  apply (@parseInput_hex64 Scure.package
           (lit " B9A2E34E404849F4881C68E0F6AF8C3D042E2ED7F1E430706B5C010C49B87E98 ")).
  vm_compute. reflexivity.
Defined.

Lemma trim_nostr_any (t : jsstring) :
  trim (lit "nostr:" ++ t) = lit "nostr:" ++ trimEnd t.
Proof.
  unfold trim.
  change (trimStart (lit "nostr:" ++ t)) with (lit "nostr:" ++ t).
  unfold trimEnd. rewrite rev_app_distr.
  change (rev (lit "nostr:")) with (0x3A%N :: rev (lit "nostr")).
  rewrite trimStart_app_stop by reflexivity.
  rewrite rev_app_distr. reflexivity.
Qed.

(** X8: an input that starts with [nostr:] is classified by the decoder
    alone, on what follows the prefix with its trailing white space
    removed: the bech32 pattern is not asked of it, and when the decoder
    returns nothing there is no match. *)
Theorem parseInput_nostr_prefix `{Bech32} (rest : jsstring) :
  parseInput (lit "nostr:" ++ rest)
  = match decodeBech32Identifier (trimEnd rest) with
    | Ok (Some d) => Ok (Some (Identifier d))
    | _ => Ok None
    end.
Proof.
  unfold parseInput. rewrite trim_nostr_any.
  assert (J : jsonStep (lit "nostr:" ++ trimEnd rest) = Ok None).
  { unfold jsonStep. now rewrite JSON_parse_nostr. }
  assert (B : bech32Step (lit "nostr:" ++ trimEnd rest) = Ok None).
  { unfold bech32Step. now rewrite matchesBech32_nostr. }
  assert (X : hexStep (lit "nostr:" ++ trimEnd rest) = Ok None).
  { unfold hexStep, matchesHex64.
    change (forallb hexChar (lit "nostr:" ++ trimEnd rest)) with false.
    now rewrite andb_false_r. }
  rewrite J, B, X. unfold uriStep.
  change (startsWith (lit "nostr:" ++ trimEnd rest) (lit "nostr:")) with true.
  change (substring (lit "nostr:" ++ trimEnd rest) 6) with (trimEnd rest).
  cbv iota zeta.
  destruct (decodeBech32Identifier_total (trimEnd rest)) as [[d|] E]; rewrite E; reflexivity.
Qed.

Lemma startsWith_nostr_bech32 (t : jsstring) :
  matchesBech32 t = true -> startsWith t (lit "nostr:") = false.
Proof.
  unfold matchesBech32. intros Hm.
  apply existsb_exists in Hm as [hrp [Hin Hm]].
  destruct (stripPrefix (lit hrp ++ lit "1") t) as [[|c r]|] eqn:E; try discriminate.
  apply stripPrefix_Some in E. subst t.
  simpl in Hin.
  repeat (destruct Hin as [<-|Hin]; [reflexivity|]).
  contradiction.
Qed.

(** X9: an input that, once trimmed, matches the bech32 pattern is
    classified by the decoder alone: it is never read as an event, and when
    the decoder returns nothing no later step takes it. *)
Theorem parseInput_bech32 `{Bech32} (input : jsstring) :
  matchesBech32 (trim input) = true ->
  parseInput input
  = match decodeBech32Identifier (trim input) with
    | Ok (Some d) => Ok (Some (Identifier d))
    | _ => Ok None
    end.
Proof.
  intros Hm. unfold parseInput, jsonStep.
  rewrite (JSON_parse_bech32 _ Hm).
  assert (U : uriStep (trim input) = Ok None).
  { unfold uriStep. now rewrite (startsWith_nostr_bech32 _ Hm). }
  assert (X : hexStep (trim input) = Ok None).
  { unfold hexStep, matchesHex64.
    destruct (trim input) as [|c t]; [discriminate|].
    apply matchesBech32_head in Hm. subst c.
    change (forallb hexChar (110%N :: t)) with false.
    now rewrite andb_false_r. }
  rewrite U, X. unfold bech32Step. rewrite Hm.
  destruct (decodeBech32Identifier_total (trim input)) as [[d|] E]; rewrite E; reflexivity.
Qed.

Example parseInput_bech32_witness :
  @parseInput Scure.package (lit "npub1qqqqqqqq")
  = match @decodeBech32Identifier Scure.package (trim (lit "npub1qqqqqqqq")) with
    | Ok (Some d) => Ok (Some (Identifier d))
    | _ => Ok None
    end.
Proof.
  apply (@parseInput_bech32 Scure.package (lit "npub1qqqqqqqq")).
  vm_compute. reflexivity.
Defined.

Lemma hexChar_not_space (c : N) : hexChar c = true -> isWhiteSpace c = false.
Proof.
  unfold hexChar. intros Hc.
  assert (Hr : (48 <= c <= 102)%N).
  { repeat (apply orb_true_iff in Hc as [Hc|Hc]);
      apply andb_prop in Hc as [H1 H2];
      apply N.leb_le in H1; apply N.leb_le in H2; lia. }
  unfold isWhiteSpace. cbn [existsb].
  repeat match goal with
         | |- context [(c =? ?k)%N] =>
             let E := fresh "E" in
             destruct (c =? k)%N eqn:E; [apply N.eqb_eq in E; lia|]
         end.
  simpl. apply andb_false_iff. left. apply N.leb_gt. lia.
Qed.

Lemma trimStart_hex (s : jsstring) : forallb hexChar s = true -> trimStart s = s.
Proof.
  destruct s as [|c s]; [reflexivity|]. cbn [forallb]. intros Hs.
  apply andb_prop in Hs as [Hc _]. simpl. now rewrite (hexChar_not_space c Hc).
Qed.

Lemma forallb_reverse (A : Type) (f : A -> bool) (l : list A) :
  forallb f (rev l) = forallb f l.
Proof.
  induction l as [|x l IH]; [reflexivity|].
  simpl. rewrite forallb_app, IH. simpl. rewrite andb_true_r. apply andb_comm.
Qed.

Lemma trim_hex (s : jsstring) : forallb hexChar s = true -> trim s = s.
Proof.
  intros Hs. unfold trim, trimEnd. rewrite (trimStart_hex s Hs).
  rewrite trimStart_hex; [apply rev_involutive|].
  now rewrite forallb_reverse.
Qed.

(** X10: the id that the decoder shows for a [note] of 32 bytes is itself
    an input of the classifier, and it is classified as the very
    identifier it came from. *)
Theorem parseInput_note_id `{Bech32} (identifier : jsstring) (words : list N)
    (data : list byte) :
  bech32_decode identifier 1023 = Ok (lit "note", words) ->
  bech32_fromWords words = Ok data ->
  List.length data = 32%nat ->
  exists d,
    decodeBech32Identifier identifier = Ok (Some d)
    /\ Ident.id (Ident.data d) = Some (bytesToHex data)
    /\ parseInput (bytesToHex data) = Ok (Some (Identifier d)).
Proof.
  intros Hdec Hwords Hlen.
  exists (Ident.Make note (Ident.set_id (bytesToHex data) Ident.empty) None).
  split; [|split; [reflexivity|]].
  - unfold decodeBech32Identifier. rewrite Hdec. simpl. rewrite Hwords. reflexivity.
  - assert (Hm : matchesHex64 (trim (bytesToHex data)) = true).
    { rewrite trim_hex by apply bytesToHex_hexChar.
      unfold matchesHex64. rewrite bytesToHex_length, Hlen, bytesToHex_hexChar.
      reflexivity. }
    unfold parseInput. rewrite (hexStep_reached _ Hm).
    rewrite trim_hex by apply bytesToHex_hexChar.
    now rewrite bytesToHex_lowercase.
Qed.

Example parseInput_note_id_witness :
  exists d,
    @decodeBech32Identifier Scure.package (lit "note1qypqxpq9qcrsszg2pvxq6rs0zqg3yyc5z5tpwxqergd3c8g7rusquusy4e") = Ok (Some d)
    /\ Ident.id (Ident.data d)
       = Some (bytesToHex ["001"%byte; "002"%byte; "003"%byte; "004"%byte; "005"%byte; "006"%byte; "007"%byte; "008"%byte; "009"%byte; "010"%byte; "011"%byte; "012"%byte; "013"%byte; "014"%byte; "015"%byte; "016"%byte; "017"%byte; "018"%byte; "019"%byte; "020"%byte; "021"%byte; "022"%byte; "023"%byte; "024"%byte; "025"%byte; "026"%byte; "027"%byte; "028"%byte; "029"%byte; "030"%byte; "031"%byte; "032"%byte])
    /\ @parseInput Scure.package
         (bytesToHex ["001"%byte; "002"%byte; "003"%byte; "004"%byte; "005"%byte; "006"%byte; "007"%byte; "008"%byte; "009"%byte; "010"%byte; "011"%byte; "012"%byte; "013"%byte; "014"%byte; "015"%byte; "016"%byte; "017"%byte; "018"%byte; "019"%byte; "020"%byte; "021"%byte; "022"%byte; "023"%byte; "024"%byte; "025"%byte; "026"%byte; "027"%byte; "028"%byte; "029"%byte; "030"%byte; "031"%byte; "032"%byte])
       = Ok (Some (Identifier d)).
Proof.
  apply (@parseInput_note_id Scure.package
           (lit "note1qypqxpq9qcrsszg2pvxq6rs0zqg3yyc5z5tpwxqergd3c8g7rusquusy4e")
           [0; 4; 1; 0; 6; 1; 0; 5; 0; 24; 3; 16; 16; 2; 8; 10; 1; 12; 6; 0; 26; 3; 16; 15; 2; 0; 8; 17; 4; 4; 24; 20; 2; 20; 11; 1; 14; 6; 0; 25; 3; 8; 13; 17; 24; 7; 8; 30; 3; 28; 16; 0]%N
           ["001"%byte; "002"%byte; "003"%byte; "004"%byte; "005"%byte; "006"%byte; "007"%byte; "008"%byte; "009"%byte; "010"%byte; "011"%byte; "012"%byte; "013"%byte; "014"%byte; "015"%byte; "016"%byte; "017"%byte; "018"%byte; "019"%byte; "020"%byte; "021"%byte; "022"%byte; "023"%byte; "024"%byte; "025"%byte; "026"%byte; "027"%byte; "028"%byte; "029"%byte; "030"%byte; "031"%byte; "032"%byte]).
  - vm_compute. reflexivity.
  - vm_compute. reflexivity.
  - reflexivity.
Defined.

(** ** The report of the validator *)

Lemma sha256_length (data : list byte) : List.length (sha256 data) = 32%nat.
Proof. reflexivity. Qed.

(** X11: [validateEvent] reports a valid event exactly when it reports no
    error; an event reported valid has the computed id for its id; and
    the report never holds more than two errors. *)
Theorem validateEvent_valid_iff `{Schnorr} (event : NostrEvent) :
  (isValid (validateEvent event) = true <-> errors (validateEvent event) = [])
  /\ (isValid (validateEvent event) = true -> NostrEvent.id event = computedId event)
  /\ (List.length (errors (validateEvent event)) <= 2)%nat.
Proof.
  rewrite validateEvent_report. cbv zeta. cbn [isValid errors].
  destruct (streq (computedId event) (NostrEvent.id event)) eqn:E.
  - apply streq_eq in E.
    destruct (verifyAttempt event) as [[|]|m]; simpl;
      (split; [|split]); try lia; try (split; intros; try discriminate; reflexivity);
      intros; congruence.
  - destruct (verifyAttempt event) as [[|]|m]; simpl;
      (split; [|split]); try lia; try (split; intros; discriminate);
      intros; discriminate.
Qed.

(** X12: the computed id is always 64 lowercase hexadecimal digits, so an
    event whose id matches has such an id; that id, given to the classifier
    as an input, is classified as the [note] of the same id. *)
Theorem validateEvent_id_shape `{Schnorr} `{Bech32} (event : NostrEvent) :
  matchesHex64 (computedId event) = true
  /\ toLowerCase (computedId event) = computedId event
  /\ (idMatch (validateEvent event) = true ->
      matchesHex64 (NostrEvent.id event) = true
      /\ toLowerCase (NostrEvent.id event) = NostrEvent.id event
      /\ parseInput (NostrEvent.id event)
         = Ok (Some (Identifier
                      (Ident.Make note (Ident.set_id (NostrEvent.id event) Ident.empty)
                         None)))).
Proof.
  assert (Hm : matchesHex64 (computedId event) = true).
  { unfold matchesHex64, computedId.
    rewrite bytesToHex_length, sha256_length, bytesToHex_hexChar. reflexivity. }
  assert (Hl : toLowerCase (computedId event) = computedId event)
    by apply bytesToHex_lowercase.
  split; [exact Hm|]. split; [exact Hl|].
  rewrite validateEvent_report. cbv zeta. cbn [idMatch].
  intros E. apply streq_eq in E. rewrite <- E.
  split; [exact Hm|]. split; [exact Hl|].
  assert (Ht : trim (computedId event) = computedId event).
  { apply trim_hex. unfold computedId. apply bytesToHex_hexChar. }
  unfold parseInput. rewrite hexStep_reached by (rewrite Ht; exact Hm).
  now rewrite Ht, Hl.
Qed.

Example validateEvent_id_shape_witness :
  matchesHex64 (NostrEvent.id emptyNote) = true
  /\ toLowerCase (NostrEvent.id emptyNote) = NostrEvent.id emptyNote
  /\ @parseInput Scure.package (NostrEvent.id emptyNote)
     = Ok (Some (Identifier
                  (Ident.Make note (Ident.set_id (NostrEvent.id emptyNote) Ident.empty)
                     None))).
Proof.
  apply (proj2 (proj2 (@validateEvent_id_shape acceptAll Scure.package emptyNote))).
  rewrite validateEvent_report. vm_compute. reflexivity.
Defined.

(** X13: the two checks read different parts of the event.  [idMatch] is
    the same for every verifier and every [sig]; [sigValid] is the same
    whatever [created_at], [kind], [tags] and [content] are. *)
Theorem validateEvent_independence (verifier1 verifier2 : Schnorr) (event : NostrEvent)
    (sig' content' : jsstring) (created_at' kind' : number) (tags' : list (list jsstring)) :
  idMatch (@validateEvent verifier1 event)
  = idMatch (@validateEvent verifier2
               (NostrEvent.Make (NostrEvent.id event) (NostrEvent.pubkey event)
                  (NostrEvent.created_at event) (NostrEvent.kind event)
                  (NostrEvent.tags event) (NostrEvent.content event) sig'))
  /\ sigValid (@validateEvent verifier1 event)
     = sigValid (@validateEvent verifier1
                   (NostrEvent.Make (NostrEvent.id event) (NostrEvent.pubkey event)
                      created_at' kind' tags' content' (NostrEvent.sig event))).
Proof.
  rewrite !validateEvent_report. cbv zeta. cbn [idMatch sigValid].
  split; reflexivity.
Qed.

(** ** truncateId and the tag table *)

(** X14: [truncateId] keeps the first and the last [length] characters of
    the id; its result has the length of the id when that is at most twice
    [length], and [2 * length + 3] otherwise, which is more than the id has
    when the id is one or two characters over. *)
Theorem truncateId_ends (id : jsstring) (length : nat) :
  (0 < length)%nat ->
  firstn length (truncateId id length) = firstn length id
  /\ sliceFromEnd (truncateId id length) length = sliceFromEnd id length
  /\ List.length (truncateId id length)
     = (if (List.length id <=? length * 2)%nat then List.length id else 2 * length + 3)%nat
  /\ (List.length (truncateId id length) <= List.length id + 2)%nat.
Proof.
  intros Hn. unfold truncateId.
  destruct (List.length id <=? length * 2)%nat eqn:E.
  - repeat split; lia.
  - apply Nat.leb_gt in E.
    assert (L1 : List.length (firstn length id) = length) by (rewrite length_firstn; lia).
    assert (L2 : List.length (sliceFromEnd id length) = length).
    { unfold sliceFromEnd. destruct length as [|n]; [lia|]. rewrite length_skipn. lia. }
    assert (L : List.length (firstn length id ++ lit "..." ++ sliceFromEnd id length)
                = (2 * length + 3)%nat).
    { rewrite !length_app, L1, L2. simpl. lia. }
    split; [|split; [|split]].
    + rewrite firstn_app, L1, Nat.sub_diag. simpl firstn at 2.
      rewrite app_nil_r. apply firstn_all2. lia.
    + unfold sliceFromEnd at 1. destruct length as [|n]; [lia|].
      rewrite L.
      replace (2 * S n + 3 - S n)%nat
        with (List.length (firstn (S n) id ++ lit "..."))
        by (rewrite length_app, L1; simpl; lia).
      rewrite app_assoc, skipn_app, skipn_all, Nat.sub_diag. reflexivity.
    + exact L.
    + rewrite L. lia.
Qed.

Example truncateId_ends_witness :
  firstn 2 (truncateId (lit "abcdef") 2) = firstn 2 (lit "abcdef")
  /\ sliceFromEnd (truncateId (lit "abcdef") 2) 2 = sliceFromEnd (lit "abcdef") 2
  /\ List.length (truncateId (lit "abcdef") 2)
     = (if (List.length (lit "abcdef") <=? 2 * 2)%nat
        then List.length (lit "abcdef") else 2 * 2 + 3)%nat
  /\ (List.length (truncateId (lit "abcdef") 2) <= List.length (lit "abcdef") + 2)%nat.
Proof. apply (truncateId_ends (lit "abcdef") 2). lia. Defined.

(** X15: a cell of the tag table shows the value itself, unless the value
    is 64 hexadecimal digits: then it shows 15 characters, the first six
    and the last six of the value around three dots. *)
Theorem renderTagValue_text (value : jsstring) :
  match TagTable.renderTagValue value with
  | TagTable.HexId text =>
      matchesHex64 value = true
      /\ text = firstn 6 value ++ lit "..." ++ skipn 58 value
      /\ List.length text = 15%nat
  | TagTable.Link href => href = value /\ matchesHex64 value = false
  | TagTable.Plain text => text = value /\ matchesHex64 value = false
  end.
Proof.
  unfold TagTable.renderTagValue.
  destruct (matchesHex64 value) eqn:E.
  - split; [reflexivity|].
    unfold matchesHex64 in E. apply andb_prop in E as [E _]. apply Nat.eqb_eq in E.
    unfold truncateId, sliceFromEnd. rewrite E. cbn [Nat.leb Nat.mul Nat.add Nat.sub].
    split; [reflexivity|].
    rewrite !length_app, length_firstn, length_skipn, E. reflexivity.
  - destruct (startsWith value (lit "http://") || startsWith value (lit "https://"));
      now split.
Qed.

(** ** formatTimestamp *)

(** X16: for a timestamp that is a valid date, the relative time is
    [Just now] below one minute (so for every timestamp in the future), a
    count of whole minutes from 1 to 59, of whole hours from 1 to 23, of
    whole days from 1 to 6, always with the plural unit, or the date in the
    locale from one week on; the absolute time is the locale's rendering. *)
Theorem formatTimestamp_relative `{Locale} (now timestamp : Z) :
  (Z.abs (timestamp * 1000) <= 8640000000000000)%Z ->
  let diff := (now - timestamp * 1000)%Z in
  let relative := snd (formatTimestamp now timestamp) in
  fst (formatTimestamp now timestamp) = toLocaleString (Some (timestamp * 1000)%Z)
  /\ ((diff < 60000)%Z /\ relative = lit "Just now"
      \/ (exists n, (1 <= n <= 59)%Z /\ (60000 * n <= diff < 60000 * (n + 1))%Z
                    /\ relative = Z_toString n ++ lit " minutes ago")
      \/ (exists n, (1 <= n <= 23)%Z /\ (3600000 * n <= diff < 3600000 * (n + 1))%Z
                    /\ relative = Z_toString n ++ lit " hours ago")
      \/ (exists n, (1 <= n <= 6)%Z /\ (86400000 * n <= diff < 86400000 * (n + 1))%Z
                    /\ relative = Z_toString n ++ lit " days ago")
      \/ (604800000 <= diff)%Z
         /\ relative = toLocaleDateString (Some (timestamp * 1000)%Z)).
Proof.
  intros V diff relative. subst relative. unfold formatTimestamp, timeClip.
  apply Z.leb_le in V. rewrite V. cbn [fst snd]. fold diff.
  split; [reflexivity|].
  destruct (diff <? 60000)%Z eqn:E1; [left; split; [lia|reflexivity]|].
  right. apply Z.ltb_ge in E1.
  destruct (diff <? 3600000)%Z eqn:E2.
  { left. apply Z.ltb_lt in E2. exists (diff / 60000)%Z.
    pose proof (Z.mul_div_le diff 60000 ltac:(lia)).
    pose proof (Z.mul_succ_div_gt diff 60000 ltac:(lia)).
    assert (1 <= diff / 60000)%Z by (apply Z.div_le_lower_bound; lia).
    assert (diff / 60000 < 60)%Z by (apply Z.div_lt_upper_bound; lia).
    repeat split; lia. }
  right. apply Z.ltb_ge in E2.
  destruct (diff <? 86400000)%Z eqn:E3.
  { left. apply Z.ltb_lt in E3. exists (diff / 3600000)%Z.
    pose proof (Z.mul_div_le diff 3600000 ltac:(lia)).
    pose proof (Z.mul_succ_div_gt diff 3600000 ltac:(lia)).
    assert (1 <= diff / 3600000)%Z by (apply Z.div_le_lower_bound; lia).
    assert (diff / 3600000 < 24)%Z by (apply Z.div_lt_upper_bound; lia).
    repeat split; lia. }
  right. apply Z.ltb_ge in E3.
  destruct (diff <? 604800000)%Z eqn:E4.
  { left. apply Z.ltb_lt in E4. exists (diff / 86400000)%Z.
    pose proof (Z.mul_div_le diff 86400000 ltac:(lia)).
    pose proof (Z.mul_succ_div_gt diff 86400000 ltac:(lia)).
    assert (1 <= diff / 86400000)%Z by (apply Z.div_le_lower_bound; lia).
    assert (diff / 86400000 < 7)%Z by (apply Z.div_lt_upper_bound; lia).
    repeat split; lia. }
  right. apply Z.ltb_ge in E4. split; [lia|reflexivity].
Qed.

Example formatTimestamp_relative_witness :
  let diff := (1700000090000 - 1700000000 * 1000)%Z in
  let relative := snd (@formatTimestamp fixedLocale 1700000090000 1700000000) in
  fst (@formatTimestamp fixedLocale 1700000090000 1700000000)
  = @toLocaleString fixedLocale (Some (1700000000 * 1000)%Z)
  /\ ((diff < 60000)%Z /\ relative = lit "Just now"
      \/ (exists n, (1 <= n <= 59)%Z /\ (60000 * n <= diff < 60000 * (n + 1))%Z
                    /\ relative = Z_toString n ++ lit " minutes ago")
      \/ (exists n, (1 <= n <= 23)%Z /\ (3600000 * n <= diff < 3600000 * (n + 1))%Z
                    /\ relative = Z_toString n ++ lit " hours ago")
      \/ (exists n, (1 <= n <= 6)%Z /\ (86400000 * n <= diff < 86400000 * (n + 1))%Z
                    /\ relative = Z_toString n ++ lit " days ago")
      \/ (604800000 <= diff)%Z
         /\ relative = @toLocaleDateString fixedLocale (Some (1700000000 * 1000)%Z)).
Proof.
  apply (@formatTimestamp_relative fixedLocale 1700000090000 1700000000).
  vm_compute. discriminate.
Defined.

(** ** The tags of an article *)

Lemma named_cons (tagName : jsstring) (t : list jsstring) :
  NIP23.named tagName t = true <-> exists rest, t = tagName :: rest.
Proof.
  destruct t as [|x rest]; simpl.
  - split; [discriminate | intros [r E]; discriminate].
  - rewrite streq_eq. split.
    + intros ->. now exists rest.
    + intros [r E]. now inversion E.
Qed.

(** X17: [getTagValue] gives the value of the first tag of that name, which
    is the first of [getAllTagValues], and [null] exactly when there is
    none; the values of [getAllTagValues] are the second elements of the
    tags of that name and of no other; the title of an article is never
    empty, and is a [title] tag's value or the default. *)
Theorem getTagValue_first (tags : list (list jsstring)) (tagName : jsstring) :
  NIP23.getTagValue tags tagName = hd_error (NIP23.getAllTagValues tags tagName)
  /\ (NIP23.getTagValue tags tagName = None <->
      forall rest, In (tagName :: rest) tags -> False)
  /\ (forall v, In v (NIP23.getAllTagValues tags tagName) <->
                exists rest, In (tagName :: rest) tags /\ v = hd_error rest)
  /\ (0 < List.length (NIP23.title tags))%nat
  /\ (NIP23.title tags = lit "Untitled Article"
      \/ In (Some (NIP23.title tags)) (NIP23.getAllTagValues tags (lit "title"))).
Proof.
  assert (A : forall n v, In v (NIP23.getAllTagValues tags n) <->
                          exists rest, In (n :: rest) tags /\ v = hd_error rest).
  { intros n v. unfold NIP23.getAllTagValues. rewrite in_map_iff. split.
    - intros [t [E I]]. apply filter_In in I as [I N].
      apply named_cons in N as [rest ->]. exists rest. split; [exact I|].
      subst v. now destruct rest.
    - intros [rest [I ->]]. exists (n :: rest).
      split; [now destruct rest|]. apply filter_In. split; [exact I|].
      apply named_cons. now exists rest. }
  assert (B : forall n, NIP23.getTagValue tags n = hd_error (NIP23.getAllTagValues tags n)).
  { intros n. unfold NIP23.getTagValue, NIP23.getAllTagValues.
    clear A. induction tags as [|t ts IH]; [reflexivity|]. simpl.
    destruct (NIP23.named n t); [reflexivity | exact IH]. }
  split; [apply B|]. split; [|split; [apply A|]].
  - rewrite B. split.
    + intros E rest I.
      assert (I' : In (hd_error rest) (NIP23.getAllTagValues tags tagName))
        by (apply A; eauto).
      destruct (NIP23.getAllTagValues tags tagName); [exact I' | discriminate].
    + intros N. destruct (NIP23.getAllTagValues tags tagName) as [|v vs] eqn:E;
        [reflexivity|].
      assert (I : In v (NIP23.getAllTagValues tags tagName)) by (rewrite E; now left).
      apply A in I as [rest [I _]]. destruct (N rest I).
  - unfold NIP23.title. rewrite B.
    destruct (NIP23.getAllTagValues tags (lit "title")) as [|[[|c s]|] vs];
      simpl; (split; [lia|]); auto.
Qed.

(** ** The submission of an input *)

Lemma parseInput_returns `{Bech32} (input : jsstring) :
  exists r, parseInput input = Ok r.
Proof.
  unfold parseInput.
  apply or_next_total.
  { destruct (jsonStep_cases (trim input)) as [E|[v [_ [_ E]]]]; rewrite E; eauto. }
  apply or_next_total; [apply bech32Step_total|].
  apply or_next_total; [apply uriStep_total|].
  apply or_next_total; [apply hexStep_total|]. eauto.
Qed.

Lemma parseInput_blank `{Bech32} (input : jsstring) :
  trim input = [] -> parseInput input = Ok None.
Proof. intros E. unfold parseInput. rewrite E. reflexivity. Qed.

(** X18: submitting an input shows the result of [parseInput] when there is
    one, in the inspector for an event and in the decoder for an
    identifier, with no error message and the loading flag down; otherwise
    the view and the result stay as they were and the message is the one
    for a blank input or the one for an input that could not be parsed.
    The blank check rejects nothing that [parseInput] accepts, and the
    message for an exception is never shown. *)
Theorem handleSubmit_outcome `{Bech32} (input : jsstring) (st : Homepage.state) :
  let st' := Homepage.handleSubmit input st in
  match parseInput input with
  | Ok (Some result) =>
      st' = Homepage.State
              (match result with
               | Event _ => Homepage.inspect
               | Identifier _ => Homepage.decode
               end)
              (Some result) [] false
  | _ =>
      Homepage.currentView st' = Homepage.currentView st
      /\ Homepage.parsedResult st' = Homepage.parsedResult st
      /\ Homepage.error st'
         = (if Nat.eqb (List.length (trim input)) 0
            then lit "Please enter some data to decode"
            else lit "Unable to parse input. Please check the format and try again.")
      /\ Homepage.isLoading st'
         = (if Nat.eqb (List.length (trim input)) 0 then Homepage.isLoading st else false)
  end
  /\ streq (Homepage.error st') (lit "An error occurred while parsing the input.") = false.
Proof.
  intros st'. subst st'. unfold Homepage.handleSubmit.
  destruct (trim input) as [|c t] eqn:T.
  - rewrite (parseInput_blank input T). simpl. repeat split.
  - destruct (parseInput_returns input) as [[result|] E]; rewrite E.
    + destruct result; simpl; split; reflexivity.
    + simpl. repeat split.
Qed.

(** ** The serialization that is hashed *)

Lemma lit_inj (a b : string) : lit a = lit b -> a = b.
Proof.
  unfold lit. intros E.
  rewrite <- (string_of_list_ascii_of_string a), <- (string_of_list_ascii_of_string b).
  f_equal. revert E. generalize (list_ascii_of_string a) (list_ascii_of_string b).
  induction l as [|x l IH]; intros [|y l']; simpl; try discriminate; auto.
  intros E. injection E as E1 E2. f_equal; [|auto].
  rewrite <- (ascii_N_embedding x), <- (ascii_N_embedding y). now rewrite E1.
Qed.

Lemma Z_toString_inj (a b : Z) : Z_toString a = Z_toString b -> a = b.
Proof.
  assert (D : forall z,
             option_map Z.of_int (NilZero.int_of_string (NilZero.string_of_int (Z.to_int z)))
             = Some z).
  { intros z. pose proof (DecimalZ.of_to z) as O.
    assert (C : Z.to_int z = Decimal.Pos Decimal.Nil \/ Z.to_int z = Decimal.Neg Decimal.Nil
                \/ (Z.to_int z <> Decimal.Pos Decimal.Nil
                    /\ Z.to_int z <> Decimal.Neg Decimal.Nil)).
    { destruct (Z.to_int z) as [[]|[]]; auto; right; right; split; discriminate. }
    destruct C as [C|[C|[C1 C2]]].
    - rewrite C, NilZero.isi_posnil. rewrite C in O. simpl in *. now f_equal.
    - rewrite C, NilZero.isi_negnil. rewrite C in O. simpl in *. now f_equal.
    - rewrite NilZero.isi by assumption. simpl. now f_equal. }
  unfold Z_toString. intros E. apply lit_inj in E.
  pose proof (D a) as Da. rewrite E, D in Da. now injection Da.
Qed.

Lemma string_of_uint_digits (d : Decimal.uint) :
  Forall (fun c => (0x2D <= c <= 0x39)%N) (lit (NilEmpty.string_of_uint d)).
Proof.
  induction d; simpl; constructor; try assumption;
    split; apply N.leb_le; reflexivity.
Qed.

(** A number is printed with digits and a minus sign only. *)
Lemma Z_toString_digits (z : Z) : Forall (fun c => (0x2D <= c <= 0x39)%N) (Z_toString z).
Proof.
  unfold Z_toString.
  assert (U : forall d, Forall (fun c => (0x2D <= c <= 0x39)%N)
                               (lit (NilZero.string_of_uint d))).
  { intros d. destruct d; try apply string_of_uint_digits.
    simpl. constructor; [split; apply N.leb_le; reflexivity | constructor]. }
  destruct (Z.to_int z) as [d|d]; simpl.
  - apply U.
  - constructor; [split; apply N.leb_le; reflexivity | apply U].
Qed.

Lemma Z_toString_no_comma (z : Z) : Forall (fun c => c <> 0x2C%N) (Z_toString z).
Proof.
  eapply Forall_impl; [|apply Z_toString_digits]. simpl. intros c Hc. lia.
Qed.

Lemma split_at_separator (sep : N) (a b x y : jsstring) :
  Forall (fun c => c <> sep) a -> Forall (fun c => c <> sep) b ->
  a ++ sep :: x = b ++ sep :: y -> a = b /\ x = y.
Proof.
  intros Fa. revert b. induction Fa as [|c a Hc Fa IH]; intros b Fb E.
  - destruct Fb as [|d b Hd Fb]; simpl in E.
    + injection E as E. now split.
    + injection E as E _. now destruct Hd.
  - destruct Fb as [|d b Hd Fb]; simpl in E.
    + injection E as E _. now destruct Hc.
    + injection E as E1 E2. destruct (IH b Fb E2) as [-> ->]. now subst.
Qed.

Lemma hexValue_hexDigit (n : N) : (n < 16)%N -> JSON.hexValue (hexDigit n) = Some n.
Proof.
  intros Hn. unfold hexDigit, JSON.hexValue, JSON.isDigit.
  destruct (n <? 10)%N eqn:E.
  - apply N.ltb_lt in E.
    replace ((0x30 <=? 0x30 + n) && (0x30 + n <=? 0x39))%N with true
      by (symmetry; apply andb_true_intro; split; apply N.leb_le; lia).
    f_equal. lia.
  - apply N.ltb_ge in E.
    replace ((0x30 <=? 0x57 + n) && (0x57 + n <=? 0x39))%N with false
      by (symmetry; apply andb_false_intro2; apply N.leb_gt; lia).
    replace ((0x61 <=? 0x57 + n) && (0x57 + n <=? 0x66))%N with true
      by (symmetry; apply andb_true_intro; split; apply N.leb_le; lia).
    f_equal. lia.
Qed.

Lemma parse_string_unit (c : N) (x : jsstring) :
  (0x20 <= c)%N -> c <> 0x22%N -> c <> 0x5C%N ->
  JSON.parse_string (c :: x) = JSON.cons_unit c (JSON.parse_string x).
Proof.
  intros H1 H2 H3. cbn [JSON.parse_string].
  apply N.eqb_neq in H2, H3. rewrite H2, H3.
  replace (c <? 0x20)%N with false by (symmetry; apply N.ltb_ge; exact H1).
  reflexivity.
Qed.

Lemma parse_string_unicodeEscape (c : N) (x : jsstring) :
  (c < 65536)%N ->
  JSON.parse_string (Stringify.unicodeEscape c ++ x)
  = JSON.cons_unit c (JSON.parse_string x).
Proof.
  intros Hc. unfold Stringify.unicodeEscape.
  change (JSON.parse_string
            ((lit "\u" ++ [hexDigit (c / 4096); hexDigit (c / 256 mod 16);
                           hexDigit (c / 16 mod 16); hexDigit (c mod 16)]) ++ x))
    with (match JSON.hexValue (hexDigit (c / 4096)),
                JSON.hexValue (hexDigit (c / 256 mod 16)),
                JSON.hexValue (hexDigit (c / 16 mod 16)),
                JSON.hexValue (hexDigit (c mod 16)) with
          | Some a', Some b', Some c'', Some d' =>
              JSON.cons_unit (((a' * 16 + b') * 16 + c'') * 16 + d')%N (JSON.parse_string x)
          | _, _, _, _ => None
          end).
  rewrite !hexValue_hexDigit
    by (try (apply N.mod_lt; discriminate); apply N.Div0.div_lt_upper_bound; lia).
  f_equal.
  pose proof (N.div_mod c 16 ltac:(discriminate)).
  pose proof (N.div_mod (c / 16) 16 ltac:(discriminate)).
  pose proof (N.div_mod (c / 16 / 16) 16 ltac:(discriminate)).
  rewrite !N.Div0.div_div in *. change (16 * 16)%N with 256%N in *.
  change (256 * 16)%N with 4096%N in *.
  assert (c / 4096 < 16)%N by (apply N.Div0.div_lt_upper_bound; lia).
  lia.
Qed.

Lemma parse_string_escapeUnit (c : N) (x : jsstring) :
  JSON.parse_string (Stringify.escapeUnit c ++ x)
  = JSON.cons_unit c (JSON.parse_string x).
Proof.
  unfold Stringify.escapeUnit.
  destruct (c =? 0x08)%N eqn:E1; [apply N.eqb_eq in E1; now subst|].
  destruct (c =? 0x09)%N eqn:E2; [apply N.eqb_eq in E2; now subst|].
  destruct (c =? 0x0A)%N eqn:E3; [apply N.eqb_eq in E3; now subst|].
  destruct (c =? 0x0C)%N eqn:E4; [apply N.eqb_eq in E4; now subst|].
  destruct (c =? 0x0D)%N eqn:E5; [apply N.eqb_eq in E5; now subst|].
  destruct (c =? 0x22)%N eqn:E6; [apply N.eqb_eq in E6; now subst|].
  destruct (c =? 0x5C)%N eqn:E7; [apply N.eqb_eq in E7; now subst|].
  destruct (c <? 0x20)%N eqn:E8.
  - apply N.ltb_lt in E8. apply parse_string_unicodeEscape. lia.
  - apply N.ltb_ge in E8. apply N.eqb_neq in E6, E7.
    now apply parse_string_unit.
Qed.

Lemma surrogate_range (c : N) :
  Stringify.isHighSurrogate c || Stringify.isLowSurrogate c = true ->
  (0xD800 <= c < 65536)%N.
Proof.
  unfold Stringify.isHighSurrogate, Stringify.isLowSurrogate. intros E.
  apply orb_prop in E as [E|E]; apply andb_prop in E as [E1 E2];
    apply N.leb_le in E1, E2; lia.
Qed.

(** [JSON.parse] reads a string that [JSON.stringify] wrote back as it
    was, whatever follows the closing quote. *)
Lemma parse_string_quoteBody (s r : jsstring) :
  JSON.parse_string (Stringify.quoteBody s ++ 0x22%N :: r) = Some (s, r).
Proof.
  enough (G : (forall r, JSON.parse_string (Stringify.quoteBody s ++ 0x22%N :: r)
                         = Some (s, r))
              /\ forall c r, JSON.parse_string (Stringify.quoteBody (c :: s) ++ 0x22%N :: r)
                             = Some (c :: s, r)) by apply G.
  clear r. induction s as [|d s [IH1 IH2]].
  - split; [reflexivity|]. intros c r. cbn [Stringify.quoteBody].
    destruct (Stringify.isHighSurrogate c) eqn:Hh.
    { rewrite parse_string_unicodeEscape; [reflexivity|].
      apply surrogate_range. now rewrite Hh. }
    destruct (Stringify.isLowSurrogate c) eqn:Hl.
    { rewrite <- app_assoc, parse_string_unicodeEscape; [reflexivity|].
      apply surrogate_range. rewrite Hl. apply orb_true_r. }
    rewrite <- app_assoc, parse_string_escapeUnit. reflexivity.
  - split; [apply IH2|]. intros c r.
    change (Stringify.quoteBody (c :: d :: s))
      with (if Stringify.isHighSurrogate c then
              if Stringify.isLowSurrogate d then c :: d :: Stringify.quoteBody s
              else Stringify.unicodeEscape c ++ Stringify.quoteBody (d :: s)
            else if Stringify.isLowSurrogate c
                 then Stringify.unicodeEscape c ++ Stringify.quoteBody (d :: s)
                 else Stringify.escapeUnit c ++ Stringify.quoteBody (d :: s)).
    destruct (Stringify.isHighSurrogate c) eqn:Hh.
    { destruct (Stringify.isLowSurrogate d) eqn:Hd.
      - pose proof (surrogate_range c ltac:(now rewrite Hh)).
        pose proof (surrogate_range d ltac:(rewrite Hd; apply orb_true_r)).
        cbn [app]. rewrite !parse_string_unit by lia. now rewrite IH1.
      - rewrite <- app_assoc, parse_string_unicodeEscape, IH2; [reflexivity|].
        apply surrogate_range. now rewrite Hh. }
    destruct (Stringify.isLowSurrogate c) eqn:Hl.
    { rewrite <- app_assoc, parse_string_unicodeEscape, IH2; [reflexivity|].
      apply surrogate_range. rewrite Hl. apply orb_true_r. }
    rewrite <- app_assoc, parse_string_escapeUnit, IH2. reflexivity.
Qed.

Lemma quote_inj (s s' r r' : jsstring) :
  Stringify.quote s ++ r = Stringify.quote s' ++ r' -> s = s' /\ r = r'.
Proof.
  unfold Stringify.quote. rewrite <- !app_assoc. cbn [app]. intros E.
  injection E as E. apply (f_equal JSON.parse_string) in E.
  rewrite !parse_string_quoteBody in E. injection E as -> ->. now split.
Qed.

Section Arrays.

Variable A : Type.
Variable enc : A -> jsstring.
Hypothesis enc_inj :
  forall a a' r r', enc a ++ r = enc a' ++ r' -> a = a' /\ r = r'.
Hypothesis enc_head :
  forall a, exists c t, enc a = c :: t /\ c <> 0x5D%N.

Lemma join_cons (sep p : jsstring) (ps : list jsstring) :
  Stringify.join sep (p :: ps) = p ++ flat_map (fun q => sep ++ q) ps.
Proof.
  revert p. induction ps as [|q ps IH]; intros p.
  - simpl. now rewrite app_nil_r.
  - change (Stringify.join sep (p :: q :: ps)) with (p ++ sep ++ Stringify.join sep (q :: ps)).
    rewrite IH. simpl. now rewrite <- app_assoc.
Qed.

Lemma array_tail_inj (l l' : list A) (r r' : jsstring) :
  flat_map (fun q => lit "," ++ q) (map enc l) ++ 0x5D%N :: r
  = flat_map (fun q => lit "," ++ q) (map enc l') ++ 0x5D%N :: r' ->
  l = l' /\ r = r'.
Proof.
  revert l'. induction l as [|a l IH]; intros [|a' l'] E; simpl in E.
  - injection E as E. now split.
  - discriminate.
  - discriminate.
  - injection E as E. rewrite <- !app_assoc in E.
    apply enc_inj in E as [-> E]. apply IH in E as [-> ->]. now split.
Qed.

Lemma array_inj (l l' : list A) (r r' : jsstring) :
  Stringify.array (map enc l) ++ r = Stringify.array (map enc l') ++ r' ->
  l = l' /\ r = r'.
Proof.
  unfold Stringify.array. rewrite <- !app_assoc. cbn [lit app map list_ascii_of_string].
  intros E. injection E as E.
  destruct l as [|a l], l' as [|a' l'].
  - simpl in E. injection E as E. now split.
  - exfalso. cbn [map] in E. rewrite join_cons in E.
    destruct (enc_head a') as [c [t [Ea Hc]]]. rewrite Ea in E. simpl in E.
    injection E as E _. now destruct Hc.
  - exfalso. cbn [map] in E. rewrite join_cons in E.
    destruct (enc_head a) as [c [t [Ea Hc]]]. rewrite Ea in E. simpl in E.
    injection E as E _. now destruct Hc.
  - cbn [map] in E. rewrite !join_cons, <- !app_assoc in E.
    apply enc_inj in E as [-> E].
    apply array_tail_inj in E as [-> ->]. now split.
Qed.

End Arrays.

Lemma quote_head (s : jsstring) : exists c t, Stringify.quote s = c :: t /\ c <> 0x5D%N.
Proof. exists 0x22%N, (Stringify.quoteBody s ++ [0x22%N]). split; [reflexivity | discriminate]. Qed.

Lemma tag_inj (t t' : list jsstring) (r r' : jsstring) :
  Stringify.array (map Stringify.quote t) ++ r = Stringify.array (map Stringify.quote t') ++ r' ->
  t = t' /\ r = r'.
Proof. apply array_inj; [apply quote_inj | apply quote_head]. Qed.

Lemma tag_head (t : list jsstring) :
  exists c x, Stringify.array (map Stringify.quote t) = c :: x /\ c <> 0x5D%N.
Proof.
  exists 0x5B%N, (Stringify.join (lit ",") (map Stringify.quote t) ++ lit "]").
  split; [reflexivity | discriminate].
Qed.


(** ** The text of an integer *)

Lemma compareScaled_integers (s p a q : Z) :
  (0 <= p)%Z -> (0 <= q)%Z ->
  Number.compareScaled s p a (- q) = (s * 10 ^ p * 2 ^ q ?= a)%Z.
Proof.
  intros Hp Hq. unfold Number.compareScaled.
  rewrite (Z.max_l p 0), (Z.max_r (- p) 0), (Z.max_r (- q) 0) by lia.
  replace (Z.max (- - q) 0) with q by lia.
  rewrite !Z.pow_0_r, !Z.mul_1_r. reflexivity.
Qed.

(** Among the integers, an integer below 2^53 alone is read as itself. *)
Lemma readsAs_integer (z sh s p : Z) :
  (0 < z)%Z -> (0 <= sh)%Z -> (0 <= p)%Z ->
  Number.readsAs (z * 2 ^ sh) (- sh) s p = (s * 10 ^ p =? z)%Z.
Proof.
  intros Hz Hsh Hp. unfold Number.readsAs.
  replace (- sh - 2)%Z with (- (sh + 2))%Z by lia.
  rewrite !compareScaled_integers by lia.
  set (c := (s * 10 ^ p)%Z).
  assert (HP : (2 ^ (sh + 2) = 4 * 2 ^ sh)%Z).
  { rewrite Z.pow_add_r by lia. change (2 ^ 2)%Z with 4%Z. lia. }
  rewrite HP.
  assert (H2 : (0 < 2 ^ sh)%Z) by (apply Z.pow_pos_nonneg; lia).
  set (below := if ((z * 2 ^ sh =? 2 ^ 52) && (-1074 <? - sh))%Z then 1%Z else 2%Z).
  assert (Hb : (1 <= below <= 2)%Z).
  { unfold below. destruct ((z * 2 ^ sh =? 2 ^ 52) && (-1074 <? - sh))%Z; lia. }
  destruct (Z.eqb_spec c z) as [E|E].
  - rewrite E.
    replace (z * (4 * 2 ^ sh) ?= 4 * (z * 2 ^ sh) - below)%Z with Gt
      by (symmetry; apply Z.compare_gt_iff; lia).
    replace (z * (4 * 2 ^ sh) ?= 4 * (z * 2 ^ sh) + 2)%Z with Lt
      by (symmetry; apply Z.compare_lt_iff; lia).
    reflexivity.
  - destruct (Z.lt_ge_cases c z) as [L|G].
    + replace (c * (4 * 2 ^ sh) ?= 4 * (z * 2 ^ sh) - below)%Z with Lt
        by (symmetry; apply Z.compare_lt_iff; nia).
      reflexivity.
    + replace (c * (4 * 2 ^ sh) ?= 4 * (z * 2 ^ sh) + 2)%Z with Gt
        by (symmetry; apply Z.compare_gt_iff; nia).
      now destruct (c * (4 * 2 ^ sh) ?= 4 * (z * 2 ^ sh) - below)%Z.
Qed.

Lemma estimate_covers (L : Z) :
  (0 <= L <= 52)%Z -> (2 ^ (L + 1) <= 10 ^ (L * 30103 / 100000 + 2))%Z.
Proof.
  intros HL. replace L with (Z.of_nat (Z.to_nat L)) by lia.
  assert (Hn : (Z.to_nat L < 53)%nat) by lia.
  revert Hn. generalize (Z.to_nat L). intros n Hn.
  do 53 (destruct n as [|n]; [vm_compute; discriminate|]). lia.
Qed.

Lemma normalize_integer (z : Z) :
  (0 < z < 2 ^ 53)%Z ->
  Number.normalize z 0 = (z * 2 ^ (52 - Z.log2 z), - (52 - Z.log2 z))%Z
  /\ (0 <= Z.log2 z <= 52)%Z.
Proof.
  intros Hz.
  assert (HL : (0 <= Z.log2 z <= 52)%Z).
  { split; [apply Z.log2_nonneg|].
    assert (Z.log2 z < 53)%Z by (apply Z.log2_lt_pow2; lia). lia. }
  split; [|exact HL]. unfold Number.normalize.
  rewrite Z.min_l by lia. rewrite Z.shiftl_mul_pow2 by lia. f_equal.
Qed.

(** The decimal exponent of an integer below 2^53 is from 1 to 17 and the
    integer is below that power of ten. *)
Lemma decimalExponent_integer (z : Z) :
  (0 < z < 2 ^ 53)%Z ->
  let D := Number.decimalExponent (z * 2 ^ (52 - Z.log2 z)) (- (52 - Z.log2 z)) in
  (1 <= D <= 17)%Z /\ (z < 10 ^ D)%Z.
Proof.
  intros Hz D. subst D.
  destruct (normalize_integer z Hz) as [_ HL].
  set (sh := (52 - Z.log2 z)%Z). assert (Hsh : (0 <= sh)%Z) by (unfold sh; lia).
  assert (H2 : (0 < 2 ^ sh)%Z) by (apply Z.pow_pos_nonneg; lia).
  unfold Number.decimalExponent.
  rewrite Z.log2_mul_pow2 by lia.
  replace (sh + Z.log2 z + - sh)%Z with (Z.log2 z) by lia.
  set (est := (Z.log2 z * 30103 / 100000)%Z).
  assert (Hest : (0 <= est <= 15)%Z).
  { unfold est. split.
    - apply Z.div_pos; lia.
    - assert (Z.log2 z * 30103 / 100000 < 16)%Z by (apply Z.div_lt_upper_bound; lia).
      lia. }
  set (above := fun n : Z =>
                  match Number.compareScaled 1 n (z * 2 ^ sh) (- sh) with
                  | Gt => true
                  | _ => false
                  end).
  assert (A : forall n, above n = true -> (1 <= n)%Z /\ (z < 10 ^ n)%Z).
  { intros n. unfold above, Number.compareScaled.
    replace (Z.max (- - sh) 0) with sh by lia. rewrite (Z.max_r (- sh) 0) by lia.
    rewrite Z.pow_0_r, Z.mul_1_r.
    destruct (Z.lt_ge_cases n 1) as [Hn|Hn].
    - rewrite (Z.max_r n 0), (Z.max_l (- n) 0) by lia.
      assert (1 <= 10 ^ (- n))%Z
        by (change 1%Z with (10 ^ 0)%Z; apply Z.pow_le_mono_r; lia).
      destruct (1 * 10 ^ 0 * 2 ^ sh ?= z * 2 ^ sh * 10 ^ (- n))%Z eqn:C; try discriminate.
      apply Z.compare_gt_iff in C. rewrite Z.pow_0_r in C.
      assert (2 ^ sh <= z * 2 ^ sh)%Z by nia.
      assert (z * 2 ^ sh <= z * 2 ^ sh * 10 ^ (- n))%Z by nia.
      lia.
    - rewrite (Z.max_l n 0), (Z.max_r (- n) 0) by lia.
      rewrite Z.pow_0_r, Z.mul_1_r.
      destruct (1 * 10 ^ n * 2 ^ sh ?= z * 2 ^ sh)%Z eqn:C; try discriminate.
      apply Z.compare_gt_iff in C. intros _. split; [lia | nia]. }
  destruct (find above [est - 1; est; est + 1; est + 2]%Z) as [n|] eqn:F.
  - apply find_some in F as [I An]. destruct (A n An) as [H1 Hlt].
    split; [|exact Hlt]. split; [exact H1|].
    simpl in I. lia.
  - exfalso.
    assert (N : above (est + 2)%Z = false).
    { apply (find_none _ _ F). simpl. auto. }
    unfold above, Number.compareScaled in N.
    replace (Z.max (- - sh) 0) with sh in N by lia.
    rewrite (Z.max_r (- sh) 0), (Z.max_l (est + 2) 0), (Z.max_r (- (est + 2)) 0) in N by lia.
    rewrite !Z.pow_0_r, !Z.mul_1_r in N.
    assert (C : (1 * 10 ^ (est + 2) * 2 ^ sh <= z * 2 ^ sh)%Z).
    { apply Z.compare_ngt_iff. intros G. apply Z.compare_gt_iff in G.
      fold (Z.gt (1 * 10 ^ (est + 2) * 2 ^ sh) (z * 2 ^ sh)) in G.
      unfold Z.gt in G. now rewrite G in N. }
    pose proof (estimate_covers (Z.log2 z) HL) as Cov. fold est in Cov.
    assert (z < 2 ^ (Z.log2 z + 1))%Z.
    { pose proof (Z.log2_spec z ltac:(lia)) as S. rewrite <- Z.add_1_r in S. lia. }
    nia.
Qed.

Lemma digitsOfLength_integer (z sh D k : Z) :
  (0 < z)%Z -> (0 <= sh)%Z -> (1 <= k <= D)%Z -> (z < 10 ^ D)%Z ->
  Number.digitsOfLength (z * 2 ^ sh) (- sh) D k
  = if (z mod 10 ^ (D - k) =? 0)%Z then Some (z / 10 ^ (D - k), D, k)%Z else None.
Proof.
  intros Hz Hsh Hk HD. unfold Number.digitsOfLength. cbv zeta.
  set (p := (D - k)%Z). assert (Hp : (0 <= p)%Z) by (unfold p; lia).
  rewrite (Z.max_r (- sh) 0), (Z.max_r (- p) 0), (Z.max_l p 0) by lia.
  replace (Z.max (- - sh) 0) with sh by lia.
  rewrite !Z.pow_0_r, !Z.mul_1_r.
  assert (H2 : (0 < 2 ^ sh)%Z) by (apply Z.pow_pos_nonneg; lia).
  assert (HT : (0 < 10 ^ p)%Z) by (apply Z.pow_pos_nonneg; lia).
  replace (z * 2 ^ sh / (2 ^ sh * 10 ^ p))%Z with (z / 10 ^ p)%Z
    by (rewrite (Z.mul_comm z), Z.div_mul_cancel_l by lia; reflexivity).
  rewrite !readsAs_integer by lia.
  set (q := (z / 10 ^ p)%Z).
  pose proof (Z.mul_div_le z (10 ^ p) HT) as Lo. fold q in Lo.
  pose proof (Z.mul_succ_div_gt z (10 ^ p) HT) as Hi. fold q in Hi.
  pose proof (Z.div_mod z (10 ^ p) ltac:(lia)) as DM. fold q in DM.
  pose proof (Z.mod_pos_bound z (10 ^ p) HT) as MB.
  replace ((q + 1) * 10 ^ p =? z)%Z with false by (symmetry; apply Z.eqb_neq; lia).
  destruct (Z.eqb_spec (q * 10 ^ p) z) as [E|E].
  - replace (z mod 10 ^ p =? 0)%Z with true by (symmetry; apply Z.eqb_eq; lia).
    assert (q < 10 ^ k)%Z.
    { assert (E10 : (10 ^ D = 10 ^ k * 10 ^ p)%Z).
      { unfold p. rewrite <- Z.pow_add_r by lia. f_equal. lia. }
      rewrite E10 in HD. nia. }
    replace (q =? 10 ^ k)%Z with false by (symmetry; apply Z.eqb_neq; lia).
    reflexivity.
  - replace (z mod 10 ^ p =? 0)%Z with false by (symmetry; apply Z.eqb_neq; lia).
    reflexivity.
Qed.

Lemma shortestFrom_integer (z sh D : Z) (fuel : nat) :
  (0 < z)%Z -> (0 <= sh)%Z -> (z < 10 ^ D)%Z ->
  forall k, (1 <= k <= D)%Z -> (D - k < Z.of_nat fuel)%Z ->
  exists s k',
    Number.shortestFrom fuel (z * 2 ^ sh) (- sh) D k = (s, D, k')
    /\ (k' <= D)%Z /\ (s * 10 ^ (D - k') = z)%Z.
Proof.
  intros Hz Hsh HD. induction fuel as [|fuel IH]; intros k Hk Hf; [lia|].
  cbn [Number.shortestFrom]. rewrite digitsOfLength_integer by assumption.
  destruct (Z.eqb_spec (z mod 10 ^ (D - k)) 0) as [E|E].
  - exists (z / 10 ^ (D - k))%Z, k. split; [reflexivity|]. split; [lia|].
    assert (HT : (0 < 10 ^ (D - k))%Z) by (apply Z.pow_pos_nonneg; lia).
    pose proof (Z.div_mod z (10 ^ (D - k)) ltac:(lia)). lia.
  - assert (k <> D).
    { intros ->. rewrite Z.sub_diag, Z.pow_0_r, Z.mod_1_r in E. now apply E. }
    apply IH; lia.
Qed.

(** Number::toString prints an integer below 2^53 with its decimal
    digits. *)
Lemma toString_integer (negative : bool) (z : Z) :
  (0 < z < 2 ^ 53)%Z ->
  Number.toString (Number.Finite negative (Z.to_N z) 0)
  = (if negative then lit "-" else []) ++ Z_toString z.
Proof.
  intros Hz. unfold Number.toString.
  replace (Z.to_N z =? 0)%N with false by (symmetry; apply N.eqb_neq; lia).
  rewrite Z2N.id by lia. unfold Number.shortest.
  destruct (normalize_integer z Hz) as [-> HL].
  destruct (decimalExponent_integer z Hz) as [HD Hlt].
  set (D := Number.decimalExponent (z * 2 ^ (52 - Z.log2 z)) (- (52 - Z.log2 z))) in *.
  destruct (shortestFrom_integer z (52 - Z.log2 z) D 17 ltac:(lia) ltac:(lia) Hlt 1%Z
              ltac:(lia) ltac:(lia)) as [s [k' [-> [Hk E]]]].
  f_equal. unfold Number.format.
  replace ((k' <=? D) && (D <=? 21))%Z with true
    by (symmetry; apply andb_true_intro; split; apply Z.leb_le; lia).
  now rewrite E.
Qed.

Lemma Z_toString_opp (z : Z) : (0 < z)%Z -> Z_toString (- z) = lit "-" ++ Z_toString z.
Proof. destruct z; try lia. intros _. reflexivity. Qed.

(** In JSON an integer of magnitude below 2^53 is its decimal digits. *)
Lemma number_ofZ (z : Z) :
  (Z.abs z < 2 ^ 53)%Z -> Stringify.number (Number.ofZ z) = Z_toString z.
Proof.
  intros Hz. unfold Stringify.number, Number.ofZ.
  destruct (Z.ltb_spec z 0) as [N|P].
  - replace (Z.abs_N z) with (Z.to_N (- z)) by lia.
    rewrite toString_integer by lia.
    rewrite <- Z_toString_opp by lia. f_equal. lia.
  - destruct (Z.eq_dec z 0) as [->|Hnz]; [reflexivity|].
    replace (Z.abs_N z) with (Z.to_N z) by lia.
    now rewrite toString_integer by lia.
Qed.

Lemma isPlainInteger_ofZ (x : number) :
  Number.isPlainInteger x = true ->
  exists z, (Z.abs z < 2 ^ 53)%Z /\ x = Number.ofZ z.
Proof.
  destruct x as [| |negative m e]; try discriminate. cbn [Number.isPlainInteger].
  intros H. apply andb_prop in H as [H Hz]. apply andb_prop in H as [He Hm].
  apply Z.eqb_eq in He. apply N.ltb_lt in Hm. subst e.
  assert (Hm' : (Z.of_N m < 2 ^ 53)%Z).
  { change (2 ^ 53)%Z with (Z.of_N (2 ^ 53)%N). lia. }
  destruct negative.
  - destruct (N.eqb_spec m 0) as [->|Hn]; [discriminate|].
    exists (- Z.of_N m)%Z. split; [lia|]. unfold Number.ofZ.
    replace (- Z.of_N m <? 0)%Z with true by (symmetry; apply Z.ltb_lt; lia).
    f_equal. lia.
  - exists (Z.of_N m). split; [lia|]. unfold Number.ofZ.
    replace (Z.of_N m <? 0)%Z with false by (symmetry; apply Z.ltb_ge; lia).
    f_equal. lia.
Qed.
Lemma eventForId_text (e : NostrEvent) :
  Stringify.eventForId e
  = 0x5B%N :: 0x30%N :: 0x2C%N :: Stringify.quote (NostrEvent.pubkey e)
    ++ 0x2C%N :: Stringify.number (NostrEvent.created_at e)
    ++ 0x2C%N :: Stringify.number (NostrEvent.kind e)
    ++ 0x2C%N :: Stringify.array
                   (map (fun tag => Stringify.array (map Stringify.quote tag))
                        (NostrEvent.tags e))
    ++ 0x2C%N :: Stringify.quote (NostrEvent.content e) ++ [0x5D%N].
Proof.
  unfold Stringify.eventForId. unfold Stringify.array at 1. cbn [Stringify.join].
  rewrite <- !app_assoc. reflexivity.
Qed.

Lemma ofZ_inj (a b : Z) : Number.ofZ a = Number.ofZ b -> a = b.
Proof.
  unfold Number.ofZ. intros E. injection E as Es Em.
  destruct (Z.ltb_spec a 0), (Z.ltb_spec b 0); try discriminate; lia.
Qed.

Lemma eventForId_fields (e1 e2 : NostrEvent) :
  eventIntegers e1 = true -> eventIntegers e2 = true ->
  Stringify.eventForId e1 = Stringify.eventForId e2 ->
  NostrEvent.pubkey e1 = NostrEvent.pubkey e2
  /\ NostrEvent.created_at e1 = NostrEvent.created_at e2
  /\ NostrEvent.kind e1 = NostrEvent.kind e2
  /\ NostrEvent.tags e1 = NostrEvent.tags e2
  /\ NostrEvent.content e1 = NostrEvent.content e2.
Proof.
  unfold eventIntegers. intros I1 I2.
  apply andb_prop in I1 as [C1 K1]. apply andb_prop in I2 as [C2 K2].
  apply isPlainInteger_ofZ in C1 as [c1 [Hc1 C1]], K1 as [k1 [Hk1 K1]].
  apply isPlainInteger_ofZ in C2 as [c2 [Hc2 C2]], K2 as [k2 [Hk2 K2]].
  rewrite !eventForId_text, C1, K1, C2, K2, !number_ofZ by assumption. intros E.
  apply (f_equal (skipn 3)) in E. cbn [skipn] in E.
  apply quote_inj in E as [Ep E].
  apply (f_equal (@tl N)) in E. cbn [tl] in E.
  apply split_at_separator in E as [Ec E]; try apply Z_toString_no_comma.
  apply split_at_separator in E as [Ek E]; try apply Z_toString_no_comma.
  apply (array_inj _ _ tag_inj tag_head) in E as [Et E].
  apply (f_equal (@tl N)) in E. cbn [tl] in E.
  apply quote_inj in E as [Ex _].
  apply Z_toString_inj in Ec, Ek. subst. repeat split; assumption.
Qed.

(** X19: the text that [validateEvent] hashes tells apart the events whose
    created_at and kind are integers of magnitude below 2^53: two of them
    have the same serialization exactly when they have the same pubkey,
    created_at, kind, tags and content.  The id and the signature do not
    enter it. *)
Theorem eventForId_injective (e1 e2 : NostrEvent) :
  eventIntegers e1 = true -> eventIntegers e2 = true ->
  (Stringify.eventForId e1 = Stringify.eventForId e2 <->
   NostrEvent.pubkey e1 = NostrEvent.pubkey e2
   /\ NostrEvent.created_at e1 = NostrEvent.created_at e2
   /\ NostrEvent.kind e1 = NostrEvent.kind e2
   /\ NostrEvent.tags e1 = NostrEvent.tags e2
   /\ NostrEvent.content e1 = NostrEvent.content e2).
Proof.
  intros I1 I2. split; [now apply eventForId_fields|].
  intros [Ep [Ec [Ek [Et Ex]]]]. unfold Stringify.eventForId.
  now rewrite Ep, Ec, Ek, Et, Ex.
Qed.

Example eventForId_injective_witness :
  Stringify.eventForId emptyNote = Stringify.eventForId emptyNoteSigned <->
  NostrEvent.pubkey emptyNote = NostrEvent.pubkey emptyNoteSigned
  /\ NostrEvent.created_at emptyNote = NostrEvent.created_at emptyNoteSigned
  /\ NostrEvent.kind emptyNote = NostrEvent.kind emptyNoteSigned
  /\ NostrEvent.tags emptyNote = NostrEvent.tags emptyNoteSigned
  /\ NostrEvent.content emptyNote = NostrEvent.content emptyNoteSigned.
Proof.
  apply (eventForId_injective emptyNote emptyNoteSigned); reflexivity.
Defined.

(** Outside the integers the serialization tells less: the two infinities
    are both written [null], and -0 is written as 0. *)
Example eventForId_infinities :
  Stringify.eventForId (emptyNoteAt (Number.Infinity false))
  = Stringify.eventForId (emptyNoteAt (Number.Infinity true))
  /\ Stringify.eventForId (emptyNoteAt (Number.Finite true 0 0))
     = Stringify.eventForId (emptyNoteAt (Number.ofZ 0)).
Proof. split; reflexivity. Qed.

(** ** The bytes that are hashed *)

Ltac surrogates :=
  unfold Stringify.isHighSurrogate, Stringify.isLowSurrogate in *;
  repeat match goal with
         | H : (_ && _)%bool = true |- _ => apply andb_prop in H as [? ?]
         | H : (_ && _)%bool = false |- _ => apply andb_false_iff in H as [?|?]
         | H : (_ <=? _)%N = true |- _ => apply N.leb_le in H
         | H : (_ <=? _)%N = false |- _ => apply N.leb_gt in H
         end.

Lemma WellFormed_app (a b : jsstring) :
  WellFormed a -> WellFormed b -> WellFormed (a ++ b).
Proof.
  intros Wa Wb. induction Wa; simpl; [assumption | |].
  - now apply WellFormed_unit.
  - now apply WellFormed_pair.
Qed.

Lemma WellFormed_ascii (s : jsstring) :
  Forall (fun c => (c < 0x80)%N) s -> WellFormed s.
Proof.
  induction 1 as [|c s Hc _ IH]; [constructor|].
  apply WellFormed_unit; [lia | | | exact IH];
    unfold Stringify.isHighSurrogate, Stringify.isLowSurrogate;
    apply andb_false_intro1; apply N.leb_gt; lia.
Qed.

Lemma hexDigit_ascii (n : N) : (n < 16)%N -> (hexDigit n < 0x80)%N.
Proof. unfold hexDigit. intros Hn. destruct (n <? 10)%N; lia. Qed.

Lemma unicodeEscape_WellFormed (c : N) :
  (c < 65536)%N -> WellFormed (Stringify.unicodeEscape c).
Proof.
  intros Hc. apply WellFormed_ascii. unfold Stringify.unicodeEscape.
  assert (c / 4096 < 16)%N by (apply N.Div0.div_lt_upper_bound; lia).
  repeat constructor; try (apply hexDigit_ascii; try assumption; apply N.mod_lt; discriminate).
Qed.

Lemma escapeUnit_WellFormed (c : N) :
  (c < 65536)%N ->
  Stringify.isHighSurrogate c = false -> Stringify.isLowSurrogate c = false ->
  WellFormed (Stringify.escapeUnit c).
Proof.
  intros Hc Hh Hl. unfold Stringify.escapeUnit.
  do 7 (match goal with
        | |- WellFormed (if ?b then _ else _) =>
            destruct b; [apply WellFormed_ascii; repeat constructor|]
        end).
  destruct (c <? 32)%N; [now apply unicodeEscape_WellFormed|].
  apply WellFormed_unit; [assumption.. | constructor].
Qed.

Lemma quoteBody_WellFormed (s : jsstring) :
  codeUnits s = true -> WellFormed (Stringify.quoteBody s).
Proof.
  enough (G : (codeUnits s = true -> WellFormed (Stringify.quoteBody s))
              /\ forall c, codeUnits (c :: s) = true ->
                           WellFormed (Stringify.quoteBody (c :: s))) by apply G.
  induction s as [|d s [IH1 IH2]].
  - split; [constructor|]. intros c U. simpl in U.
    apply andb_prop in U as [U _]. apply N.ltb_lt in U. cbn [Stringify.quoteBody].
    destruct (Stringify.isHighSurrogate c) eqn:Hh;
      [now apply unicodeEscape_WellFormed|].
    destruct (Stringify.isLowSurrogate c) eqn:Hl.
    + apply WellFormed_app; [now apply unicodeEscape_WellFormed | constructor].
    + apply WellFormed_app; [now apply escapeUnit_WellFormed | constructor].
  - split; [apply IH2|]. intros c U.
    change (codeUnits (c :: d :: s)) with ((c <? 65536)%N && codeUnits (d :: s)) in U.
    apply andb_prop in U as [Uc U]. apply N.ltb_lt in Uc.
    change (Stringify.quoteBody (c :: d :: s))
      with (if Stringify.isHighSurrogate c then
              if Stringify.isLowSurrogate d then c :: d :: Stringify.quoteBody s
              else Stringify.unicodeEscape c ++ Stringify.quoteBody (d :: s)
            else if Stringify.isLowSurrogate c
                 then Stringify.unicodeEscape c ++ Stringify.quoteBody (d :: s)
                 else Stringify.escapeUnit c ++ Stringify.quoteBody (d :: s)).
    destruct (Stringify.isHighSurrogate c) eqn:Hh.
    { destruct (Stringify.isLowSurrogate d) eqn:Hd.
      - apply WellFormed_pair; [assumption.. |]. apply IH1.
        simpl in U. now apply andb_prop in U as [_ U].
      - apply WellFormed_app; [now apply unicodeEscape_WellFormed | now apply IH2]. }
    destruct (Stringify.isLowSurrogate c) eqn:Hl.
    + apply WellFormed_app; [now apply unicodeEscape_WellFormed | now apply IH2].
    + apply WellFormed_app; [now apply escapeUnit_WellFormed | now apply IH2].
Qed.

Lemma quote_WellFormed (s : jsstring) :
  codeUnits s = true -> WellFormed (Stringify.quote s).
Proof.
  intros U. unfold Stringify.quote.
  apply WellFormed_app; [apply WellFormed_ascii; repeat constructor|].
  apply WellFormed_app; [now apply quoteBody_WellFormed|].
  apply WellFormed_ascii; repeat constructor.
Qed.

Lemma array_WellFormed (parts : list jsstring) :
  Forall WellFormed parts -> WellFormed (Stringify.array parts).
Proof.
  intros F. unfold Stringify.array.
  apply WellFormed_app; [apply WellFormed_ascii; repeat constructor|].
  apply WellFormed_app; [|apply WellFormed_ascii; repeat constructor].
  destruct F as [|p ps Wp F]; [constructor|].
  rewrite join_cons. apply WellFormed_app; [exact Wp|].
  induction F as [|q ps Wq F IH]; [constructor|]. cbn [flat_map].
  rewrite <- app_assoc.
  apply WellFormed_app; [apply WellFormed_ascii; repeat constructor|].
  now apply WellFormed_app.
Qed.

Lemma Z_toString_WellFormed (z : Z) : WellFormed (Z_toString z).
Proof.
  apply WellFormed_ascii. eapply Forall_impl; [|apply Z_toString_digits].
  simpl. intros c Hc. lia.
Qed.

Lemma eventForId_WellFormed (e : NostrEvent) :
  eventUnits e = true -> eventIntegers e = true ->
  WellFormed (Stringify.eventForId e).
Proof.
  unfold eventUnits, eventIntegers. intros U I.
  apply andb_prop in U as [U Ut]. apply andb_prop in U as [Up Uc].
  apply andb_prop in I as [C K].
  apply isPlainInteger_ofZ in C as [c [Hc C]], K as [k [Hk K]].
  unfold Stringify.eventForId. rewrite C, K, !number_ofZ by assumption.
  apply array_WellFormed.
  apply Forall_cons; [apply WellFormed_ascii; repeat constructor|].
  apply Forall_cons; [now apply quote_WellFormed|].
  apply Forall_cons; [apply Z_toString_WellFormed|].
  apply Forall_cons; [apply Z_toString_WellFormed|].
  apply Forall_cons;
    [|apply Forall_cons; [now apply quote_WellFormed | apply Forall_nil]].
  apply array_WellFormed. apply Forall_map, Forall_forall. intros tag I.
  apply array_WellFormed. apply Forall_map, Forall_forall. intros x Ix.
  apply quote_WellFormed.
  rewrite forallb_forall in Ut. specialize (Ut tag I).
  rewrite forallb_forall in Ut. now apply Ut.
Qed.

Ltac divlia := zify; Z.to_euclidean_division_equations; lia.

Lemma cons_inv (A : Type) (a b : A) (x y : list A) :
  a :: x = b :: y -> a = b /\ x = y.
Proof. intros E. now inversion E. Qed.

Lemma codePoints_unit (c : N) (s : jsstring) :
  Stringify.isHighSurrogate c = false -> Stringify.isLowSurrogate c = false ->
  TextEncoder.codePoints (c :: s) = c :: TextEncoder.codePoints s.
Proof. intros Hh Hl. cbn [TextEncoder.codePoints]. now rewrite Hh, Hl. Qed.

Lemma codePoints_pair (c d : N) (s : jsstring) :
  Stringify.isHighSurrogate c = true -> Stringify.isLowSurrogate d = true ->
  TextEncoder.codePoints (c :: d :: s)
  = (0x10000 + (c - 0xD800) * 0x400 + (d - 0xDC00))%N :: TextEncoder.codePoints s.
Proof. intros Hh Hl. cbn [TextEncoder.codePoints]. now rewrite Hh, Hl. Qed.

Lemma codePoints_scalar (s : jsstring) :
  WellFormed s -> Forall (fun cp => (cp < 0x110000)%N) (TextEncoder.codePoints s).
Proof.
  induction 1 as [|c s Hc Hh Hl W IH|c d s Hh Hl W IH]; [constructor| |].
  - rewrite codePoints_unit by assumption. constructor; [lia | exact IH].
  - rewrite codePoints_pair by assumption. constructor; [|exact IH].
    surrogates. lia.
Qed.

Lemma codePoints_inj (s1 s2 : jsstring) :
  WellFormed s1 -> WellFormed s2 ->
  TextEncoder.codePoints s1 = TextEncoder.codePoints s2 -> s1 = s2.
Proof.
  intros W1. revert s2.
  induction W1 as [|c s Hc Hh Hl W IH|c d s Hh Hl W IH];
    intros s2 W2 E;
    destruct W2 as [|c' s' Hc' Hh' Hl' W'|c' d' s' Hh' Hl' W'];
    try rewrite (codePoints_unit c s) in E by assumption;
    try rewrite (codePoints_pair c d s) in E by assumption;
    try rewrite (codePoints_unit c' s') in E by assumption;
    try rewrite (codePoints_pair c' d' s') in E by assumption;
    try discriminate; try reflexivity.
  - apply cons_inv in E as [-> E]. f_equal. now apply IH.
  - exfalso. apply cons_inv in E as [E _]. surrogates; lia.
  - exfalso. apply cons_inv in E as [E _]. surrogates; lia.
  - apply cons_inv in E as [E1 E2]. rewrite (IH s' W' E2).
    assert (c = c' /\ d = d') as [-> ->] by (surrogates; lia). reflexivity.
Qed.

Lemma utf8_bytes (cp : N) :
  (cp < 0x110000)%N ->
  map Byte.to_N (TextEncoder.utf8 cp)
  = (if cp <? 0x80 then [cp]
     else if cp <? 0x800 then [0xC0 + cp / 64; 0x80 + cp mod 64]
     else if cp <? 0x10000 then
       [0xE0 + cp / 4096; 0x80 + cp / 64 mod 64; 0x80 + cp mod 64]
     else
       [0xF0 + cp / 262144; 0x80 + cp / 4096 mod 64;
        0x80 + cp / 64 mod 64; 0x80 + cp mod 64])%N.
Proof.
  intros Hc. unfold TextEncoder.utf8. rewrite map_map.
  destruct (cp <? 0x80)%N eqn:E1; [apply N.ltb_lt in E1|apply N.ltb_ge in E1].
  { cbn [map]. rewrite to_N_byte_of_N by lia. reflexivity. }
  destruct (cp <? 0x800)%N eqn:E2; [apply N.ltb_lt in E2|apply N.ltb_ge in E2].
  { cbn [map]. rewrite !to_N_byte_of_N by divlia. reflexivity. }
  destruct (cp <? 0x10000)%N eqn:E3; [apply N.ltb_lt in E3|apply N.ltb_ge in E3].
  { cbn [map]. rewrite !to_N_byte_of_N by divlia. reflexivity. }
  cbn [map]. rewrite !to_N_byte_of_N by divlia. reflexivity.
Qed.

Lemma div_mod_eq (x y k : N) :
  k <> 0%N -> (x / k = y / k)%N -> (x mod k = y mod k)%N -> x = y.
Proof.
  intros Hk Ed Em. rewrite (N.div_mod x k Hk), (N.div_mod y k Hk). congruence.
Qed.

Lemma utf8_code_point (a b : N) (x y : list N) :
  (a < 0x110000)%N -> (b < 0x110000)%N ->
  map Byte.to_N (TextEncoder.utf8 a) ++ x = map Byte.to_N (TextEncoder.utf8 b) ++ y ->
  a = b.
Proof.
  intros Ha Hb. rewrite !utf8_bytes by assumption.
  destruct (a <? 0x80)%N eqn:A1; [apply N.ltb_lt in A1|apply N.ltb_ge in A1];
    [|destruct (a <? 0x800)%N eqn:A2; [apply N.ltb_lt in A2|apply N.ltb_ge in A2];
      [|destruct (a <? 0x10000)%N eqn:A3; [apply N.ltb_lt in A3|apply N.ltb_ge in A3]]];
    (destruct (b <? 0x80)%N eqn:B1; [apply N.ltb_lt in B1|apply N.ltb_ge in B1];
     [|destruct (b <? 0x800)%N eqn:B2; [apply N.ltb_lt in B2|apply N.ltb_ge in B2];
       [|destruct (b <? 0x10000)%N eqn:B3; [apply N.ltb_lt in B3|apply N.ltb_ge in B3]]]);
    cbn [app]; intros E.
  all: try (apply cons_inv in E as [E _]; exfalso; divlia).
  - now apply cons_inv in E as [E _].
  - apply cons_inv in E as [E1 E]. apply cons_inv in E as [E2 _].
    apply (div_mod_eq a b 64); [discriminate | lia | lia].
  - apply cons_inv in E as [E1 E]. apply cons_inv in E as [E2 E].
    apply cons_inv in E as [E3 _].
    apply (div_mod_eq a b 64); [discriminate | | lia].
    apply (div_mod_eq _ _ 64); [discriminate | | lia].
    rewrite !N.Div0.div_div. change (64 * 64)%N with 4096%N. lia.
  - apply cons_inv in E as [E1 E]. apply cons_inv in E as [E2 E].
    apply cons_inv in E as [E3 E]. apply cons_inv in E as [E4 _].
    apply (div_mod_eq a b 64); [discriminate | | lia].
    apply (div_mod_eq _ _ 64); [discriminate | | lia].
    rewrite !N.Div0.div_div. change (64 * 64)%N with 4096%N.
    apply (div_mod_eq _ _ 64); [discriminate | | lia].
    rewrite !N.Div0.div_div. change (4096 * 64)%N with 262144%N. lia.
Qed.

Lemma utf8_sequence_inj (l1 l2 : list N) :
  Forall (fun cp => (cp < 0x110000)%N) l1 ->
  Forall (fun cp => (cp < 0x110000)%N) l2 ->
  flat_map TextEncoder.utf8 l1 = flat_map TextEncoder.utf8 l2 -> l1 = l2.
Proof.
  intros F1. revert l2.
  induction F1 as [|a l1 Ha F1 IH]; intros l2 F2 E;
    destruct F2 as [|b l2 Hb F2]; [reflexivity | | |].
  - exfalso. apply (f_equal (map Byte.to_N)) in E. cbn [flat_map] in E.
    rewrite map_app, utf8_bytes in E by assumption.
    destruct (b <? 128)%N; [discriminate|].
    destruct (b <? 2048)%N; [discriminate|].
    destruct (b <? 65536)%N; discriminate.
  - exfalso. apply (f_equal (map Byte.to_N)) in E. cbn [flat_map] in E.
    rewrite map_app, utf8_bytes in E by assumption.
    destruct (a <? 128)%N; [discriminate|].
    destruct (a <? 2048)%N; [discriminate|].
    destruct (a <? 65536)%N; discriminate.
  - cbn [flat_map] in E.
    assert (a = b).
    { apply (f_equal (map Byte.to_N)) in E. rewrite !map_app in E.
      now apply utf8_code_point in E. }
    subst b. apply app_inv_head in E. f_equal. now apply IH.
Qed.

(** [TextEncoder] loses nothing of a string without lone surrogates. *)
Lemma encode_inj (s1 s2 : jsstring) :
  WellFormed s1 -> WellFormed s2 ->
  TextEncoder.encode s1 = TextEncoder.encode s2 -> s1 = s2.
Proof.
  intros W1 W2 E. apply codePoints_inj; try assumption.
  apply utf8_sequence_inj; try (now apply codePoints_scalar). exact E.
Qed.

Lemma bytesToHex_inj (a b : list byte) : bytesToHex a = bytesToHex b -> a = b.
Proof.
  revert b. induction a as [|x a IH]; intros [|y b] E; try discriminate; [reflexivity|].
  change (hexDigit (Byte.to_N x / 16) :: hexDigit (Byte.to_N x mod 16) :: bytesToHex a
          = hexDigit (Byte.to_N y / 16) :: hexDigit (Byte.to_N y mod 16) :: bytesToHex b)
    in E.
  apply cons_inv in E as [E1 E]. apply cons_inv in E as [E2 E].
  f_equal; [|now apply IH].
  rewrite <- (hexToBytes_hex2 x), <- (hexToBytes_hex2 y). unfold hex2.
  now rewrite E1, E2.
Qed.

(** X20: the id check binds the event.  Two events of code units, with
    integers of magnitude below 2^53 for created_at and kind, that both
    pass the id check with the same id have the same pubkey, created_at,
    kind, tags and content, or else their serializations are two different
    messages with the same SHA-256 digest. *)
Theorem validateEvent_id_binding `{Schnorr} (e1 e2 : NostrEvent) :
  eventUnits e1 = true -> eventUnits e2 = true ->
  eventIntegers e1 = true -> eventIntegers e2 = true ->
  idMatch (validateEvent e1) = true -> idMatch (validateEvent e2) = true ->
  NostrEvent.id e1 = NostrEvent.id e2 ->
  (NostrEvent.pubkey e1 = NostrEvent.pubkey e2
   /\ NostrEvent.created_at e1 = NostrEvent.created_at e2
   /\ NostrEvent.kind e1 = NostrEvent.kind e2
   /\ NostrEvent.tags e1 = NostrEvent.tags e2
   /\ NostrEvent.content e1 = NostrEvent.content e2)
  \/ (TextEncoder.encode (Stringify.eventForId e1)
      <> TextEncoder.encode (Stringify.eventForId e2)
      /\ sha256 (TextEncoder.encode (Stringify.eventForId e1))
         = sha256 (TextEncoder.encode (Stringify.eventForId e2))).
Proof.
  intros U1 U2 I1 I2 M1 M2 I. rewrite validateEvent_report in M1, M2.
  cbv zeta in M1, M2. cbn [idMatch] in M1, M2.
  apply streq_eq in M1, M2.
  assert (E : computedId e1 = computedId e2) by congruence.
  unfold computedId in E. apply bytesToHex_inj in E.
  destruct (list_eq_dec byte_eq_dec
              (TextEncoder.encode (Stringify.eventForId e1))
              (TextEncoder.encode (Stringify.eventForId e2))) as [B|B].
  - left. apply eventForId_fields; try assumption.
    apply encode_inj; try (now apply eventForId_WellFormed). exact B.
  - right. now split.
Qed.

Example validateEvent_id_binding_witness :
  (NostrEvent.pubkey emptyNote = NostrEvent.pubkey emptyNoteSigned
   /\ NostrEvent.created_at emptyNote = NostrEvent.created_at emptyNoteSigned
   /\ NostrEvent.kind emptyNote = NostrEvent.kind emptyNoteSigned
   /\ NostrEvent.tags emptyNote = NostrEvent.tags emptyNoteSigned
   /\ NostrEvent.content emptyNote = NostrEvent.content emptyNoteSigned)
  \/ (TextEncoder.encode (Stringify.eventForId emptyNote)
      <> TextEncoder.encode (Stringify.eventForId emptyNoteSigned)
      /\ sha256 (TextEncoder.encode (Stringify.eventForId emptyNote))
         = sha256 (TextEncoder.encode (Stringify.eventForId emptyNoteSigned))).
Proof.
  apply (@validateEvent_id_binding acceptAll emptyNote emptyNoteSigned);
    vm_compute; reflexivity.
Defined.
